(** * Kudu: the tablet fuzz harness and the RPC connection identifier

    A shallow embedding of
      - [src/kudu/rpc/connection_id.cc]             (module [Rpc]),
      - [src/kudu/integration-tests/fuzz-itest.cc]  (modules [Fuzz], [Dump],
        [KeyValue], [SavedValues], [Harness], [RunFacts]),
    and, for the properties that speak about the tablet the harness drives,
      - the client interface the harness calls (module [Client]) and the
        table a tablet is to show through it (module [Logical]),
      - a model of the storage engine written from the specification
        (module [Tablet]),
      - the harness run against a tablet server (module [FuzzRun]).

    Conventions.  A C++ [int] is a [Z]; where the code converts between
    signed and unsigned 32-bit values or compares an [int] with a [size_t]
    the wrap-around is written out.  A [std::vector] is a [list];
    [push_back] appends at the end.  [boost::optional<T>] is [option T]. *)

From stdpp Require Import base option list numbers sorting.
From Stdlib Require Import ZArith Lia Bool.
From Stdlib Require Ascii String Decimal DecimalString DecimalZ.
Import ListNotations.

Local Open Scope Z_scope.

(* ===================================================================== *)
(** * Machine integers *)
(* ===================================================================== *)

Module MachineInt.

(** [size_t] on the LP64 targets Kudu builds for. *)
Definition size_t_modulus : Z := 2 ^ 64.

(** Conversion of an [int] to [size_t] (usual arithmetic conversions). *)
Definition to_size_t (x : Z) : Z := x mod size_t_modulus.

Definition uint32_modulus : Z := 2 ^ 32.

(** The range of [int]. *)
Definition is_int32 (x : Z) : Prop := - 2 ^ 31 <= x < 2 ^ 31.

(** Conversion of an [int] to [uint32_t]. *)
Definition to_uint32 (x : Z) : Z := x mod uint32_modulus.

(** Conversion of a [uint32_t] to [int] (two's complement). *)
Definition to_int32 (x : Z) : Z :=
  let r := x mod uint32_modulus in
  if r <? 2 ^ 31 then r else r - uint32_modulus.

Lemma to_size_t_nonneg (x : Z) : 0 <= x < size_t_modulus -> to_size_t x = x.
Proof. intros H. unfold to_size_t. apply Z.mod_small. exact H. Qed.

Lemma to_size_t_int32_ge (x : Z) : is_int32 x -> x <= to_size_t x.
Proof.
  unfold is_int32, to_size_t, size_t_modulus. intros H.
  destruct (Z_lt_le_dec x 0) as [Hneg|Hpos].
  - pose proof (Z.mod_pos_bound x (2 ^ 64) ltac:(lia)). lia.
  - rewrite Z.mod_small by lia. lia.
Qed.

Lemma to_int32_to_uint32 (x : Z) : is_int32 x -> to_int32 (to_uint32 x) = x.
Proof.
  unfold is_int32, to_int32, to_uint32, uint32_modulus. intros H.
  rewrite Z.mod_mod by lia.
  destruct (Z_lt_le_dec x 0) as [Hneg|Hpos].
  - replace (x mod 2 ^ 32) with (x + 2 ^ 32).
    + destruct (Z.ltb_spec (x + 2 ^ 32) (2 ^ 31)); lia.
    + apply Z.mod_unique with (q := -1); lia.
  - rewrite Z.mod_small by lia.
    destruct (Z.ltb_spec x (2 ^ 31)); lia.
Qed.

(** The low bit, as [x & 1] computes it, on both representations. *)
Lemma land_1_odd (x : Z) : Z.land x 1 = if Z.odd x then 1 else 0.
Proof.
  change 1 with (Z.ones 1) at 1. rewrite Z.land_ones by lia.
  change (2 ^ 1) with 2. rewrite Zmod_odd. reflexivity.
Qed.

Lemma odd_to_uint32 (x : Z) : Z.odd (to_uint32 x) = Z.odd x.
Proof.
  unfold to_uint32, uint32_modulus.
  rewrite (Z.div_mod x (2 ^ 32)) at 2 by lia.
  rewrite Z.odd_add, Z.odd_mul. simpl. reflexivity.
Qed.

End MachineInt.

(* ===================================================================== *)
(** * rpc/connection_id.cc *)
(* ===================================================================== *)

Module Rpc.

(** [Sockaddr] and [UserCredentials] are declared in headers that are not
    part of the sources at hand; [ConnectionId] uses of each only a hash
    code and an equality test.  [HashEq] is that interface, [HashEqLaws]
    the two laws every such pair is expected to obey. *)
Class HashEq (A : Type) := {
  hash_code : A -> Z;        (* size_t HashCode() const *)
  equals : A -> A -> bool;   (* operator== / Equals *)
}.

Class HashEqLaws (A : Type) `{HashEq A} : Prop := {
  equals_refl : forall a : A, equals a a = true;
  equals_hash : forall a b : A, equals a b = true -> hash_code a = hash_code b;
}.

(** That the equality test of a member type is symmetric and transitive:
    with [equals_refl], an equivalence. *)
Class HashEqEquiv (A : Type) `{HashEq A} : Prop := {
  equals_sym : forall a b : A, equals a b = equals b a;
  equals_trans : forall a b c : A,
      equals a b = true -> equals b c = true -> equals a c = true;
}.

Section ConnectionId.

Context {Sockaddr UserCredentials : Type}.
Context `{HashEq Sockaddr} `{HashEq UserCredentials}.

(** [boost::hash_combine(seed, v)], from Boost; only its being a function
    of the seed and the value matters here. *)
Variable hash_combine : Z -> Z -> Z.

(** What a default-constructed member holds. *)
Variable default_remote : Sockaddr.
Variable default_user_credentials : UserCredentials.

Record ConnectionId := mkConnectionId {
  remote_ : Sockaddr;
  user_credentials_ : UserCredentials;
}.

(** [ConnectionId::ConnectionId()] *)
Definition ConnectionId_default : ConnectionId :=
  mkConnectionId default_remote default_user_credentials.

(** [ConnectionId::set_remote] *)
Definition set_remote (this : ConnectionId) (remote : Sockaddr) : ConnectionId :=
  mkConnectionId remote (user_credentials_ this).

(** [ConnectionId::set_user_credentials] *)
Definition set_user_credentials (this : ConnectionId) (uc : UserCredentials)
  : ConnectionId :=
  mkConnectionId (remote_ this) uc.

(** [ConnectionId::ConnectionId(const Sockaddr&, UserCredentials)] *)
Definition ConnectionId_make (remote : Sockaddr) (uc : UserCredentials)
  : ConnectionId :=
  set_user_credentials (set_remote ConnectionId_default remote) uc.

(** [ConnectionId::DoCopyFrom]: two member assignments, in order. *)
Definition DoCopyFrom (this other : ConnectionId) : ConnectionId :=
  let this := set_remote this (remote_ other) in
  set_user_credentials this (user_credentials_ other).

(** [ConnectionId::CopyFrom] *)
Definition CopyFrom (this other : ConnectionId) : ConnectionId :=
  DoCopyFrom this other.

(** [ConnectionId::ConnectionId(const ConnectionId&)] *)
Definition ConnectionId_copy (other : ConnectionId) : ConnectionId :=
  DoCopyFrom ConnectionId_default other.

(** [ConnectionId::HashCode] *)
Definition HashCode (this : ConnectionId) : Z :=
  let seed := 0 in
  let seed := hash_combine seed (hash_code (remote_ this)) in
  let seed := hash_combine seed (hash_code (user_credentials_ this)) in
  seed.

(** [ConnectionId::Equals] *)
Definition Equals (this other : ConnectionId) : bool :=
  equals (remote_ this) (remote_ other)
  && equals (user_credentials_ this) (user_credentials_ other).

(** [ConnectionIdHash::operator()] *)
Definition ConnectionIdHash (conn_id : ConnectionId) : Z := HashCode conn_id.

(** [ConnectionIdEqual::operator()] *)
Definition ConnectionIdEqual (cid1 cid2 : ConnectionId) : bool := Equals cid1 cid2.

Lemma DoCopyFrom_fields (this other : ConnectionId) :
  remote_ (DoCopyFrom this other) = remote_ other
  /\ user_credentials_ (DoCopyFrom this other) = user_credentials_ other.
Proof. split; reflexivity. Qed.

Lemma DoCopyFrom_eq (this other : ConnectionId) : DoCopyFrom this other = other.
Proof. destruct other; reflexivity. Qed.

Lemma Equals_true_iff (a b : ConnectionId) :
  Equals a b = true <->
  equals (remote_ a) (remote_ b) = true
  /\ equals (user_credentials_ a) (user_credentials_ b) = true.
Proof. unfold Equals. apply andb_true_iff. Qed.

Section Laws.

Context `{!HashEqLaws Sockaddr} `{!HashEqLaws UserCredentials}.

Lemma Equals_refl (a : ConnectionId) : Equals a a = true.
Proof. apply Equals_true_iff. split; apply equals_refl. Qed.

Lemma Equals_HashCode (a b : ConnectionId) :
  Equals a b = true -> HashCode a = HashCode b.
Proof.
  intros [Hr Hu]%Equals_true_iff. unfold HashCode.
  rewrite (equals_hash _ _ Hr), (equals_hash _ _ Hu). reflexivity.
Qed.

(** C10.  After [a.CopyFrom(b)], and after copy-constructing from [b], the
    result [Equals] [b] and has [b]'s [HashCode]; [Equals] is the
    conjunction of the comparison of the remote addresses and of the user
    credentials, so two identifiers that agree on those two members are
    [Equals] whatever else is said of them; identifiers that are [Equals]
    have equal [HashCode], hence [ConnectionIdHash] and [ConnectionIdEqual]
    are consistent hash-map functors.  The member types enter through their
    interface [HashEq] and its laws [HashEqLaws]. *)
Theorem ConnectionId_copy_equals_hash :
  (forall a b : ConnectionId,
      Equals (CopyFrom a b) b = true /\ HashCode (CopyFrom a b) = HashCode b)
  /\ (forall b : ConnectionId,
      Equals (ConnectionId_copy b) b = true
      /\ HashCode (ConnectionId_copy b) = HashCode b)
  /\ (forall a b : ConnectionId,
      Equals a b
      = equals (remote_ a) (remote_ b)
        && equals (user_credentials_ a) (user_credentials_ b))
  /\ (forall a b : ConnectionId, Equals a b = true -> HashCode a = HashCode b)
  /\ (forall a b : ConnectionId,
      ConnectionIdEqual a b = true -> ConnectionIdHash a = ConnectionIdHash b).
Proof.
  split; [|split; [|split; [|split]]].
  - intros a b. unfold CopyFrom. rewrite DoCopyFrom_eq.
    split; [apply Equals_refl | reflexivity].
  - intros b. unfold ConnectionId_copy. rewrite DoCopyFrom_eq.
    split; [apply Equals_refl | reflexivity].
  - intros a b. reflexivity.
  - intros a b. apply Equals_HashCode.
  - intros a b. unfold ConnectionIdEqual, ConnectionIdHash. apply Equals_HashCode.
Qed.

End Laws.

Section Equivalence.

Context `{!HashEqLaws Sockaddr} `{!HashEqLaws UserCredentials}.
Context `{!HashEqEquiv Sockaddr} `{!HashEqEquiv UserCredentials}.

(** X18.  When the equality tests of [Sockaddr] and of [UserCredentials]
    are equivalences, so is [Equals], hence [ConnectionIdEqual]: it is
    reflexive, symmetric and transitive.  The setters respect it: setting
    equal remotes, or equal user credentials, in two identifiers that are
    [Equals] leaves them [Equals], with equal [HashCode]; and the
    identifier built from a remote and user credentials is the one the two
    setters make of any identifier. *)
Theorem Equals_is_equivalence :
  (forall a : ConnectionId, ConnectionIdEqual a a = true)
  /\ (forall a b : ConnectionId, ConnectionIdEqual a b = ConnectionIdEqual b a)
  /\ (forall a b c : ConnectionId,
        ConnectionIdEqual a b = true -> ConnectionIdEqual b c = true ->
        ConnectionIdEqual a c = true)
  /\ (forall (a b : ConnectionId) (r r' : Sockaddr),
        Equals a b = true -> equals r r' = true ->
        Equals (set_remote a r) (set_remote b r') = true
        /\ HashCode (set_remote a r) = HashCode (set_remote b r'))
  /\ (forall (a b : ConnectionId) (u u' : UserCredentials),
        Equals a b = true -> equals u u' = true ->
        Equals (set_user_credentials a u) (set_user_credentials b u') = true
        /\ HashCode (set_user_credentials a u) = HashCode (set_user_credentials b u'))
  /\ (forall (a : ConnectionId) (r : Sockaddr) (u : UserCredentials),
        set_user_credentials (set_remote a r) u = ConnectionId_make r u
        /\ set_remote (set_user_credentials a u) r = ConnectionId_make r u).
Proof.
  unfold ConnectionIdEqual. split; [|split; [|split; [|split; [|split]]]].
  - apply Equals_refl.
  - intros a b. unfold Equals.
    rewrite (equals_sym (remote_ a)), (equals_sym (user_credentials_ a)). reflexivity.
  - intros a b c [Hr Hu]%Equals_true_iff [Hr' Hu']%Equals_true_iff.
    apply Equals_true_iff. split.
    + exact (equals_trans _ _ _ Hr Hr').
    + exact (equals_trans _ _ _ Hu Hu').
  - intros a b r r' [_ Hu]%Equals_true_iff Hr.
    assert (He : Equals (set_remote a r) (set_remote b r') = true).
    { apply Equals_true_iff. split; [exact Hr|exact Hu]. }
    split; [exact He|apply Equals_HashCode; exact He].
  - intros a b u u' [Hr _]%Equals_true_iff Hu.
    assert (He : Equals (set_user_credentials a u) (set_user_credentials b u') = true).
    { apply Equals_true_iff. split; [exact Hr|exact Hu]. }
    split; [exact He|apply Equals_HashCode; exact He].
  - intros a r u. split; reflexivity.
Qed.

End Equivalence.

End ConnectionId.

Arguments ConnectionId : clear implicits.

(** ** A concrete instance: IPv4 endpoints and user names *)

(** An address and a port. *)
Definition Endpoint : Type := Z * Z.

#[export] Instance Endpoint_HashEq : HashEq Endpoint := {|
  hash_code := fun e => (fst e * 31 + snd e) mod 2 ^ 64;
  equals := fun a b => (fst a =? fst b) && (snd a =? snd b);
|}.

#[export] Instance Endpoint_HashEqLaws : HashEqLaws Endpoint.
Proof.
  split.
  - intros [a p]. cbn. rewrite !Z.eqb_refl. reflexivity.
  - intros [a p] [a' p']. cbn.
    intros [->%Z.eqb_eq ->%Z.eqb_eq]%andb_true_iff. reflexivity.
Defined.

(** The name of the real user, as a list of character codes. *)
Definition UserName : Type := list Z.

Fixpoint UserName_hash (u : UserName) : Z :=
  match u with
  | [] => 7
  | c :: u' => (c + 131 * UserName_hash u') mod 2 ^ 64
  end.

Fixpoint UserName_eqb (a b : UserName) : bool :=
  match a, b with
  | [], [] => true
  | x :: a', y :: b' => (x =? y) && UserName_eqb a' b'
  | _, _ => false
  end.

Lemma UserName_eqb_eq (a b : UserName) : UserName_eqb a b = true <-> a = b.
Proof.
  revert b. induction a as [|x a IH]; intros [|y b]; cbn; try easy.
  rewrite andb_true_iff, Z.eqb_eq, IH. split.
  - intros [-> ->]. reflexivity.
  - intros [= -> ->]. easy.
Qed.

#[export] Instance UserName_HashEq : HashEq UserName := {|
  hash_code := UserName_hash;
  equals := UserName_eqb;
|}.

#[export] Instance UserName_HashEqLaws : HashEqLaws UserName.
Proof.
  split.
  - intros a. cbn. apply UserName_eqb_eq. reflexivity.
  - intros a b. cbn. intros ->%UserName_eqb_eq. reflexivity.
Defined.

(** [boost::hash_combine] as Boost defined it for a [size_t] seed. *)
Definition boost_hash_combine (seed v : Z) : Z :=
  Z.lxor seed
    ((v + 2654435769 + Z.shiftl seed 6 mod 2 ^ 64 + Z.shiftr seed 2) mod 2 ^ 64).

(** The theorem at the concrete instance. *)
Lemma ConnectionId_copy_equals_hash_witness :
  let a := mkConnectionId (Sockaddr := Endpoint) (UserCredentials := UserName)
             (10, 7051) [107; 117] in
  let b := mkConnectionId (Sockaddr := Endpoint) (UserCredentials := UserName)
             (11, 7050) [100; 117] in
  Equals (CopyFrom a b) b = true
  /\ HashCode boost_hash_combine (CopyFrom a b) = HashCode boost_hash_combine b.
Proof.
  intros a b.
  exact (proj1 (ConnectionId_copy_equals_hash boost_hash_combine (0, 0) []) a b).
Defined.

#[export] Instance Endpoint_HashEqEquiv : HashEqEquiv Endpoint.
Proof.
  split.
  - intros [a p] [a' p']. cbn. rewrite (Z.eqb_sym a), (Z.eqb_sym p). reflexivity.
  - intros [a p] [a' p'] [a2 p2]. cbn.
    intros [->%Z.eqb_eq ->%Z.eqb_eq]%andb_true_iff H. exact H.
Defined.

#[export] Instance UserName_HashEqEquiv : HashEqEquiv UserName.
Proof.
  split.
  - intros a b. cbn. destruct (UserName_eqb a b) eqn:Hab.
    + apply UserName_eqb_eq in Hab as ->. symmetry. apply UserName_eqb_eq. reflexivity.
    + destruct (UserName_eqb b a) eqn:Hba; [|reflexivity].
      apply UserName_eqb_eq in Hba as ->.
      rewrite (proj2 (UserName_eqb_eq a a) eq_refl) in Hab. discriminate Hab.
  - intros a b c. cbn. intros ->%UserName_eqb_eq H. exact H.
Defined.

(** The theorem at the concrete instance: two identifiers given the same
    remote. *)
Lemma Equals_is_equivalence_witness :
  let a := mkConnectionId (Sockaddr := Endpoint) (UserCredentials := UserName)
             (10, 7051) [107; 117] in
  let b := mkConnectionId (Sockaddr := Endpoint) (UserCredentials := UserName)
             (11, 7050) [107; 117] in
  Equals a b = false
  /\ Equals (set_remote a (12, 7050)) (set_remote b (12, 7050)) = true
  /\ HashCode boost_hash_combine (set_remote a (12, 7050))
     = HashCode boost_hash_combine (set_remote b (12, 7050)).
Proof.
  intros a b. split; [reflexivity|].
  exact (proj1 (proj2 (proj2 (proj2 (Equals_is_equivalence boost_hash_combine (0, 0) []))))
           (set_remote a (11, 7050)) b (12, 7050) (12, 7050) eq_refl eq_refl).
Defined.

End Rpc.

(* ===================================================================== *)
(** * What a run of harness code can end in *)
(* ===================================================================== *)

(** Why a run stopped before its end. *)
Inductive failure : Type :=
  | CheckFailure        (* a CHECK / CHECK_OK / LOG(FATAL) aborted the process *)
  | UndefinedBehaviour  (* an out-of-range [operator[]], a division by zero *)
  | BadAlloc            (* a container of impossible size was requested *)
  | FatalTestFailure.   (* a gtest ASSERT_* / FAIL(): the test body returns *)

(** A computation either returns, stops with a [failure], or (for the models
    of loops that need not terminate) uses up its fuel. *)
Inductive outcome (A : Type) : Type :=
  | Done (a : A)
  | Crash (f : failure)
  | OutOfFuel.

Arguments Done {A} a.
Arguments Crash {A} f.
Arguments OutOfFuel {A}.

#[export] Instance outcome_ret : MRet outcome := fun A a => Done a.

#[export] Instance outcome_bind : MBind outcome := fun A B k m =>
  match m with
  | Done a => k a
  | Crash f => Crash f
  | OutOfFuel => OutOfFuel
  end.

(* ===================================================================== *)
(** * fuzz-itest.cc: operations, the generator and the validator *)
(* ===================================================================== *)

Module Fuzz.

Import MachineInt.

(** [enum TestOpType] *)
Inductive TestOpType : Type :=
  | TEST_INSERT
  | TEST_INSERT_PK_ONLY
  | TEST_UPSERT
  | TEST_UPSERT_PK_ONLY
  | TEST_UPDATE
  | TEST_DELETE
  | TEST_FLUSH_OPS
  | TEST_FLUSH_TABLET
  | TEST_FLUSH_DELTAS
  | TEST_MINOR_COMPACT_DELTAS
  | TEST_MAJOR_COMPACT_DELTAS
  | TEST_COMPACT_TABLET
  | TEST_RESTART_TS
  | TEST_SCAN_AT_TIMESTAMP
  | TEST_NUM_OP_TYPES.

#[export] Instance TestOpType_eq_dec : EqDecision TestOpType.
Proof. solve_decision. Defined.

(** [struct TestOp] *)
Record TestOp : Type := mkTestOp {
  type : TestOpType;
  val : Z;
}.

#[export] Instance TestOp_eq_dec : EqDecision TestOp.
Proof. solve_decision. Defined.

Definition kAllOps : list TestOpType :=
  [TEST_INSERT; TEST_INSERT_PK_ONLY; TEST_UPSERT; TEST_UPSERT_PK_ONLY;
   TEST_UPDATE; TEST_DELETE; TEST_FLUSH_OPS; TEST_FLUSH_TABLET;
   TEST_FLUSH_DELTAS; TEST_MINOR_COMPACT_DELTAS; TEST_MAJOR_COMPACT_DELTAS;
   TEST_COMPACT_TABLET; TEST_RESTART_TS; TEST_SCAN_AT_TIMESTAMP].

Definition kPkOnlyOps : list TestOpType :=
  [TEST_INSERT_PK_ONLY; TEST_UPSERT_PK_ONLY; TEST_DELETE; TEST_FLUSH_OPS;
   TEST_FLUSH_TABLET; TEST_FLUSH_DELTAS; TEST_MINOR_COMPACT_DELTAS;
   TEST_MAJOR_COMPACT_DELTAS; TEST_COMPACT_TABLET; TEST_RESTART_TS;
   TEST_SCAN_AT_TIMESTAMP].

(** [enum TestOpSets] *)
Inductive TestOpSets : Type := ALL | PK_ONLY.

(** [PickOpAtRandom], given the value [rand()] returned. *)
Definition PickOpAtRandom (sets : TestOpSets) (r : nat) : TestOpType :=
  match sets with
  | ALL => nth (r mod length kAllOps)%nat kAllOps TEST_NUM_OP_TYPES
  | PK_ONLY => nth (r mod length kPkOnlyOps)%nat kPkOnlyOps TEST_NUM_OP_TYPES
  end.

(** [IsMutation] *)
Definition IsMutation (op : TestOpType) : bool :=
  match op with
  | TEST_INSERT | TEST_INSERT_PK_ONLY | TEST_UPSERT | TEST_UPSERT_PK_ONLY
  | TEST_UPDATE | TEST_DELETE => true
  | _ => false
  end.

(** ** GenerateTestCase *)

(** The locals of [GenerateTestCase], the vector it fills, and the number
    of calls to [rand()] made so far. *)
Record GenState : Type := mkGenState {
  exists_ : list bool;
  op_timestamps : Z;
  ops_pending : bool;
  data_in_mrs : bool;
  worth_compacting : bool;
  data_in_dms : bool;
  ops : list TestOp;
  drawn : nat;
}.

Definition push_back (op : TestOp) (st : GenState) : GenState :=
  mkGenState (exists_ st) (op_timestamps st) (ops_pending st) (data_in_mrs st)
    (worth_compacting st) (data_in_dms st) (ops st ++ [op]) (drawn st).

Definition set_exists (k : Z) (b : bool) (st : GenState) : GenState :=
  mkGenState (<[Z.to_nat k := b]> (exists_ st)) (op_timestamps st) (ops_pending st)
    (data_in_mrs st) (worth_compacting st) (data_in_dms st) (ops st) (drawn st).

Definition set_op_timestamps (n : Z) (st : GenState) : GenState :=
  mkGenState (exists_ st) n (ops_pending st) (data_in_mrs st)
    (worth_compacting st) (data_in_dms st) (ops st) (drawn st).

Definition set_ops_pending (b : bool) (st : GenState) : GenState :=
  mkGenState (exists_ st) (op_timestamps st) b (data_in_mrs st)
    (worth_compacting st) (data_in_dms st) (ops st) (drawn st).

Definition set_data_in_mrs (b : bool) (st : GenState) : GenState :=
  mkGenState (exists_ st) (op_timestamps st) (ops_pending st) b
    (worth_compacting st) (data_in_dms st) (ops st) (drawn st).

Definition set_worth_compacting (b : bool) (st : GenState) : GenState :=
  mkGenState (exists_ st) (op_timestamps st) (ops_pending st) (data_in_mrs st)
    b (data_in_dms st) (ops st) (drawn st).

Definition set_data_in_dms (b : bool) (st : GenState) : GenState :=
  mkGenState (exists_ st) (op_timestamps st) (ops_pending st) (data_in_mrs st)
    (worth_compacting st) b (ops st) (drawn st).

Definition set_drawn (n : nat) (st : GenState) : GenState :=
  mkGenState (exists_ st) (op_timestamps st) (ops_pending st) (data_in_mrs st)
    (worth_compacting st) (data_in_dms st) (ops st) n.

(** [exists[row_key]] *)
Definition get_exists (st : GenState) (k : Z) : bool :=
  default false (exists_ st !! Z.to_nat k).

(** Whether [exists[i]] names an element of the vector: an index that does
    not is undefined behaviour.  [vector<bool> exists(FLAGS_keyspace_size)]
    has [FLAGS_keyspace_size] elements; for a negative flag the size asked
    for wraps around and the vector gets no storage an index could name, so
    the vector of the model has no element then. *)
Definition in_range (exists_ : list bool) (i : Z) : bool :=
  (0 <=? i) && (i <? Z.of_nat (length exists_)).

Section Generator.

(** [FLAGS_keyspace_size] *)
Variable keyspace_size : Z.

(** The values successive calls of [rand()] return: the [n]-th call
    returns [rand n], a number in [0, RAND_MAX]. *)
Variable rand : nat -> nat.

Variable sets : TestOpSets.

(** [if (ops_pending) { ops->push_back({TEST_FLUSH_OPS, 0}); ops_pending = false; }] *)
Definition flush_if_pending (st : GenState) : GenState :=
  if ops_pending st
  then set_ops_pending false (push_back (mkTestOp TEST_FLUSH_OPS 0) st)
  else st.

(** One turn of the [while] loop.  [rand() % FLAGS_keyspace_size] divides
    by zero for a flag of 0; [%] truncates, and [rand()] is not negative.
    Every case of a mutation reads or writes [exists[row_key]]. *)
Definition GenerateTestCase_body (st : GenState) : outcome GenState :=
  let r := PickOpAtRandom sets (rand (drawn st)) in
  if keyspace_size =? 0 then Crash UndefinedBehaviour else
  let row_key := Z.rem (Z.of_nat (rand (S (drawn st)))) keyspace_size in
  let st := set_drawn (2 + drawn st) st in
  let st := if IsMutation r then set_op_timestamps (op_timestamps st + 1) st else st in
  if IsMutation r && negb (in_range (exists_ st) row_key) then Crash UndefinedBehaviour else
  match r with
  | TEST_INSERT | TEST_INSERT_PK_ONLY =>
      if get_exists st row_key then Done st
      else
        let st := push_back (mkTestOp r row_key) st in
        let st := set_exists row_key true st in
        let st := set_ops_pending true st in
        Done (set_data_in_mrs true st)
  | TEST_UPSERT | TEST_UPSERT_PK_ONLY =>
      let st := push_back (mkTestOp r row_key) st in
      let st := set_exists row_key true st in
      let st := set_ops_pending true st in
      if negb (get_exists st row_key) then Done (set_data_in_mrs true st)
      else if negb (data_in_mrs st) then Done (set_data_in_dms true st)
      else Done st
  | TEST_UPDATE =>
      if negb (get_exists st row_key) then Done st
      else
        let st := push_back (mkTestOp TEST_UPDATE row_key) st in
        let st := set_ops_pending true st in
        if negb (data_in_mrs st) then Done (set_data_in_dms true st) else Done st
  | TEST_DELETE =>
      if negb (get_exists st row_key) then Done st
      else
        let st := push_back (mkTestOp TEST_DELETE row_key) st in
        let st := set_ops_pending true st in
        let st := set_exists row_key false st in
        if negb (data_in_mrs st) then Done (set_data_in_dms true st) else Done st
  | TEST_FLUSH_OPS =>
      if ops_pending st then
        let st := push_back (mkTestOp TEST_FLUSH_OPS 0) st in
        let st := set_ops_pending false st in
        Done (set_op_timestamps (op_timestamps st + 1) st)
      else Done st
  | TEST_FLUSH_TABLET =>
      if data_in_mrs st then
        let st := flush_if_pending st in
        let st := push_back (mkTestOp TEST_FLUSH_TABLET 0) st in
        let st := set_data_in_mrs false st in
        Done (set_worth_compacting true st)
      else Done st
  | TEST_COMPACT_TABLET =>
      if worth_compacting st then
        let st := flush_if_pending st in
        let st := push_back (mkTestOp TEST_COMPACT_TABLET 0) st in
        Done (set_worth_compacting false st)
      else Done st
  | TEST_FLUSH_DELTAS =>
      if data_in_dms st then
        let st := flush_if_pending st in
        let st := push_back (mkTestOp TEST_FLUSH_DELTAS 0) st in
        Done (set_data_in_dms false st)
      else Done st
  | TEST_MAJOR_COMPACT_DELTAS => Done (push_back (mkTestOp TEST_MAJOR_COMPACT_DELTAS 0) st)
  | TEST_MINOR_COMPACT_DELTAS => Done (push_back (mkTestOp TEST_MINOR_COMPACT_DELTAS 0) st)
  | TEST_RESTART_TS => Done (push_back (mkTestOp TEST_RESTART_TS 0) st)
  | TEST_SCAN_AT_TIMESTAMP =>
      let timestamp := 1 in
      if 0 <? op_timestamps st then
        let timestamp := Z.of_nat (rand (drawn st)) mod op_timestamps st + 1 in
        let st := set_drawn (1 + drawn st) st in
        Done (push_back (mkTestOp TEST_SCAN_AT_TIMESTAMP timestamp) st)
      else Done (push_back (mkTestOp TEST_SCAN_AT_TIMESTAMP timestamp) st)
  | TEST_NUM_OP_TYPES => Crash CheckFailure
  end.

(** [while (ops->size() < len) { ... }]: [len] is an [int], the comparison
    is made in [size_t].  The loop need not terminate (a turn may push
    nothing), hence the fuel: the number of turns allowed. *)
Fixpoint GenerateTestCase_loop (fuel : nat) (len : Z) (st : GenState)
  : outcome GenState :=
  if Z.of_nat (length (ops st)) <? to_size_t len then
    match fuel with
    | O => OutOfFuel
    | S fuel' =>
        match GenerateTestCase_body st with
        | Done st' => GenerateTestCase_loop fuel' len st'
        | Crash f => Crash f
        | OutOfFuel => OutOfFuel
        end
    end
  else Done st.

(** The state on entry to the loop: the locals as initialised, and
    [ops->clear()], which discards whatever the caller's vector held. *)
Definition GenerateTestCase_init (ops0 : list TestOp) : GenState :=
  mkGenState (replicate (Z.to_nat keyspace_size) false) 0 false false false false
    [] 0.

(** [void GenerateTestCase(vector<TestOp>* ops, int len, TestOpSets sets)];
    the result is the vector's final contents. *)
Definition GenerateTestCase (ops0 : list TestOp) (len : Z) (fuel : nat)
  : outcome (list TestOp) :=
  match GenerateTestCase_loop fuel len (GenerateTestCase_init ops0) with
  | Done st => Done (ops st)
  | Crash f => Crash f
  | OutOfFuel => OutOfFuel
  end.

End Generator.

(** ** ValidateFuzzCase *)

Section Validator.

Variable keyspace_size : Z.

(** The body of the [for] loop: the [exists] vector after the operation,
    or the CHECK that failed. *)
Definition ValidateFuzzCase_step (exists_ : list bool) (test_op : TestOp)
  : outcome (list bool) :=
  let i := val test_op in
  match type test_op with
  | TEST_INSERT | TEST_INSERT_PK_ONLY =>
      if negb (in_range exists_ i) then Crash UndefinedBehaviour
      else if default false (exists_ !! Z.to_nat i) then Crash CheckFailure
      else Done (<[Z.to_nat i := true]> exists_)
  | TEST_UPSERT | TEST_UPSERT_PK_ONLY =>
      if negb (in_range exists_ i) then Crash UndefinedBehaviour
      else Done (<[Z.to_nat i := true]> exists_)
  | TEST_UPDATE =>
      if negb (in_range exists_ i) then Crash UndefinedBehaviour
      else if default false (exists_ !! Z.to_nat i) then Done exists_
      else Crash CheckFailure
  | TEST_DELETE =>
      if negb (in_range exists_ i) then Crash UndefinedBehaviour
      else if default false (exists_ !! Z.to_nat i)
      then Done (<[Z.to_nat i := false]> exists_)
      else Crash CheckFailure
  | _ => Done exists_
  end.

Fixpoint ValidateFuzzCase_loop (exists_ : list bool) (test_ops : list TestOp)
  : outcome (list bool) :=
  match test_ops with
  | [] => Done exists_
  | test_op :: rest =>
      match ValidateFuzzCase_step exists_ test_op with
      | Done exists' => ValidateFuzzCase_loop exists' rest
      | Crash f => Crash f
      | OutOfFuel => OutOfFuel
      end
  end.

(** [void FuzzTest::ValidateFuzzCase(const vector<TestOp>& test_ops)] *)
Definition ValidateFuzzCase (test_ops : list TestOp) : outcome unit :=
  match ValidateFuzzCase_loop (replicate (Z.to_nat keyspace_size) false) test_ops with
  | Done _ => Done tt
  | Crash f => Crash f
  | OutOfFuel => OutOfFuel
  end.

End Validator.

(** ** The fuzzing contract, in the words of the specification *)

(** Whether key [k] is live after the operations [ops], counted from an
    empty table: the last insert, upsert or delete of [k] decides. *)
Definition live_step (k : Z) (b : bool) (op : TestOp) : bool :=
  if val op =? k then
    match type op with
    | TEST_INSERT | TEST_INSERT_PK_ONLY | TEST_UPSERT | TEST_UPSERT_PK_ONLY => true
    | TEST_DELETE => false
    | _ => b
    end
  else b.

Definition live (ops : list TestOp) (k : Z) : bool :=
  fold_left (live_step k) ops false.

(** Whether a mutation has been issued since the last [TEST_FLUSH_OPS]. *)
Definition pending_step (b : bool) (op : TestOp) : bool :=
  if IsMutation (type op) then true
  else match type op with TEST_FLUSH_OPS => false | _ => b end.

Definition pending (ops : list TestOp) : bool :=
  fold_left pending_step ops false.

(** What the contract asks of [op] when it follows [pre]. *)
Definition op_respects_contract (pre : list TestOp) (op : TestOp) : Prop :=
  match type op with
  | TEST_INSERT | TEST_INSERT_PK_ONLY => live pre (val op) = false
  | TEST_UPDATE | TEST_DELETE => live pre (val op) = true
  | TEST_FLUSH_OPS => pending pre = true
  | _ => True
  end.

(** Never insert an already-live key, never update or delete an absent
    key, never flush when there are no pending operations. *)
Definition fuzzing_contract (ops : list TestOp) : Prop :=
  forall pre op post, ops = pre ++ op :: post -> op_respects_contract pre op.

(** The keys of the mutations are keys of the key space. *)
Definition keys_in_range (keyspace_size : Z) (ops : list TestOp) : Prop :=
  Forall (fun op => IsMutation (type op) = true -> 0 <= val op < keyspace_size) ops.

Lemma live_snoc ops op k : live (ops ++ [op]) k = live_step k (live ops k) op.
Proof. unfold live. rewrite fold_left_app. reflexivity. Qed.

Lemma pending_snoc ops op : pending (ops ++ [op]) = pending_step (pending ops) op.
Proof. unfold pending. rewrite fold_left_app. reflexivity. Qed.

Lemma fuzzing_contract_nil : fuzzing_contract [].
Proof. intros pre op post H. destruct pre; discriminate H. Qed.

Lemma fuzzing_contract_snoc ops op :
  fuzzing_contract ops -> op_respects_contract ops op ->
  fuzzing_contract (ops ++ [op]).
Proof.
  intros Hc Hop pre op' post Heq.
  destruct post as [|p post _] using rev_ind.
  - apply app_inj_tail in Heq as [-> ->]. exact Hop.
  - rewrite app_comm_cons, app_assoc in Heq.
    apply app_inj_tail in Heq as [Heq _].
    exact (Hc pre op' post Heq).
Qed.

Lemma fuzzing_contract_prefix ops op :
  fuzzing_contract (ops ++ [op]) ->
  fuzzing_contract ops /\ op_respects_contract ops op.
Proof.
  intros Hc. split.
  - intros pre op' post ->. apply (Hc pre op' (post ++ [op])).
    rewrite <- app_assoc. reflexivity.
  - apply (Hc ops op []). reflexivity.
Qed.

Lemma keys_in_range_snoc ks ops op :
  keys_in_range ks ops -> (IsMutation (type op) = true -> 0 <= val op < ks) ->
  keys_in_range ks (ops ++ [op]).
Proof. intros H1 H2. apply Forall_app. split; [exact H1 | constructor; [exact H2 | constructor]]. Qed.

(** What an operation does to the [exists] vector of either function. *)
Definition exists_after (e : list bool) (op : TestOp) : list bool :=
  match type op with
  | TEST_INSERT | TEST_INSERT_PK_ONLY | TEST_UPSERT | TEST_UPSERT_PK_ONLY =>
      <[Z.to_nat (val op) := true]> e
  | TEST_DELETE => <[Z.to_nat (val op) := false]> e
  | _ => e
  end.

(** The [exists] vector [e] records liveness after [l]. *)
Definition tracks (ks : Z) (e : list bool) (l : list TestOp) : Prop :=
  length e = Z.to_nat ks
  /\ forall k, 0 <= k < ks -> e !! Z.to_nat k = Some (live l k).

Lemma tracks_init ks : tracks ks (replicate (Z.to_nat ks) false) [].
Proof.
  split.
  - apply length_replicate.
  - intros k Hk. apply lookup_replicate_2. lia.
Qed.

Lemma tracks_snoc ks e l op :
  tracks ks e l -> (IsMutation (type op) = true -> 0 <= val op < ks) ->
  tracks ks (exists_after e op) (l ++ [op]).
Proof.
  intros [Hlen Hlk] Hr. split.
  - unfold exists_after. destruct (type op); rewrite ?length_insert; exact Hlen.
  - intros k Hk. rewrite live_snoc. unfold exists_after, live_step.
    destruct (Z.eqb_spec (val op) k) as [->|Hne].
    + destruct (type op); try apply Hlk; try exact Hk;
        apply list_lookup_insert_eq; lia.
    + destruct (type op) eqn:Ht; try (apply Hlk; exact Hk);
        (rewrite list_lookup_insert_ne; [apply Hlk; exact Hk|]);
        (assert (0 <= val op < ks) by (apply Hr; reflexivity)); lia.
Qed.

(** The invariant of the generator's loop: the operations pushed so far
    obey the contract, [exists] records which keys are live after them and
    [ops_pending] whether a mutation awaits its flush. *)
Definition GenInv (ks : Z) (st : GenState) : Prop :=
  keys_in_range ks (ops st)
  /\ fuzzing_contract (ops st)
  /\ tracks ks (exists_ st) (ops st)
  /\ ops_pending st = pending (ops st).

Lemma GenInv_step ks e p l op :
  (keys_in_range ks l /\ fuzzing_contract l /\ tracks ks e l /\ p = pending l) ->
  op_respects_contract l op ->
  (IsMutation (type op) = true -> 0 <= val op < ks) ->
  keys_in_range ks (l ++ [op]) /\ fuzzing_contract (l ++ [op])
  /\ tracks ks (exists_after e op) (l ++ [op])
  /\ pending_step p op = pending (l ++ [op]).
Proof.
  intros (Hk & Hc & Ht & ->) Hop Hr. repeat split.
  - apply keys_in_range_snoc; assumption.
  - apply fuzzing_contract_snoc; assumption.
  - apply (tracks_snoc ks e l op Ht Hr).
  - apply (tracks_snoc ks e l op Ht Hr).
  - rewrite pending_snoc. reflexivity.
Qed.

Lemma get_exists_tracks ks st k :
  tracks ks (exists_ st) (ops st) -> 0 <= k < ks ->
  get_exists st k = live (ops st) k.
Proof. intros [_ H] Hk. unfold get_exists. rewrite (H k Hk). reflexivity. Qed.

Section GeneratorFacts.

Variable keyspace_size : Z.
Variable rand : nat -> nat.
Variable sets : TestOpSets.

Abbreviation body := (GenerateTestCase_body keyspace_size rand sets).
Abbreviation loop := (GenerateTestCase_loop keyspace_size rand sets).

Lemma PickOpAtRandom_not_limit r : PickOpAtRandom sets r <> TEST_NUM_OP_TYPES.
Proof.
  unfold PickOpAtRandom. destruct sets.
  - assert (Hlt : (r mod length kAllOps < 14)%nat)
      by (apply Nat.mod_upper_bound; discriminate).
    revert Hlt. generalize (r mod length kAllOps)%nat. intros n Hn.
    do 14 (destruct n as [|n]; [discriminate|]). lia.
  - assert (Hlt : (r mod length kPkOnlyOps < 11)%nat)
      by (apply Nat.mod_upper_bound; discriminate).
    revert Hlt. generalize (r mod length kPkOnlyOps)%nat. intros n Hn.
    do 11 (destruct n as [|n]; [discriminate|]). lia.
Qed.

Lemma flush_if_pending_inv st :
  GenInv keyspace_size st -> GenInv keyspace_size (flush_if_pending st).
Proof.
  intros H. unfold flush_if_pending. destruct (ops_pending st) eqn:Hp; [|exact H].
  refine (GenInv_step keyspace_size _ _ _ (mkTestOp TEST_FLUSH_OPS 0) H _ _).
  - cbn. destruct H as (_ & _ & _ & <-). exact Hp.
  - discriminate.
Qed.

Lemma flush_if_pending_length st :
  (length (ops (flush_if_pending st)) <= S (length (ops st)))%nat.
Proof.
  unfold flush_if_pending. destruct (ops_pending st); cbn; [|lia].
  rewrite length_app. cbn. lia.
Qed.

(** A mark that is no mutation and no flush of the session can follow
    anything. *)
Lemma GenInv_push_marker st t :
  IsMutation t = false -> t <> TEST_FLUSH_OPS ->
  GenInv keyspace_size st ->
  keys_in_range keyspace_size (ops st ++ [mkTestOp t 0])
  /\ fuzzing_contract (ops st ++ [mkTestOp t 0])
  /\ tracks keyspace_size (exists_ st) (ops st ++ [mkTestOp t 0])
  /\ ops_pending st = pending (ops st ++ [mkTestOp t 0]).
Proof.
  intros Hm Hf H.
  pose proof (GenInv_step keyspace_size _ _ _ (mkTestOp t 0) H) as Hs.
  unfold exists_after, pending_step, op_respects_contract in Hs. cbn in Hs.
  rewrite Hm in Hs.
  destruct t; try discriminate Hm; try congruence;
    apply Hs; try exact I; discriminate.
Qed.

(** In a turn that returns, the key of a mutation names an element of
    [exists], hence lies in the key space. *)
Lemma body_key_in_range (r : TestOpType) (e : list bool) (k : Z) :
  length e = Z.to_nat keyspace_size ->
  IsMutation r && negb (in_range e k) = false ->
  IsMutation r = true -> 0 <= k < keyspace_size.
Proof.
  intros Hlen Hchk Hm. rewrite Hm in Hchk. cbn [andb] in Hchk.
  apply negb_false_iff in Hchk. unfold in_range in Hchk. rewrite Hlen in Hchk.
  apply andb_true_iff in Hchk as [Hlo Hhi].
  apply Z.leb_le in Hlo. apply Z.ltb_lt in Hhi. lia.
Qed.

Lemma body_inv st st' :
  GenInv keyspace_size st -> body st = Done st' -> GenInv keyspace_size st'.
Proof.
  intros H Hb. unfold GenerateTestCase_body in Hb.
  destruct (Z.eqb_spec keyspace_size 0) as [|Hks0]; [discriminate|].
  set (r := PickOpAtRandom sets (rand (drawn st))) in *.
  set (k := Z.rem (Z.of_nat (rand (S (drawn st)))) keyspace_size) in *.
  set (st1 := if IsMutation r then _ else _) in Hb.
  assert (H1 : GenInv keyspace_size st1) by (subst st1; destruct (IsMutation r); exact H).
  destruct (IsMutation r && negb (in_range (exists_ st1) k)) eqn:Hchk; [discriminate Hb|].
  assert (Hk : IsMutation r = true -> 0 <= k < keyspace_size).
  { apply (body_key_in_range r (exists_ st1) k); [|exact Hchk].
    destruct H1 as (_ & _ & [Hlen _] & _). exact Hlen. }
  assert (Hx : IsMutation r = true -> get_exists st1 k = live (ops st1) k)
    by (intros Hm; apply (get_exists_tracks keyspace_size); [apply H1 | exact (Hk Hm)]).
  clearbody st1. clear H Hchk.
  pose proof (PickOpAtRandom_not_limit (rand (drawn st))) as Hlim. fold r in Hlim.
  destruct r eqn:Hr; try congruence; cbn [IsMutation] in Hk, Hx;
    try specialize (Hk eq_refl); try specialize (Hx eq_refl).
  - (* TEST_INSERT *)
    destruct (get_exists st1 k) eqn:He; inversion Hb; subst; [exact H1|].
    refine (GenInv_step keyspace_size _ _ _ (mkTestOp TEST_INSERT k) H1 _ _);
      cbn; [congruence | intros _; exact Hk].
  - (* TEST_INSERT_PK_ONLY *)
    destruct (get_exists st1 k) eqn:He; inversion Hb; subst; [exact H1|].
    refine (GenInv_step keyspace_size _ _ _ (mkTestOp TEST_INSERT_PK_ONLY k) H1 _ _);
      cbn; [congruence | intros _; exact Hk].
  - (* TEST_UPSERT *)
    assert (GenInv keyspace_size
              (set_ops_pending true
                 (set_exists k true (push_back (mkTestOp TEST_UPSERT k) st1)))) as H2.
    { refine (GenInv_step keyspace_size _ _ _ (mkTestOp TEST_UPSERT k) H1 _ _);
        cbn; [exact I | intros _; exact Hk]. }
    repeat match type of Hb with context [if ?c then _ else _] => destruct c end;
      inversion Hb; subst; exact H2.
  - (* TEST_UPSERT_PK_ONLY *)
    assert (GenInv keyspace_size
              (set_ops_pending true
                 (set_exists k true (push_back (mkTestOp TEST_UPSERT_PK_ONLY k) st1)))) as H2.
    { refine (GenInv_step keyspace_size _ _ _ (mkTestOp TEST_UPSERT_PK_ONLY k) H1 _ _);
        cbn; [exact I | intros _; exact Hk]. }
    repeat match type of Hb with context [if ?c then _ else _] => destruct c end;
      inversion Hb; subst; exact H2.
  - (* TEST_UPDATE *)
    destruct (get_exists st1 k) eqn:He; cbn in Hb; [|inversion Hb; subst; exact H1].
    assert (GenInv keyspace_size
              (set_ops_pending true (push_back (mkTestOp TEST_UPDATE k) st1))) as H2.
    { refine (GenInv_step keyspace_size _ _ _ (mkTestOp TEST_UPDATE k) H1 _ _);
        cbn; [congruence | intros _; exact Hk]. }
    repeat match type of Hb with context [if ?c then _ else _] => destruct c end;
      inversion Hb; subst; exact H2.
  - (* TEST_DELETE *)
    destruct (get_exists st1 k) eqn:He; cbn in Hb; [|inversion Hb; subst; exact H1].
    assert (GenInv keyspace_size
              (set_exists k false
                 (set_ops_pending true (push_back (mkTestOp TEST_DELETE k) st1)))) as H2.
    { refine (GenInv_step keyspace_size _ _ _ (mkTestOp TEST_DELETE k) H1 _ _);
        cbn; [congruence | intros _; exact Hk]. }
    repeat match type of Hb with context [if ?c then _ else _] => destruct c end;
      inversion Hb; subst; exact H2.
  - (* TEST_FLUSH_OPS *)
    destruct (ops_pending st1) eqn:Hp; inversion Hb; subst; [|exact H1].
    refine (GenInv_step keyspace_size _ _ _ (mkTestOp TEST_FLUSH_OPS 0) H1 _ _).
    + cbn. destruct H1 as (_ & _ & _ & <-). exact Hp.
    + discriminate.
  - (* TEST_FLUSH_TABLET *)
    destruct (data_in_mrs st1); inversion Hb; subst; [|exact H1].
    apply (GenInv_push_marker (flush_if_pending st1) TEST_FLUSH_TABLET);
      [reflexivity | discriminate | apply flush_if_pending_inv; exact H1].
  - (* TEST_FLUSH_DELTAS *)
    destruct (data_in_dms st1); inversion Hb; subst; [|exact H1].
    apply (GenInv_push_marker (flush_if_pending st1) TEST_FLUSH_DELTAS);
      [reflexivity | discriminate | apply flush_if_pending_inv; exact H1].
  - (* TEST_MINOR_COMPACT_DELTAS *)
    inversion Hb; subst.
    apply (GenInv_push_marker st1 TEST_MINOR_COMPACT_DELTAS);
      [reflexivity | discriminate | exact H1].
  - (* TEST_MAJOR_COMPACT_DELTAS *)
    inversion Hb; subst.
    apply (GenInv_push_marker st1 TEST_MAJOR_COMPACT_DELTAS);
      [reflexivity | discriminate | exact H1].
  - (* TEST_COMPACT_TABLET *)
    destruct (worth_compacting st1); inversion Hb; subst; [|exact H1].
    apply (GenInv_push_marker (flush_if_pending st1) TEST_COMPACT_TABLET);
      [reflexivity | discriminate | apply flush_if_pending_inv; exact H1].
  - (* TEST_RESTART_TS *)
    inversion Hb; subst.
    apply (GenInv_push_marker st1 TEST_RESTART_TS);
      [reflexivity | discriminate | exact H1].
  - (* TEST_SCAN_AT_TIMESTAMP *)
    destruct (0 <? op_timestamps st1); inversion Hb; subst.
    + pose proof (GenInv_step keyspace_size _ _ _
        (mkTestOp TEST_SCAN_AT_TIMESTAMP
           (Z.of_nat (rand (drawn st1)) mod op_timestamps st1 + 1)) H1 I) as Hs.
      apply Hs. discriminate.
    + pose proof (GenInv_step keyspace_size _ _ _
        (mkTestOp TEST_SCAN_AT_TIMESTAMP 1) H1 I) as Hs.
      apply Hs. discriminate.
Qed.

(** A turn of the loop pushes at most two operations. *)
Lemma body_length st st' :
  body st = Done st' ->
  (length (ops st) <= length (ops st') <= length (ops st) + 2)%nat.
Proof.
  unfold GenerateTestCase_body.
  destruct (keyspace_size =? 0); [discriminate|].
  set (st1 := if IsMutation _ then _ else _).
  assert (Hl : ops st1 = ops st) by (subst st1; destruct (IsMutation _); reflexivity).
  clearbody st1. rewrite <- Hl.
  pose proof (flush_if_pending_length st1) as Hf.
  assert (Hg : (length (ops st1) <= length (ops (flush_if_pending st1)))%nat).
  { unfold flush_if_pending. destruct (ops_pending st1); cbn; [|lia].
    rewrite length_app. lia. }
  destruct (PickOpAtRandom sets (rand (drawn st)));
    repeat match goal with |- context [if ?c then _ else _] => destruct c end;
    intros Hb; inversion Hb; subst; cbn; rewrite ?length_app; cbn; lia.
Qed.

(** The loop, run from a state that satisfies an invariant of the body,
    ends (when it ends) in a state that satisfies it and falsifies the
    loop condition. *)
Lemma loop_inv (P : GenState -> Prop) len :
  (forall st st',
      P st -> Z.of_nat (length (ops st)) < to_size_t len ->
      body st = Done st' -> P st') ->
  forall fuel st st',
    P st -> loop fuel len st = Done st' ->
    P st' /\ to_size_t len <= Z.of_nat (length (ops st')).
Proof.
  intros Hstep fuel. induction fuel as [|fuel IH]; intros st st' HP Hl; cbn in Hl.
  - destruct (Z.ltb_spec (Z.of_nat (length (ops st))) (to_size_t len)); [discriminate|].
    inversion Hl; subst. split; assumption.
  - destruct (Z.ltb_spec (Z.of_nat (length (ops st))) (to_size_t len)) as [Hlt|Hge].
    + destruct (body st) as [st1| |] eqn:Hb; try discriminate.
      apply (IH st1 st'); [|exact Hl]. exact (Hstep st st1 HP Hlt Hb).
    + inversion Hl; subst. split; assumption.
Qed.

Lemma GenInv_init ops0 :
  GenInv keyspace_size (GenerateTestCase_init keyspace_size ops0).
Proof.
  unfold GenInv. cbn. repeat split.
  - constructor.
  - apply fuzzing_contract_nil.
  - apply length_replicate.
  - apply tracks_init.
Qed.

End GeneratorFacts.

(** ** The validator accepts what obeys the contract *)

Lemma ValidateFuzzCase_loop_snoc e l op :
  ValidateFuzzCase_loop e (l ++ [op])
  = match ValidateFuzzCase_loop e l with
    | Done e' => ValidateFuzzCase_step e' op
    | Crash f => Crash f
    | OutOfFuel => OutOfFuel
    end.
Proof.
  revert e. induction l as [|x l IH]; intros e; cbn.
  - destruct (ValidateFuzzCase_step e op); reflexivity.
  - destruct (ValidateFuzzCase_step e x); try reflexivity. apply IH.
Qed.

Lemma ValidateFuzzCase_step_ok ks e l op :
  tracks ks e l -> op_respects_contract l op ->
  (IsMutation (type op) = true -> 0 <= val op < ks) ->
  ValidateFuzzCase_step e op = Done (exists_after e op).
Proof.
  intros [Hlen Hlk] Hop Hr.
  unfold ValidateFuzzCase_step, exists_after, op_respects_contract in *.
  destruct (type op) eqn:Ht; try reflexivity;
    (assert (Hk : 0 <= val op < ks) by (apply Hr; reflexivity));
    (assert (Hin : in_range e (val op) = true)
       by (unfold in_range; rewrite Hlen;
           apply andb_true_iff; split; [apply Z.leb_le | apply Z.ltb_lt]; lia));
    rewrite Hin; cbn; rewrite ?(Hlk _ Hk), ?Hop; reflexivity.
Qed.

Lemma ValidateFuzzCase_loop_ok ks l :
  keys_in_range ks l -> fuzzing_contract l ->
  exists e, ValidateFuzzCase_loop (replicate (Z.to_nat ks) false) l = Done e
            /\ tracks ks e l.
Proof.
  induction l as [|op l IH] using rev_ind; intros Hr Hc.
  - exists (replicate (Z.to_nat ks) false). split; [reflexivity|].
    apply tracks_init.
  - apply Forall_app in Hr as [Hr Hop]. apply Forall_inv in Hop.
    apply fuzzing_contract_prefix in Hc as [Hc Hc'].
    destruct (IH Hr Hc) as (e & He & Ht).
    exists (exists_after e op). split.
    + rewrite ValidateFuzzCase_loop_snoc, He.
      apply (ValidateFuzzCase_step_ok ks e l op Ht Hc' Hop).
    + apply tracks_snoc; assumption.
Qed.

Lemma ValidateFuzzCase_ok ks l :
  keys_in_range ks l -> fuzzing_contract l ->
  ValidateFuzzCase ks l = Done tt.
Proof.
  intros Hr Hc. unfold ValidateFuzzCase.
  destruct (ValidateFuzzCase_loop_ok ks l Hr Hc) as (e & -> & _). reflexivity.
Qed.

(** ** The generated sequences *)

(** C7.  Whatever the requested length, the set of operations to draw from,
    the key space and the values [rand()] returns, the sequence
    [GenerateTestCase] produces obeys the fuzzing contract: no insert of a
    key that is live at that point, no update or delete of a key that is
    not, no [TEST_FLUSH_OPS] without a mutation since the previous one; and
    [ValidateFuzzCase] runs over it without any of its CHECKs failing. *)
Theorem GenerateTestCase_obeys_contract
    (keyspace_size : Z) (rand : nat -> nat) (sets : TestOpSets)
    (ops0 : list TestOp) (len : Z) (fuel : nat) (ops : list TestOp) :
  GenerateTestCase keyspace_size rand sets ops0 len fuel = Done ops ->
  fuzzing_contract ops /\ ValidateFuzzCase keyspace_size ops = Done tt.
Proof.
  unfold GenerateTestCase.
  destruct (GenerateTestCase_loop _ _ _ _ _ _) as [st| |] eqn:Hl; try discriminate.
  intros [= <-].
  apply (loop_inv keyspace_size rand sets (GenInv keyspace_size)) in Hl
    as [(Hr & Hc & _) _].
  - split; [exact Hc|]. apply ValidateFuzzCase_ok; assumption.
  - intros s s' Hs _ Hb. exact (body_inv keyspace_size rand sets s s' Hs Hb).
  - apply GenInv_init.
Qed.

(** C9.  A sequence [GenerateTestCase] returns holds at least [len]
    operations and, for a length that is not negative, at most [len + 1];
    what the vector held on entry plays no part. *)
Theorem GenerateTestCase_length
    (keyspace_size : Z) (rand : nat -> nat) (sets : TestOpSets)
    (ops0 : list TestOp) (len : Z) (fuel : nat) (ops : list TestOp) :
  is_int32 len ->
  GenerateTestCase keyspace_size rand sets ops0 len fuel = Done ops ->
  len <= Z.of_nat (length ops)
  /\ (0 <= len -> Z.of_nat (length ops) <= len + 1)
  /\ (forall ops1, GenerateTestCase keyspace_size rand sets ops1 len fuel = Done ops).
Proof.
  intros Hlen Hg. split; [|split]; [| |intros ops1; exact Hg].
  - unfold GenerateTestCase in Hg.
    destruct (GenerateTestCase_loop _ _ _ _ _ _) as [st| |] eqn:Hl; try discriminate.
    injection Hg as <-.
    apply (loop_inv keyspace_size rand sets (fun _ => True)) in Hl as [_ Hge];
      [|trivial|trivial].
    pose proof (to_size_t_int32_ge len Hlen). lia.
  - intros Hpos. unfold GenerateTestCase in Hg.
    destruct (GenerateTestCase_loop _ _ _ _ _ _) as [st| |] eqn:Hl; try discriminate.
    injection Hg as <-.
    assert (Hs : to_size_t len = len).
    { apply to_size_t_nonneg. unfold is_int32, size_t_modulus in *. lia. }
    apply (loop_inv keyspace_size rand sets
             (fun s => Z.of_nat (length (Fuzz.ops s)) <= len + 1)) in Hl as [Hle _].
    + exact Hle.
    + intros s s' _ Hlt Hb. apply body_length in Hb. rewrite Hs in Hlt. lia.
    + cbn. lia.
Qed.

(** The draws used in the examples: the listed values, then 12 for ever
    ([kAllOps[12]] is [TEST_RESTART_TS]). *)
Definition draws (l : list nat) (n : nat) : nat := nth n l 12%nat.

(** An insert followed by a tablet flush: the second turn pushes two
    operations and the sequence is one longer than asked for. *)
Example GenerateTestCase_one_more :
  GenerateTestCase 2 (draws [0; 0; 7; 0]%nat) ALL [] 2 5
  = Done [mkTestOp TEST_INSERT 0; mkTestOp TEST_FLUSH_OPS 0;
          mkTestOp TEST_FLUSH_TABLET 0].
Proof. vm_compute. reflexivity. Qed.

(** The contract is no empty promise: it rejects a second insert of a live
    key, and a flush of an empty session. *)
Example fuzzing_contract_rejects :
  ~ fuzzing_contract [mkTestOp TEST_INSERT 0; mkTestOp TEST_INSERT 0]
  /\ ~ fuzzing_contract [mkTestOp TEST_FLUSH_OPS 0].
Proof.
  split; intros H.
  - specialize (H [mkTestOp TEST_INSERT 0] (mkTestOp TEST_INSERT 0) [] eq_refl).
    discriminate H.
  - specialize (H [] (mkTestOp TEST_FLUSH_OPS 0) [] eq_refl). discriminate H.
Qed.

(** The same sequences fail the validator's CHECK. *)
Example ValidateFuzzCase_rejects :
  ValidateFuzzCase 2 [mkTestOp TEST_INSERT 0; mkTestOp TEST_INSERT 0]
  = Crash CheckFailure
  /\ ValidateFuzzCase 2 [mkTestOp TEST_UPDATE 1] = Crash CheckFailure.
Proof. split; reflexivity. Qed.

Lemma GenerateTestCase_obeys_contract_witness :
  GenerateTestCase 2 (draws [0; 0; 7; 0]%nat) ALL [] 2 5
  = Done [mkTestOp TEST_INSERT 0; mkTestOp TEST_FLUSH_OPS 0;
          mkTestOp TEST_FLUSH_TABLET 0]
  /\ fuzzing_contract [mkTestOp TEST_INSERT 0; mkTestOp TEST_FLUSH_OPS 0;
                       mkTestOp TEST_FLUSH_TABLET 0]
  /\ ValidateFuzzCase 2 [mkTestOp TEST_INSERT 0; mkTestOp TEST_FLUSH_OPS 0;
                         mkTestOp TEST_FLUSH_TABLET 0] = Done tt.
Proof.
  split; [vm_compute; reflexivity|].
  apply (GenerateTestCase_obeys_contract 2 (draws [0; 0; 7; 0]%nat) ALL [] 2 5).
  vm_compute. reflexivity.
Defined.

Lemma GenerateTestCase_length_witness :
  2 <= Z.of_nat (length [mkTestOp TEST_INSERT 0; mkTestOp TEST_FLUSH_OPS 0;
                         mkTestOp TEST_FLUSH_TABLET 0])
  /\ (0 <= 2 ->
      Z.of_nat (length [mkTestOp TEST_INSERT 0; mkTestOp TEST_FLUSH_OPS 0;
                        mkTestOp TEST_FLUSH_TABLET 0]) <= 2 + 1)
  /\ (forall ops1,
      GenerateTestCase 2 (draws [0; 0; 7; 0]%nat) ALL ops1 2 5
      = Done [mkTestOp TEST_INSERT 0; mkTestOp TEST_FLUSH_OPS 0;
              mkTestOp TEST_FLUSH_TABLET 0]).
Proof.
  apply (GenerateTestCase_length 2 (draws [0; 0; 7; 0]%nat) ALL [] 2 5).
  - unfold is_int32. lia.
  - vm_compute. reflexivity.
Defined.

(** The generator can always finish: when every draw picks
    [TEST_RESTART_TS] each turn pushes one operation. *)
Lemma GenerateTestCase_loop_restarts ks len fuel st :
  0 < ks -> 0 <= len < size_t_modulus ->
  (Z.to_nat len <= length (ops st) + fuel)%nat ->
  exists st',
    GenerateTestCase_loop ks (draws []) ALL fuel len st = Done st'.
Proof.
  intros Hks Hlen. revert st. induction fuel as [|fuel IH]; intros st Hf; cbn.
  - rewrite to_size_t_nonneg by exact Hlen.
    destruct (Z.ltb_spec (Z.of_nat (length (ops st))) len); [lia|]. eauto.
  - rewrite to_size_t_nonneg by exact Hlen.
    destruct (Z.ltb_spec (Z.of_nat (length (ops st))) len); [|eauto].
    unfold GenerateTestCase_body.
    destruct (Z.eqb_spec ks 0); [lia|].
    replace (PickOpAtRandom ALL (draws [] (drawn st))) with TEST_RESTART_TS
      by (unfold draws; destruct (drawn st); reflexivity).
    cbn [IsMutation].
    specialize (IH (push_back (mkTestOp TEST_RESTART_TS 0)
                      (set_drawn (2 + drawn st) st))).
    apply IH. cbn. rewrite length_app. cbn. lia.
Qed.

Lemma GenerateTestCase_can_finish ks ops0 len :
  0 < ks -> 0 <= len < size_t_modulus ->
  exists ops, GenerateTestCase ks (draws []) ALL ops0 len (Z.to_nat len) = Done ops.
Proof.
  intros Hks Hlen. unfold GenerateTestCase.
  destruct (GenerateTestCase_loop_restarts ks len (Z.to_nat len)
              (GenerateTestCase_init ks ops0) Hks Hlen) as [st' ->]; [cbn; lia|].
  eauto.
Qed.

(** It need not: when every draw picks [TEST_FLUSH_OPS] nothing is ever
    pending, no turn pushes anything, and no amount of fuel suffices. *)
Lemma GenerateTestCase_may_spin ks ops0 len fuel :
  0 < ks -> 0 < len < size_t_modulus ->
  GenerateTestCase ks (fun _ => 6%nat) ALL ops0 len fuel = OutOfFuel.
Proof.
  intros Hks Hlen. unfold GenerateTestCase.
  assert (Hspin : forall n,
             GenerateTestCase_loop ks (fun _ => 6%nat) ALL fuel len
               (mkGenState (replicate (Z.to_nat ks) false) 0 false false false false [] n)
             = OutOfFuel).
  { assert (Hlt : (Z.of_nat 0 <? len) = true) by (apply Z.ltb_lt; lia).
    induction fuel as [|fuel IH]; intros n; cbn;
      rewrite to_size_t_nonneg by lia; rewrite Hlt; [reflexivity|].
    unfold GenerateTestCase_body. destruct (Z.eqb_spec ks 0); [lia|]. cbn.
    apply IH. }
  unfold GenerateTestCase_init. rewrite Hspin. reflexivity.
Qed.

(** X2.  [GenerateTestCase] need not return: for a positive key space
    and a positive length, when every call of [rand()] returns 6 (the
    index of [TEST_FLUSH_OPS] in [kAllOps]) no turn of the loop pushes an
    operation, and the loop is still running after any number of turns;
    while for draws that pick [TEST_RESTART_TS] it returns after [len]
    turns. *)
Theorem GenerateTestCase_need_not_return
    (keyspace_size len : Z) (ops0 : list TestOp) (fuel : nat) :
  0 < keyspace_size -> 0 < len < size_t_modulus ->
  GenerateTestCase keyspace_size (fun _ => 6%nat) ALL ops0 len fuel = OutOfFuel
  /\ exists ops,
      GenerateTestCase keyspace_size (draws []) ALL ops0 len (Z.to_nat len) = Done ops.
Proof.
  intros Hks Hlen. split.
  - apply GenerateTestCase_may_spin; assumption.
  - apply GenerateTestCase_can_finish; [exact Hks | lia].
Qed.

Lemma GenerateTestCase_need_not_return_witness :
  0 < 2 /\ 0 < 3 < size_t_modulus
  /\ GenerateTestCase 2 (fun _ => 6%nat) ALL [] 3 100 = OutOfFuel
  /\ exists ops, GenerateTestCase 2 (draws []) ALL [] 3 (Z.to_nat 3) = Done ops.
Proof.
  assert (H2 : 0 < 2) by lia.
  assert (H3 : 0 < 3 < size_t_modulus) by (unfold size_t_modulus; lia).
  split; [exact H2|]. split; [exact H3|].
  exact (GenerateTestCase_need_not_return 2 3 [] 100 H2 H3).
Defined.

(** ** What the validator looks at *)

(** The mutations of a sequence, in order. *)
Definition mutations (ops : list TestOp) : list TestOp :=
  List.filter (fun op => IsMutation (type op)) ops.

Lemma ValidateFuzzCase_step_other e op :
  IsMutation (type op) = false -> ValidateFuzzCase_step e op = Done e.
Proof. unfold ValidateFuzzCase_step. destruct (type op); try discriminate; reflexivity. Qed.

Lemma ValidateFuzzCase_loop_mutations e ops :
  ValidateFuzzCase_loop e ops = ValidateFuzzCase_loop e (mutations ops).
Proof.
  revert e. induction ops as [|op ops IH]; intros e; [reflexivity|].
  unfold mutations. cbn [ValidateFuzzCase_loop List.filter].
  destruct (IsMutation (type op)) eqn:Hm.
  - cbn [ValidateFuzzCase_loop].
    destruct (ValidateFuzzCase_step e op); try reflexivity. apply IH.
  - rewrite (ValidateFuzzCase_step_other e op Hm). apply IH.
Qed.


(** X4.  [ValidateFuzzCase] looks at the mutations of a sequence only: its
    verdict on a sequence is its verdict on the inserts, upserts, updates
    and deletes of the sequence, in order.  In particular, for a key space
    that is not negative, a sequence without mutations is accepted whatever
    it holds, a [TEST_FLUSH_OPS] with nothing to flush included, which the
    fuzzing contract forbids. *)
Theorem ValidateFuzzCase_mutations_only (keyspace_size : Z) (test_ops : list TestOp) :
  ValidateFuzzCase keyspace_size test_ops
  = ValidateFuzzCase keyspace_size (mutations test_ops)
  /\ (0 <= keyspace_size -> mutations test_ops = [] ->
      ValidateFuzzCase keyspace_size test_ops = Done tt)
  /\ (0 <= keyspace_size ->
      ValidateFuzzCase keyspace_size [mkTestOp TEST_FLUSH_OPS 0] = Done tt
      /\ ~ fuzzing_contract [mkTestOp TEST_FLUSH_OPS 0]).
Proof.
  assert (Heq : ValidateFuzzCase keyspace_size test_ops
                = ValidateFuzzCase keyspace_size (mutations test_ops)).
  { unfold ValidateFuzzCase. rewrite ValidateFuzzCase_loop_mutations. reflexivity. }
  split; [exact Heq|]. split.
  - intros Hks Hnone. rewrite Heq, Hnone. reflexivity.
  - intros Hks. split.
    + reflexivity.
    + intros H. specialize (H [] (mkTestOp TEST_FLUSH_OPS 0) [] eq_refl). discriminate H.
Qed.

(** ** The validator, characterised *)








Lemma ValidateFuzzCase_loop_app e l1 l2 :
  ValidateFuzzCase_loop e (l1 ++ l2)
  = match ValidateFuzzCase_loop e l1 with
    | Done e' => ValidateFuzzCase_loop e' l2
    | Crash f => Crash f
    | OutOfFuel => OutOfFuel
    end.
Proof.
  revert e. induction l1 as [|x l1 IH]; intros e; cbn [app ValidateFuzzCase_loop].
  - reflexivity.
  - destruct (ValidateFuzzCase_step e x); try reflexivity. apply IH.
Qed.

(** X6.  [ValidateFuzzCase] stops at the first operation it refuses: a
    sequence it accepts has all its prefixes accepted, and a sequence it
    refuses is refused, for the same reason, however it is continued.  So
    a case can be cut at any point and stays valid, and no continuation
    repairs an invalid one. *)
Theorem ValidateFuzzCase_prefix (keyspace_size : Z) (ops1 ops2 : list TestOp) :
  (ValidateFuzzCase keyspace_size (ops1 ++ ops2) = Done tt ->
   ValidateFuzzCase keyspace_size ops1 = Done tt)
  /\ (forall f, ValidateFuzzCase keyspace_size ops1 = Crash f ->
                ValidateFuzzCase keyspace_size (ops1 ++ ops2) = Crash f).
Proof.
  unfold ValidateFuzzCase.
  rewrite ValidateFuzzCase_loop_app.
  destruct (ValidateFuzzCase_loop _ ops1) as [e|f|]; split;
    try discriminate; try reflexivity; auto.
Qed.

(** ** The operations a generated sequence is made of *)

(** The vector [PickOpAtRandom] draws from. *)
Definition op_set (sets : TestOpSets) : list TestOpType :=
  match sets with ALL => kAllOps | PK_ONLY => kPkOnlyOps end.

Lemma PickOpAtRandom_op_set sets r : In (PickOpAtRandom sets r) (op_set sets).
Proof.
  unfold PickOpAtRandom, op_set. destruct sets; apply nth_In;
    apply Nat.mod_upper_bound; discriminate.
Qed.

Lemma PickOpAtRandom_onto sets t :
  In t (op_set sets) -> exists r, PickOpAtRandom sets r = t.
Proof.
  intros Hin. apply (In_nth _ _ TEST_NUM_OP_TYPES) in Hin as (n & Hn & Hnth).
  exists n. unfold PickOpAtRandom, op_set in *.
  destruct sets; rewrite Nat.mod_small by exact Hn; exact Hnth.
Qed.

Lemma FLUSH_OPS_op_set sets : In TEST_FLUSH_OPS (op_set sets).
Proof. destruct sets; cbn; tauto. Qed.

Section GeneratorShape.

Variable keyspace_size : Z.
Variable rand : nat -> nat.
Variable sets : TestOpSets.

Abbreviation turn := (GenerateTestCase_body keyspace_size rand sets).

(** A turn pushes nothing, or one operation of the type drawn, or a
    [TEST_FLUSH_OPS] and one operation of the type drawn. *)
Lemma turn_pushes st st' :
  turn st = Done st' ->
  ops st' = ops st
  \/ (exists v, ops st' = ops st ++ [mkTestOp (PickOpAtRandom sets (rand (drawn st))) v])
  \/ (exists v, ops st'
                = ops st ++ [mkTestOp TEST_FLUSH_OPS 0;
                             mkTestOp (PickOpAtRandom sets (rand (drawn st))) v]).
Proof.
  unfold GenerateTestCase_body.
  destruct (keyspace_size =? 0); [discriminate|].
  set (st1 := if IsMutation _ then _ else _).
  assert (Hl : ops st1 = ops st) by (subst st1; destruct (IsMutation _); reflexivity).
  clearbody st1. rewrite <- Hl. unfold flush_if_pending.
  destruct (PickOpAtRandom sets (rand (drawn st)));
    repeat match goal with |- context [if ?c then _ else _] => destruct c end;
    intros Hb; inversion Hb; subst; cbn; rewrite <- ?app_assoc; cbn; eauto.
Qed.

Lemma turn_op_set st st' :
  Forall (fun op => In (type op) (op_set sets)) (ops st) ->
  turn st = Done st' ->
  Forall (fun op => In (type op) (op_set sets)) (ops st').
Proof.
  intros HP Hb. pose proof (PickOpAtRandom_op_set sets (rand (drawn st))) as Hin.
  destruct (turn_pushes st st' Hb) as [->|[[v ->]|[v ->]]]; [exact HP| |];
    apply Forall_app; split; try exact HP; repeat constructor;
    cbn; first [exact Hin | apply FLUSH_OPS_op_set].
Qed.

End GeneratorShape.

Lemma GenerateTestCase_op_set keyspace_size rand sets ops0 len fuel ops :
  GenerateTestCase keyspace_size rand sets ops0 len fuel = Done ops ->
  Forall (fun op => In (type op) (op_set sets)) ops.
Proof.
  intros Hg. unfold GenerateTestCase in Hg.
  destruct (GenerateTestCase_loop _ _ _ _ _ _) as [st| |] eqn:Hl; try discriminate.
  injection Hg as <-.
  apply (loop_inv keyspace_size rand sets
           (fun s => Forall (fun op => In (type op) (op_set sets)) (Fuzz.ops s)))
    in Hl as [HP _]; [exact HP| |constructor].
  intros s s' HP _ Hb. exact (turn_op_set keyspace_size rand sets s s' HP Hb).
Qed.

Lemma GenerateTestCase_valid keyspace_size rand sets ops0 len fuel ops :
  GenerateTestCase keyspace_size rand sets ops0 len fuel = Done ops ->
  ValidateFuzzCase keyspace_size ops = Done tt.
Proof.
  unfold GenerateTestCase.
  destruct (GenerateTestCase_loop _ _ _ _ _ _) as [st| |] eqn:Hl; try discriminate.
  intros [= <-].
  apply (loop_inv keyspace_size rand sets (GenInv keyspace_size)) in Hl
    as [(Hr & Hc & _) _].
  - apply ValidateFuzzCase_ok; assumption.
  - intros s s' Hs _ Hb. exact (body_inv keyspace_size rand sets s s' Hs Hb).
  - apply GenInv_init.
Qed.

(** X7.  [PickOpAtRandom] returns a member of the vector for the set asked
    for, and every member for some value of [rand()]; every operation of a
    sequence [GenerateTestCase] returns has its type in that vector.  For
    [PK_ONLY] no operation is one that sets the value column
    ([TEST_INSERT], [TEST_UPSERT], [TEST_UPDATE]). *)
Theorem GenerateTestCase_draws_from_set
    (keyspace_size : Z) (rand : nat -> nat) (sets : TestOpSets)
    (ops0 : list TestOp) (len : Z) (fuel : nat) (ops : list TestOp) :
  GenerateTestCase keyspace_size rand sets ops0 len fuel = Done ops ->
  (forall r, In (PickOpAtRandom sets r) (op_set sets))
  /\ (forall t, In t (op_set sets) -> exists r, PickOpAtRandom sets r = t)
  /\ Forall (fun op => In (type op) (op_set sets)) ops
  /\ (sets = PK_ONLY ->
      Forall (fun op => type op <> TEST_INSERT /\ type op <> TEST_UPSERT
                        /\ type op <> TEST_UPDATE) ops).
Proof.
  intros Hg.
  pose proof (GenerateTestCase_op_set _ _ _ _ _ _ _ Hg) as Hall.
  split; [apply PickOpAtRandom_op_set|]. split; [apply PickOpAtRandom_onto|].
  split; [exact Hall|]. intros ->.
  eapply Forall_impl; [exact Hall|]. cbn. intros op Hin.
  repeat split; intros Heq; rewrite Heq in Hin;
    repeat (destruct Hin as [Hin|Hin]; [discriminate Hin|]); exact Hin.
Qed.

Lemma GenerateTestCase_draws_from_set_witness :
  GenerateTestCase 2 (draws [1; 1; 3; 0; 3; 1; 6; 0]%nat) PK_ONLY [] 3 8
  = Done [mkTestOp TEST_UPSERT_PK_ONLY 1; mkTestOp TEST_FLUSH_OPS 0;
          mkTestOp TEST_MINOR_COMPACT_DELTAS 0]
  /\ (forall r, In (PickOpAtRandom PK_ONLY r) (op_set PK_ONLY))
  /\ (forall t, In t (op_set PK_ONLY) -> exists r, PickOpAtRandom PK_ONLY r = t)
  /\ Forall (fun op => In (type op) (op_set PK_ONLY))
       [mkTestOp TEST_UPSERT_PK_ONLY 1; mkTestOp TEST_FLUSH_OPS 0;
        mkTestOp TEST_MINOR_COMPACT_DELTAS 0]
  /\ (PK_ONLY = PK_ONLY ->
      Forall (fun op => type op <> TEST_INSERT /\ type op <> TEST_UPSERT
                        /\ type op <> TEST_UPDATE)
        [mkTestOp TEST_UPSERT_PK_ONLY 1; mkTestOp TEST_FLUSH_OPS 0;
         mkTestOp TEST_MINOR_COMPACT_DELTAS 0]).
Proof.
  split; [vm_compute; reflexivity|].
  apply (GenerateTestCase_draws_from_set 2 (draws [1; 1; 3; 0; 3; 1; 6; 0]%nat)
           PK_ONLY [] 3 8).
  vm_compute. reflexivity.
Defined.

(** ** When the generator flushes and compacts *)

(** Where the generator reckons the rows are after a sequence: whether
    the MemRowSet holds data ([data_in_mrs]), whether a DeltaMemStore does
    ([data_in_dms]), and whether there is something to compact
    ([worth_compacting]). *)
Definition reckon_step (f : bool * bool * bool) (op : TestOp) : bool * bool * bool :=
  let '(in_mrs, in_dms, worth) := f in
  match type op with
  | TEST_INSERT | TEST_INSERT_PK_ONLY => (true, in_dms, worth)
  | TEST_UPSERT | TEST_UPSERT_PK_ONLY | TEST_UPDATE | TEST_DELETE =>
      (in_mrs, (if in_mrs then in_dms else true), worth)
  | TEST_FLUSH_TABLET => (false, in_dms, true)
  | TEST_COMPACT_TABLET => (in_mrs, in_dms, false)
  | TEST_FLUSH_DELTAS => (in_mrs, false, worth)
  | _ => f
  end.

Definition reckoned (ops : list TestOp) : bool * bool * bool :=
  fold_left reckon_step ops (false, false, false).

Lemma reckoned_snoc ops op : reckoned (ops ++ [op]) = reckon_step (reckoned ops) op.
Proof. unfold reckoned. rewrite fold_left_app. reflexivity. Qed.

(** What holds where a flush of the MemRowSet, a flush of a DeltaMemStore
    or a compaction of the tablet stands in a generated sequence: the
    session has been flushed, and the generator reckons there is something
    for the operation to do. *)
Definition op_timely (pre : list TestOp) (op : TestOp) : Prop :=
  match type op with
  | TEST_FLUSH_TABLET => pending pre = false /\ fst (fst (reckoned pre)) = true
  | TEST_FLUSH_DELTAS => pending pre = false /\ snd (fst (reckoned pre)) = true
  | TEST_COMPACT_TABLET => pending pre = false /\ snd (reckoned pre) = true
  | _ => True
  end.

Definition timely (ops : list TestOp) : Prop :=
  forall pre op post, ops = pre ++ op :: post -> op_timely pre op.

Lemma timely_nil : timely [].
Proof. intros pre op post H. destruct pre; discriminate H. Qed.

Lemma timely_snoc ops op : timely ops -> op_timely ops op -> timely (ops ++ [op]).
Proof.
  intros Hc Hop pre op' post Heq.
  destruct post as [|p post _] using rev_ind.
  - apply app_inj_tail in Heq as [-> ->]. exact Hop.
  - rewrite app_comm_cons, app_assoc in Heq.
    apply app_inj_tail in Heq as [Heq _].
    exact (Hc pre op' post Heq).
Qed.

(** The generator's flags are what the sequence so far makes them, and
    its flushes and compactions are timely. *)
Definition GenFlags (st : GenState) : Prop :=
  (data_in_mrs st, data_in_dms st, worth_compacting st) = reckoned (ops st)
  /\ timely (ops st).

Section GeneratorFlags.

Variable keyspace_size : Z.
Variable rand : nat -> nat.
Variable sets : TestOpSets.

Ltac flags_done Hfl Hp Htm :=
  split;
  [ rewrite ?reckoned_snoc, <- Hfl; reflexivity
  | repeat (apply timely_snoc;
            [|cbn; rewrite ?pending_snoc, ?reckoned_snoc, <- ?Hp, <- ?Hfl;
              first [exact I | split; reflexivity]]);
    exact Htm ].

Lemma turn_flags st st' :
  GenInv keyspace_size st -> GenFlags st ->
  GenerateTestCase_body keyspace_size rand sets st = Done st' -> GenFlags st'.
Proof.
  intros HG HF Hb. unfold GenerateTestCase_body in Hb.
  destruct (Z.eqb_spec keyspace_size 0) as [|Hks0]; [discriminate|].
  set (r := PickOpAtRandom sets (rand (drawn st))) in *.
  set (k := Z.rem (Z.of_nat (rand (S (drawn st)))) keyspace_size) in *.
  set (st1 := if IsMutation r then _ else _) in Hb.
  assert (H1 : GenInv keyspace_size st1 /\ GenFlags st1)
    by (subst st1; destruct (IsMutation r); split; assumption).
  destruct (IsMutation r && negb (in_range (exists_ st1) k)) eqn:Hchk; [discriminate Hb|].
  assert (Hk : IsMutation r = true -> 0 <= k < keyspace_size).
  { apply (body_key_in_range keyspace_size r (exists_ st1) k); [|exact Hchk].
    destruct H1 as [(_ & _ & [Hlen _] & _) _]. exact Hlen. }
  clearbody st1 k r. clear HG HF Hchk.
  destruct H1 as [(_ & _ & [Hlen Hlk] & Hp) [Hfl Htm]].
  destruct st1 as [ex ts p m d c l n]. unfold GenFlags.
  cbn [exists_ ops_pending data_in_mrs data_in_dms worth_compacting ops] in *.
  assert (Hup : forall b, 0 <= k -> (Z.to_nat k < length ex)%nat ->
                  default false (<[Z.to_nat k := b]> ex !! Z.to_nat k) = b).
  { intros b _ Hlt. rewrite list_lookup_insert_eq by exact Hlt. reflexivity. }
  destruct r; cbn [IsMutation] in Hk; try specialize (Hk eq_refl); destruct p, m, d, c;
    cbv [flush_if_pending push_back set_exists set_op_timestamps set_ops_pending
         set_data_in_mrs set_worth_compacting set_data_in_dms set_drawn get_exists
         exists_ op_timestamps ops_pending data_in_mrs worth_compacting data_in_dms
         ops drawn negb IsMutation] in Hb.
  all: try discriminate Hb.
  all: repeat match type of Hb with
              | context [if ?c then _ else _] => destruct c eqn:?
              end.
  all: try discriminate Hb.
  all: injection Hb as <-;
       cbn [exists_ ops_pending data_in_mrs data_in_dms worth_compacting ops].
  all: try (split; assumption).
  all: try solve [flags_done Hfl Hp Htm].
  all: rewrite Hup in * by lia; discriminate.
Qed.

End GeneratorFlags.


Lemma GenerateTestCase_flags keyspace_size rand sets ops0 len fuel ops :
  GenerateTestCase keyspace_size rand sets ops0 len fuel = Done ops -> timely ops.
Proof.
  unfold GenerateTestCase.
  destruct (GenerateTestCase_loop _ _ _ _ _ _) as [st| |] eqn:Hl; try discriminate.
  intros [= <-].
  apply (loop_inv keyspace_size rand sets
           (fun s => GenInv keyspace_size s /\ GenFlags s)) in Hl as [[_ [_ Htm]] _].
  - exact Htm.
  - intros s s' [HG HF] _ Hb. split.
    + exact (body_inv keyspace_size rand sets s s' HG Hb).
    + exact (turn_flags keyspace_size rand sets s s' HG HF Hb).
  - split; [apply GenInv_init|]. split; [reflexivity | apply timely_nil].
Qed.

(** X8.  In a sequence [GenerateTestCase] returns, a [TEST_FLUSH_TABLET],
    a [TEST_FLUSH_DELTAS] or a [TEST_COMPACT_TABLET] stands only where no
    mutation awaits its [TEST_FLUSH_OPS]: when the session holds
    operations the generator flushes it first. *)
Theorem GenerateTestCase_flushes_session_first
    (keyspace_size : Z) (rand : nat -> nat) (sets : TestOpSets)
    (ops0 : list TestOp) (len : Z) (fuel : nat) (ops : list TestOp) :
  GenerateTestCase keyspace_size rand sets ops0 len fuel = Done ops ->
  forall pre op post,
    ops = pre ++ op :: post ->
    In (type op) [TEST_FLUSH_TABLET; TEST_FLUSH_DELTAS; TEST_COMPACT_TABLET] ->
    pending pre = false.
Proof.
  intros Hg pre op post Heq Hin.
  pose proof (GenerateTestCase_flags _ _ _ _ _ _ _ Hg pre op post Heq) as Ht.
  unfold op_timely in Ht.
  destruct Hin as [Hin|[Hin|[Hin|[]]]]; rewrite <- Hin in Ht; apply Ht.
Qed.

Lemma GenerateTestCase_flushes_session_first_witness :
  GenerateTestCase 2 (draws [0; 0; 7; 0]%nat) ALL [] 2 5
  = Done ([mkTestOp TEST_INSERT 0; mkTestOp TEST_FLUSH_OPS 0]
          ++ mkTestOp TEST_FLUSH_TABLET 0 :: [])
  /\ In (type (mkTestOp TEST_FLUSH_TABLET 0))
       [TEST_FLUSH_TABLET; TEST_FLUSH_DELTAS; TEST_COMPACT_TABLET]
  /\ pending [mkTestOp TEST_INSERT 0; mkTestOp TEST_FLUSH_OPS 0] = false.
Proof.
  assert (Hg : GenerateTestCase 2 (draws [0; 0; 7; 0]%nat) ALL [] 2 5
               = Done ([mkTestOp TEST_INSERT 0; mkTestOp TEST_FLUSH_OPS 0]
                       ++ mkTestOp TEST_FLUSH_TABLET 0 :: []))
    by (vm_compute; reflexivity).
  assert (Hin : In (type (mkTestOp TEST_FLUSH_TABLET 0))
                  [TEST_FLUSH_TABLET; TEST_FLUSH_DELTAS; TEST_COMPACT_TABLET])
    by (left; reflexivity).
  split; [exact Hg|]. split; [exact Hin|].
  exact (GenerateTestCase_flushes_session_first 2 (draws [0; 0; 7; 0]%nat) ALL [] 2 5 _ Hg
           [mkTestOp TEST_INSERT 0; mkTestOp TEST_FLUSH_OPS 0]
           (mkTestOp TEST_FLUSH_TABLET 0) [] eq_refl Hin).
Defined.

(** A flag that is up after a sequence was put up by an operation of the
    sequence, and not taken down since. *)
Lemma flag_last_set (flag : list TestOp -> bool) (sets_it resets_it : TestOp -> bool) :
  flag [] = false ->
  (forall l op, flag (l ++ [op]) = true ->
                sets_it op = true \/ (resets_it op = false /\ flag l = true)) ->
  forall l, flag l = true ->
    exists l1 x l2,
      l = l1 ++ x :: l2 /\ sets_it x = true /\ Forall (fun o => resets_it o = false) l2.
Proof.
  intros Hnil Hstep l. induction l as [|op l IH] using rev_ind; intros Hl.
  - congruence.
  - destruct (Hstep l op Hl) as [Hs|[Hr Hf]].
    + exists l, op, []. repeat split; [exact Hs | constructor].
    + destruct (IH Hf) as (l1 & x & l2 & -> & Hx & Hl2).
      exists l1, x, (l2 ++ [op]). split; [rewrite <- app_assoc; reflexivity|].
      split; [exact Hx|]. apply Forall_app. split; [exact Hl2|].
      constructor; [exact Hr | constructor].
Qed.

Definition is_insert (op : TestOp) : bool :=
  match type op with TEST_INSERT | TEST_INSERT_PK_ONLY => true | _ => false end.

Definition is_row_change (op : TestOp) : bool :=
  match type op with
  | TEST_UPSERT | TEST_UPSERT_PK_ONLY | TEST_UPDATE | TEST_DELETE => true
  | _ => false
  end.

Definition is_type (t : TestOpType) (op : TestOp) : bool := bool_decide (type op = t).

Ltac reckon_case l op :=
  rewrite reckoned_snoc; destruct (reckoned l) as [[m d] c];
  unfold reckon_step, is_insert, is_row_change, is_type;
  destruct (type op); cbn; auto; destruct m; auto.

Lemma reckoned_in_mrs l :
  fst (fst (reckoned l)) = true ->
  exists l1 x l2, l = l1 ++ x :: l2 /\ is_insert x = true
                  /\ Forall (fun o => is_type TEST_FLUSH_TABLET o = false) l2.
Proof.
  apply (flag_last_set (fun l => fst (fst (reckoned l)))); [reflexivity|].
  intros l0 op. reckon_case l0 op.
Qed.

Lemma reckoned_in_dms l :
  snd (fst (reckoned l)) = true ->
  exists l1 x l2, l = l1 ++ x :: l2 /\ is_row_change x = true
                  /\ Forall (fun o => is_type TEST_FLUSH_DELTAS o = false) l2.
Proof.
  apply (flag_last_set (fun l => snd (fst (reckoned l)))); [reflexivity|].
  intros l0 op. reckon_case l0 op.
Qed.

Lemma reckoned_worth l :
  snd (reckoned l) = true ->
  exists l1 x l2, l = l1 ++ x :: l2 /\ is_type TEST_FLUSH_TABLET x = true
                  /\ Forall (fun o => is_type TEST_COMPACT_TABLET o = false) l2.
Proof.
  apply (flag_last_set (fun l => snd (reckoned l))); [reflexivity|].
  intros l0 op. reckon_case l0 op.
Qed.

(** X9.  In a sequence [GenerateTestCase] returns: before a
    [TEST_FLUSH_TABLET] there is an insert, with no [TEST_FLUSH_TABLET] in
    between; before a [TEST_COMPACT_TABLET] a [TEST_FLUSH_TABLET], with no
    [TEST_COMPACT_TABLET] in between; before a [TEST_FLUSH_DELTAS] an
    upsert, update or delete, with no [TEST_FLUSH_DELTAS] in between.
    Upserts never count as putting data in the MemRowSet ([exists[row_key]]
    is set before it is tested), so a sequence without [TEST_INSERT] and
    [TEST_INSERT_PK_ONLY] has no [TEST_FLUSH_TABLET] and no
    [TEST_COMPACT_TABLET], whatever rows its upserts create. *)
Theorem GenerateTestCase_flushes_after_writes
    (keyspace_size : Z) (rand : nat -> nat) (sets : TestOpSets)
    (ops0 : list TestOp) (len : Z) (fuel : nat) (ops : list TestOp) :
  GenerateTestCase keyspace_size rand sets ops0 len fuel = Done ops ->
  (forall pre op post,
      ops = pre ++ op :: post ->
      (type op = TEST_FLUSH_TABLET ->
       exists l1 x l2, pre = l1 ++ x :: l2 /\ is_insert x = true
                       /\ Forall (fun o => is_type TEST_FLUSH_TABLET o = false) l2)
      /\ (type op = TEST_COMPACT_TABLET ->
          exists l1 x l2, pre = l1 ++ x :: l2 /\ is_type TEST_FLUSH_TABLET x = true
                          /\ Forall (fun o => is_type TEST_COMPACT_TABLET o = false) l2)
      /\ (type op = TEST_FLUSH_DELTAS ->
          exists l1 x l2, pre = l1 ++ x :: l2 /\ is_row_change x = true
                          /\ Forall (fun o => is_type TEST_FLUSH_DELTAS o = false) l2))
  /\ (Forall (fun op => is_insert op = false) ops ->
      Forall (fun op => type op <> TEST_FLUSH_TABLET /\ type op <> TEST_COMPACT_TABLET) ops).
Proof.
  intros Hg. pose proof (GenerateTestCase_flags _ _ _ _ _ _ _ Hg) as Htm.
  assert (Hpre : forall pre op post,
             ops = pre ++ op :: post ->
             (type op = TEST_FLUSH_TABLET ->
              exists l1 x l2, pre = l1 ++ x :: l2 /\ is_insert x = true
                              /\ Forall (fun o => is_type TEST_FLUSH_TABLET o = false) l2)
             /\ (type op = TEST_COMPACT_TABLET ->
                 exists l1 x l2, pre = l1 ++ x :: l2 /\ is_type TEST_FLUSH_TABLET x = true
                                 /\ Forall (fun o => is_type TEST_COMPACT_TABLET o = false) l2)
             /\ (type op = TEST_FLUSH_DELTAS ->
                 exists l1 x l2, pre = l1 ++ x :: l2 /\ is_row_change x = true
                                 /\ Forall (fun o => is_type TEST_FLUSH_DELTAS o = false) l2)).
  { intros pre op post Heq. specialize (Htm pre op post Heq). unfold op_timely in Htm.
    repeat split; intros Ht; rewrite Ht in Htm; destruct Htm as [_ Hf].
    - apply reckoned_in_mrs. exact Hf.
    - apply reckoned_worth. exact Hf.
    - apply reckoned_in_dms. exact Hf. }
  split; [exact Hpre|]. intros Hnone.
  assert (Hft : Forall (fun op => type op <> TEST_FLUSH_TABLET) ops).
  { apply Forall_forall. intros op Hin Ht.
    apply list_elem_of_In, in_split in Hin as (pre & post & Heq).
    destruct (Hpre pre op post Heq) as [Hm _].
    destruct (Hm Ht) as (l1 & x & l2 & -> & Hx & _).
    rewrite Forall_forall in Hnone. rewrite (Hnone x) in Hx; [discriminate|].
    subst ops. apply list_elem_of_In. apply in_or_app. left. apply in_or_app.
    right. left. reflexivity. }
  apply Forall_forall. intros op Hin. split.
  - rewrite Forall_forall in Hft. apply Hft. exact Hin.
  - intros Ht. apply list_elem_of_In, in_split in Hin as (pre & post & Heq).
    destruct (Hpre pre op post Heq) as (_ & Hc & _).
    destruct (Hc Ht) as (l1 & x & l2 & -> & Hx & _).
    unfold is_type in Hx. apply bool_decide_eq_true in Hx.
    rewrite Forall_forall in Hft. apply (Hft x); [|exact Hx].
    subst ops. apply list_elem_of_In. apply in_or_app. left. apply in_or_app.
    right. left. reflexivity.
Qed.

Lemma GenerateTestCase_flushes_after_writes_witness :
  GenerateTestCase 2 (draws [0; 0; 7; 0]%nat) ALL [] 2 5
  = Done [mkTestOp TEST_INSERT 0; mkTestOp TEST_FLUSH_OPS 0; mkTestOp TEST_FLUSH_TABLET 0]
  /\ exists l1 x l2,
      [mkTestOp TEST_INSERT 0; mkTestOp TEST_FLUSH_OPS 0] = l1 ++ x :: l2
      /\ is_insert x = true
      /\ Forall (fun o => is_type TEST_FLUSH_TABLET o = false) l2.
Proof.
  assert (Hg : GenerateTestCase 2 (draws [0; 0; 7; 0]%nat) ALL [] 2 5
               = Done [mkTestOp TEST_INSERT 0; mkTestOp TEST_FLUSH_OPS 0;
                       mkTestOp TEST_FLUSH_TABLET 0])
    by (vm_compute; reflexivity).
  split; [exact Hg|].
  exact (proj1 (proj1 (GenerateTestCase_flushes_after_writes
                         2 (draws [0; 0; 7; 0]%nat) ALL [] 2 5 _ Hg)
                  [mkTestOp TEST_INSERT 0; mkTestOp TEST_FLUSH_OPS 0]
                  (mkTestOp TEST_FLUSH_TABLET 0) [] eq_refl) eq_refl).
Defined.

(** Upserts that create both rows of the key space, flushed: the generator
    goes on to a flush of the DeltaMemStore, and has no flush of the
    tablet to offer however often [TEST_FLUSH_TABLET] (7) is drawn. *)
Example GenerateTestCase_upserts_only :
  GenerateTestCase 2 (draws [2; 0; 2; 1; 7; 0; 7; 0; 8; 0]%nat) ALL [] 3 6
  = Done [mkTestOp TEST_UPSERT 0; mkTestOp TEST_UPSERT 1;
          mkTestOp TEST_FLUSH_OPS 0; mkTestOp TEST_FLUSH_DELTAS 0].
Proof. vm_compute. reflexivity. Qed.

(** ** How the generator ends *)




(** With a key space of -1: draws that pick [TEST_RESTART_TS] give the
    sequence they give with any key space; a first draw that picks
    [TEST_INSERT] indexes [exists]. *)
Example GenerateTestCase_negative_flag :
  GenerateTestCase (-1) (draws []) ALL [] 3 3
  = Done [mkTestOp TEST_RESTART_TS 0; mkTestOp TEST_RESTART_TS 0;
          mkTestOp TEST_RESTART_TS 0]
  /\ GenerateTestCase (-1) (draws [0; 0]%nat) ALL [] 3 3 = Crash UndefinedBehaviour
  /\ ValidateFuzzCase (-1) [mkTestOp TEST_RESTART_TS 0; mkTestOp TEST_FLUSH_OPS 0]
     = Done tt
  /\ ValidateFuzzCase (-1) [mkTestOp TEST_UPSERT 0] = Crash UndefinedBehaviour.
Proof. vm_compute. repeat split; reflexivity. Qed.

End Fuzz.

(* ===================================================================== *)
(** * fuzz-itest.cc: the dump of a test case *)
(* ===================================================================== *)

(** [strings::Substitute] and [JoinStrings] come from gutil, which is not
    among the sources at hand; they are written here as their call sites
    use them: [Substitute] puts its arguments in the places of [$0] and
    [$1], an [int] as its decimal digits; [JoinStrings] puts the delimiter
    between the components. *)
Module Dump.

Import Fuzz.
Import Ascii String.

Local Open Scope string_scope.

(** The value of an enumerator of [enum TestOpType]. *)
Definition enum_value (type : TestOpType) : nat :=
  match type with
  | TEST_INSERT => 0
  | TEST_INSERT_PK_ONLY => 1
  | TEST_UPSERT => 2
  | TEST_UPSERT_PK_ONLY => 3
  | TEST_UPDATE => 4
  | TEST_DELETE => 5
  | TEST_FLUSH_OPS => 6
  | TEST_FLUSH_TABLET => 7
  | TEST_FLUSH_DELTAS => 8
  | TEST_MINOR_COMPACT_DELTAS => 9
  | TEST_MAJOR_COMPACT_DELTAS => 10
  | TEST_COMPACT_TABLET => 11
  | TEST_RESTART_TS => 12
  | TEST_SCAN_AT_TIMESTAMP => 13
  | TEST_NUM_OP_TYPES => 14
  end%nat.

(** [const char* TestOpType_names[]] *)
Definition TestOpType_names : list string :=
  ["TEST_INSERT";
   "TEST_INSERT_PK_ONLY";
   "TEST_UPSERT";
   "TEST_UPSERT_PK_ONLY";
   "TEST_UPDATE";
   "TEST_DELETE";
   "TEST_FLUSH_OPS";
   "TEST_FLUSH_TABLET";
   "TEST_FLUSH_DELTAS";
   "TEST_MINOR_COMPACT_DELTAS";
   "TEST_MAJOR_COMPACT_DELTAS";
   "TEST_COMPACT_TABLET";
   "TEST_RESTART_TS";
   "TEST_SCAN_AT_TIMESTAMP"].

(** An [int] argument of [strings::Substitute]: its decimal digits, after
    a minus sign when it is negative. *)
Definition SimpleItoa (v : Z) : string :=
  DecimalString.NilEmpty.string_of_int (Z.to_int v).

(** [TestOp::ToString]: [Substitute("{$0, $1}", TestOpType_names[type], val)];
    the array has no entry for [TEST_NUM_OP_TYPES]. *)
Definition ToString (test_op : TestOp) : outcome string :=
  match TestOpType_names !! enum_value (type test_op) with
  | Some name => Done ("{" ++ name ++ ", " ++ SimpleItoa (Fuzz.val test_op) ++ "}")
  | None => Crash UndefinedBehaviour
  end.

(** [JoinStrings(components, delim)]: the components, with [delim] between
    each two. *)
Fixpoint JoinStrings (components : list string) (delim : string) : string :=
  match components with
  | [] => ""
  | s :: rest =>
      match rest with
      | [] => s
      | _ :: _ => s ++ delim ++ JoinStrings rest delim
      end
  end.

(** The loop of [DumpTestCase]: [strs.push_back(test_op.ToString())]. *)
Fixpoint DumpTestCase_loop (ops : list TestOp) (strs : list string)
  : outcome (list string) :=
  match ops with
  | [] => Done strs
  | test_op :: rest =>
      s ← ToString test_op;
      DumpTestCase_loop rest (strs ++ [s])%list
  end.

(** The delimiter [",\n"]. *)
Definition comma_newline : string := String "," (String (ascii_of_nat 10) "").

(** [string DumpTestCase(const vector<TestOp>& ops)] *)
Definition DumpTestCase (ops : list TestOp) : outcome string :=
  strs ← DumpTestCase_loop ops [];
  mret (JoinStrings strs comma_newline).

(** ** A dump determines the test case *)

Fixpoint has_char (c : ascii) (s : string) : bool :=
  match s with
  | EmptyString => false
  | String a s' => Ascii.eqb c a || has_char c s'
  end.

Lemma append_nil_r (s : string) : s ++ "" = s.
Proof. induction s as [|a s IH]; cbn; [reflexivity|]. rewrite IH. reflexivity. Qed.

Lemma append_assoc (s1 s2 s3 : string) : (s1 ++ s2) ++ s3 = s1 ++ (s2 ++ s3).
Proof. induction s1 as [|a s1 IH]; cbn; [reflexivity|]. rewrite IH. reflexivity. Qed.

(** Two strings cut at the first occurrence of a character. *)
Lemma append_delim_inj (c : ascii) (s1 s2 r1 r2 : string) :
  has_char c s1 = false -> has_char c s2 = false ->
  s1 ++ String c r1 = s2 ++ String c r2 -> s1 = s2 /\ r1 = r2.
Proof.
  revert s2. induction s1 as [|a s1 IH]; intros [|b s2]; cbn; intros H1 H2 Heq.
  - injection Heq as ->. split; reflexivity.
  - injection Heq as <- _. rewrite Ascii.eqb_refl in H2. discriminate H2.
  - injection Heq as -> _. rewrite Ascii.eqb_refl in H1. discriminate H1.
  - injection Heq as <- Heq.
    apply orb_false_iff in H1 as [_ H1]. apply orb_false_iff in H2 as [_ H2].
    destruct (IH s2 H1 H2 Heq) as [-> ->]. split; reflexivity.
Qed.

Lemma TestOpType_names_inj (t1 t2 : TestOpType) (name : string) :
  TestOpType_names !! enum_value t1 = Some name ->
  TestOpType_names !! enum_value t2 = Some name ->
  t1 = t2.
Proof.
  destruct t1; cbn; intros [= <-]; destruct t2; cbn; intros H;
    try reflexivity; discriminate H.
Qed.

Lemma TestOpType_names_no_comma (t : TestOpType) (name : string) :
  TestOpType_names !! enum_value t = Some name -> has_char "," name = false.
Proof. destruct t; cbn; intros [= <-]; reflexivity. Qed.

Lemma string_of_uint_digits (d : Decimal.uint) :
  has_char "}" (DecimalString.NilEmpty.string_of_uint d) = false.
Proof. induction d; cbn; [reflexivity|exact IHd..]. Qed.

Lemma SimpleItoa_no_brace (v : Z) : has_char "}" (SimpleItoa v) = false.
Proof.
  unfold SimpleItoa. destruct (Z.to_int v); cbn; apply string_of_uint_digits.
Qed.

Lemma SimpleItoa_inj (v1 v2 : Z) : SimpleItoa v1 = SimpleItoa v2 -> v1 = v2.
Proof.
  unfold SimpleItoa. intros Heq. apply DecimalZ.to_int_inj.
  apply (f_equal DecimalString.NilEmpty.int_of_string) in Heq.
  rewrite !DecimalString.NilEmpty.isi in Heq. injection Heq as Heq. exact Heq.
Qed.

(** What follows the string of an operation can be told from it. *)
Lemma ToString_prefix (a b : TestOp) (sa sb ra rb : string) :
  ToString a = Done sa -> ToString b = Done sb ->
  sa ++ ra = sb ++ rb -> a = b /\ ra = rb.
Proof.
  unfold ToString. intros Ha Hb.
  destruct (TestOpType_names !! enum_value (type a)) as [na|] eqn:Hna; [|discriminate Ha].
  destruct (TestOpType_names !! enum_value (type b)) as [nb|] eqn:Hnb; [|discriminate Hb].
  injection Ha as <-. injection Hb as <-.
  cbn [append]. intros [= Heq]. rewrite !append_assoc in Heq. cbn [append] in Heq.
  apply append_delim_inj in Heq as [<- [= Heq]];
    [|exact (TestOpType_names_no_comma _ _ Hna)|exact (TestOpType_names_no_comma _ _ Hnb)].
  rewrite !append_assoc in Heq. cbn [append] in Heq.
  apply append_delim_inj in Heq as [Hv ->]; [|apply SimpleItoa_no_brace..].
  apply SimpleItoa_inj in Hv.
  pose proof (TestOpType_names_inj _ _ _ Hna Hnb) as Ht.
  destruct a, b. cbn in *. subst. split; reflexivity.
Qed.

Lemma ToString_brace (a : TestOp) (sa : string) :
  ToString a = Done sa -> exists rest, sa = String "{" rest.
Proof.
  unfold ToString. destruct (TestOpType_names !! _); [|discriminate].
  intros [= <-]. eexists. reflexivity.
Qed.

Lemma JoinStrings_cons (s : string) (rest : list string) (delim : string) :
  JoinStrings (s :: rest) delim
  = s ++ match rest with
         | [] => ""
         | _ :: _ => delim ++ JoinStrings rest delim
         end.
Proof. destruct rest; cbn [JoinStrings]; [rewrite append_nil_r|]; reflexivity. Qed.

Lemma JoinStrings_ToString_inj (ops1 ops2 : list TestOp) (strs1 strs2 : list string) :
  Forall2 (fun op s => ToString op = Done s) ops1 strs1 ->
  Forall2 (fun op s => ToString op = Done s) ops2 strs2 ->
  JoinStrings strs1 comma_newline = JoinStrings strs2 comma_newline ->
  ops1 = ops2.
Proof.
  intros H1. revert ops2 strs2.
  induction H1 as [|a sa ops1 strs1 Ha H1 IH]; intros ops2 strs2 H2 Heq.
  - destruct H2 as [|b sb ops2 strs2 Hb H2]; [reflexivity|].
    rewrite JoinStrings_cons in Heq. apply ToString_brace in Hb as [rest ->].
    discriminate Heq.
  - destruct H2 as [|b sb ops2 strs2 Hb H2].
    + rewrite JoinStrings_cons in Heq. apply ToString_brace in Ha as [rest ->].
      discriminate Heq.
    + rewrite !JoinStrings_cons in Heq.
      apply (ToString_prefix _ _ _ _ _ _ Ha Hb) in Heq as [<- Heq].
      f_equal. apply (IH _ _ H2).
      destruct H1, H2; try reflexivity; try discriminate Heq.
      injection Heq as Heq. exact Heq.
Qed.

Lemma DumpTestCase_loop_strings (ops : list TestOp) (strs result : list string) :
  DumpTestCase_loop ops strs = Done result ->
  exists more,
    result = (strs ++ more)%list /\ Forall2 (fun op s => ToString op = Done s) ops more.
Proof.
  revert strs. induction ops as [|op ops IH]; intros strs; cbn.
  - intros [= <-]. exists []. rewrite app_nil_r. split; [reflexivity|constructor].
  - destruct (ToString op) as [s| |] eqn:Hs; cbn; try discriminate.
    intros Hrun. apply IH in Hrun as (more & -> & Hmore).
    exists (s :: more). rewrite <- app_assoc. split; [reflexivity|].
    constructor; assumption.
Qed.

Lemma DumpTestCase_loop_returns (ops : list TestOp) (strs : list string) :
  Forall (fun op => type op <> TEST_NUM_OP_TYPES) ops ->
  exists result, DumpTestCase_loop ops strs = Done result.
Proof.
  intros Hops. revert strs. induction Hops as [|op ops Hop _ IH]; intros strs; cbn.
  - eexists. reflexivity.
  - unfold ToString. destruct (type op); try contradiction; cbn; apply IH.
Qed.

Lemma DumpTestCase_loop_stops (ops : list TestOp) (strs : list string) :
  Exists (fun op => type op = TEST_NUM_OP_TYPES) ops ->
  DumpTestCase_loop ops strs = Crash UndefinedBehaviour.
Proof.
  intros Hops. revert strs. induction Hops as [op ops Hop|op ops _ IH]; intros strs; cbn.
  - unfold ToString. rewrite Hop. reflexivity.
  - destruct (ToString op) as [s|f|] eqn:Hs; cbn.
    + apply IH.
    + unfold ToString in Hs. destruct (TestOpType_names !! _); [discriminate Hs|].
      injection Hs as <-. reflexivity.
    + unfold ToString in Hs. destruct (TestOpType_names !! _); discriminate Hs.
Qed.

(** X19.  [DumpTestCase] returns a string for every sequence that does not
    hold [TEST_NUM_OP_TYPES], for which [TestOpType_names] has no entry;
    and the string determines the sequence: two sequences with the same
    dump are the same sequence, so a test case pasted back from the log is
    the one that ran. *)
Theorem DumpTestCase_determines_case :
  (forall ops, Forall (fun op => type op <> TEST_NUM_OP_TYPES) ops ->
               exists s, DumpTestCase ops = Done s)
  /\ (forall ops, Exists (fun op => type op = TEST_NUM_OP_TYPES) ops ->
                  DumpTestCase ops = Crash UndefinedBehaviour)
  /\ (forall ops1 ops2 s,
        DumpTestCase ops1 = Done s -> DumpTestCase ops2 = Done s -> ops1 = ops2).
Proof.
  unfold DumpTestCase. split; [|split].
  - intros ops Hops. destruct (DumpTestCase_loop_returns ops [] Hops) as [r ->].
    eexists. reflexivity.
  - intros ops Hops. rewrite (DumpTestCase_loop_stops ops [] Hops). reflexivity.
  - intros ops1 ops2 s H1 H2.
    destruct (DumpTestCase_loop ops1 []) as [r1| |] eqn:Hr1; try discriminate H1.
    destruct (DumpTestCase_loop ops2 []) as [r2| |] eqn:Hr2; try discriminate H2.
    cbn in H1, H2. injection H1 as H1. injection H2 as H2.
    apply DumpTestCase_loop_strings in Hr1 as (m1 & -> & Hm1).
    apply DumpTestCase_loop_strings in Hr2 as (m2 & -> & Hm2).
    cbn [app] in H1, H2.
    apply (JoinStrings_ToString_inj _ _ _ _ Hm1 Hm2). rewrite H1, H2. reflexivity.
Qed.

(** The dump of a short case: one operation to a line, as the initializer
    of a [vector<TestOp>] would list them. *)
Example DumpTestCase_runs :
  DumpTestCase [mkTestOp TEST_INSERT 0; mkTestOp TEST_FLUSH_OPS 0;
                mkTestOp TEST_SCAN_AT_TIMESTAMP 12; mkTestOp TEST_DELETE (-1)]
  = Done ("{TEST_INSERT, 0}" ++ comma_newline
          ++ "{TEST_FLUSH_OPS, 0}" ++ comma_newline
          ++ "{TEST_SCAN_AT_TIMESTAMP, 12}" ++ comma_newline
          ++ "{TEST_DELETE, -1}")
  /\ DumpTestCase [] = Done "".
Proof. vm_compute. split; reflexivity. Qed.

End Dump.

(* ===================================================================== *)
(** * The client API the harness drives *)
(* ===================================================================== *)

(** Modelled from the spec: the client library ([KuduPartialRow],
    [KuduSession], [KuduScanner], [Status]) is not among the sources.  The
    specification (section 6) gives a write session that buffers row
    operations and submits them as one batch with a status per row, and a
    scanner with a read mode, an order mode and optional predicates; of the
    row interface the harness uses [SetInt32], [SetNull], [GetInt32] and
    [IsNull] on columns 0 ([key]) and 1 ([val]). *)
Module Client.

(** The two schemas the tests create: [Schema({ColumnSchema("key", INT32)}, 1)]
    and [CreateKeyValueTestSchema()] (an INT32 key and a nullable INT32 value). *)
Inductive Schema : Type := PkOnlySchema | KeyValueSchema.

Definition num_columns (s : Schema) : nat :=
  match s with PkOnlySchema => 1%nat | KeyValueSchema => 2%nat end.

(** The user errors of the specification's taxonomy (section 7). *)
Inductive Status : Type :=
  | OK
  | AlreadyPresent
  | NotFound
  | InvalidArgument.

#[export] Instance Status_eq_dec : EqDecision Status.
Proof. solve_decision. Defined.

Definition ok (s : Status) : bool :=
  match s with OK => true | _ => false end.

(** What a partial row says of a column. *)
Inductive ColumnWrite : Type :=
  | Unset
  | SetToNull
  | SetTo (v : Z).

#[export] Instance ColumnWrite_eq_dec : EqDecision ColumnWrite.
Proof. solve_decision. Defined.

(** The column set a column of a partial row stands for: empty when the
    column is unset, else its new value ([None] for NULL). *)
Definition colset_of (c : ColumnWrite) : option (option Z) :=
  match c with
  | Unset => None
  | SetToNull => Some None
  | SetTo v => Some (Some v)
  end.

(** [KuduPartialRow] for the schemas above. *)
Record KuduPartialRow : Type := mkPartialRow {
  row_schema : Schema;
  key_column : ColumnWrite;
  val_column : ColumnWrite;
}.

Definition empty_row (s : Schema) : KuduPartialRow := mkPartialRow s Unset Unset.

(** [row->SetInt32(col_idx, v)]: refused for a column the schema lacks. *)
Definition SetInt32 (col_idx : nat) (v : Z) (row : KuduPartialRow)
  : Status * KuduPartialRow :=
  match col_idx with
  | O => (OK, mkPartialRow (row_schema row) (SetTo v) (val_column row))
  | S O =>
      match row_schema row with
      | KeyValueSchema => (OK, mkPartialRow (row_schema row) (key_column row) (SetTo v))
      | PkOnlySchema => (InvalidArgument, row)
      end
  | _ => (InvalidArgument, row)
  end.

(** [row->SetNull(col_idx)]: refused for the key and for a column the
    schema lacks. *)
Definition SetNull (col_idx : nat) (row : KuduPartialRow)
  : Status * KuduPartialRow :=
  match col_idx with
  | S O =>
      match row_schema row with
      | KeyValueSchema => (OK, mkPartialRow (row_schema row) (key_column row) SetToNull)
      | PkOnlySchema => (InvalidArgument, row)
      end
  | _ => (InvalidArgument, row)
  end.

Inductive WriteType : Type := INSERT | UPSERT | UPDATE | DELETE.

#[export] Instance WriteType_eq_dec : EqDecision WriteType.
Proof. solve_decision. Defined.

(** [KuduWriteOperation]: [KuduInsert], [KuduUpsert], [KuduUpdate] or
    [KuduDelete], with its row. *)
Record KuduWriteOperation : Type := mkWriteOp {
  write_type : WriteType;
  write_row : KuduPartialRow;
}.

(** A [KuduSession] in [MANUAL_FLUSH] mode: the operations applied and not
    yet flushed, oldest first. *)
Definition KuduSession : Type := list KuduWriteOperation.

(** [session->Apply(op)] *)
Definition Apply (op : KuduWriteOperation) (session : KuduSession)
  : Status * KuduSession :=
  (OK, session ++ [op]).

(** A row a scanner returns: its key, and its value column ([None] when NULL). *)
Record RowResult : Type := mkRowResult {
  result_key : Z;
  result_val : option Z;
}.

#[export] Instance RowResult_eq_dec : EqDecision RowResult.
Proof. solve_decision. Defined.

Inductive ReadMode : Type :=
  | READ_LATEST
  | READ_AT_SNAPSHOT (timestamp : Z).

Inductive OrderMode : Type := UNORDERED | ORDERED.

(** A configured scanner. *)
Record ScanSpec : Type := mkScanSpec {
  read_mode : ReadMode;
  order_mode : OrderMode;
  key_equals : option Z;   (* the predicate [key = k], when added *)
}.

Inductive DeltaCompactionType : Type :=
  | MAJOR_DELTA_COMPACTION
  | MINOR_DELTA_COMPACTION.

(** The tablet server as the harness sees it: what its calls return and
    the server they leave. *)
Class TabletServer (T : Type) : Type := {
  (** [KuduScanner::Open] and [NextBatch] until exhausted *)
  Scan : ScanSpec -> T -> list RowResult * T;
  (** [KuduSession::Flush]: one status per operation of the batch *)
  Write : KuduSession -> T -> list Status * T;
  (** [LogicalClock::GetCurrentTime] *)
  GetCurrentTime : T -> Z;
  (** [Tablet::Flush] *)
  Flush : T -> Status * T;
  (** [Tablet::FlushBiggestDMS] *)
  FlushBiggestDMS : T -> Status * T;
  (** [Tablet::CompactWorstDeltas] *)
  CompactWorstDeltas : DeltaCompactionType -> T -> Status * T;
  (** [Tablet::Compact(FORCE_COMPACT_ALL)] *)
  Compact : T -> Status * T;
  (** [MiniTabletServer::Shutdown], [Restart], [WaitInited] *)
  RestartServer : T -> Status * T;
}.

End Client.

(* ===================================================================== *)
(** * tablet/key_value_test_schema.h: the rows of the shadow model *)
(* ===================================================================== *)

Module KeyValue.

(** [struct ExpectedKeyValueRow].  The header that declares it is not among
    the sources; the members are the two the harness reads and writes. *)
Record ExpectedKeyValueRow : Type := mkRow {
  key : Z;
  val : option Z;
}.

#[export] Instance ExpectedKeyValueRow_eq_dec : EqDecision ExpectedKeyValueRow.
Proof. solve_decision. Defined.

End KeyValue.

(* ===================================================================== *)
(** * fuzz-itest.cc: [saved_values_] *)
(* ===================================================================== *)

(** [std::map<int, V, std::greater<int>>]: the entries in the order the
    map iterates them, which [std::greater] makes descending in the key. *)
Module SavedValues.

Section Map.

Context {V : Type}.

Definition t : Type := list (Z * V).

(** [m[k] = v] *)
Fixpoint assign (k : Z) (v : V) (m : t) : t :=
  match m with
  | [] => [(k, v)]
  | (k', v') :: rest =>
      if k >? k' then (k, v) :: (k', v') :: rest
      else if k =? k' then (k, v) :: rest
      else (k', v') :: assign k v rest
  end.

(** [m.upper_bound(k)]: the first entry that [std::greater] orders after
    [k], [None] for [end()]. *)
Fixpoint upper_bound (k : Z) (m : t) : option (Z * V) :=
  match m with
  | [] => None
  | (k', v') :: rest => if k >? k' then Some (k', v') else upper_bound k rest
  end.

(** The representation invariant: keys strictly descending. *)
Fixpoint descending (m : t) : Prop :=
  match m with
  | [] => True
  | (k, _) :: rest => (forall k' v', In (k', v') rest -> k' < k) /\ descending rest
  end.

Lemma In_assign k v m k' v' :
  In (k', v') (assign k v m) -> (k' = k /\ v' = v) \/ In (k', v') m.
Proof.
  induction m as [|[k0 v0] m IH]; cbn.
  - intros [[= <- <-]|[]]. left. split; reflexivity.
  - destruct (k >? k0).
    + intros [[= <- <-]|H]; [left; split; reflexivity | right; exact H].
    + destruct (k =? k0).
      * intros [[= <- <-]|H]; [left; split; reflexivity | right; right; exact H].
      * intros [H|H]; [right; left; exact H|].
        destruct (IH H) as [?|?]; [left; assumption | right; right; assumption].
Qed.

Lemma descending_assign k v m : descending m -> descending (assign k v m).
Proof.
  induction m as [|[k0 v0] m IH]; cbn.
  - intros _. split; [intros ? ? []|exact I].
  - intros [Hhd Htl].
    destruct (Z.gtb_spec k k0) as [Hgt|Hle].
    + cbn. split; [|split; assumption].
      intros k' v' [[= <- <-]|Hin]; [lia|]. specialize (Hhd _ _ Hin). lia.
    + destruct (Z.eqb_spec k k0) as [->|Hne].
      * cbn. split; assumption.
      * cbn. split; [|apply IH; exact Htl].
        intros k' v' Hin. apply In_assign in Hin as [[-> _]|Hin]; [lia|].
        exact (Hhd _ _ Hin).
Qed.

(** On a map, [upper_bound k] is the entry with the greatest key strictly
    below [k], and [end()] exactly when there is no key below [k]. *)
Lemma upper_bound_Some k m k0 v0 :
  descending m ->
  (upper_bound k m = Some (k0, v0) <->
   In (k0, v0) m /\ k0 < k /\ forall k' v', In (k', v') m -> k' < k -> k' <= k0).
Proof.
  induction m as [|[k1 v1] m IH]; cbn.
  - intros _. split; [discriminate | intros [[] _]].
  - intros [Hhd Htl]. destruct (Z.gtb_spec k k1) as [Hgt|Hle].
    + split.
      * intros [= <- <-]. split; [left; reflexivity|]. split; [lia|].
        intros k' v' [[= <- <-]|Hin] _; [lia|]. specialize (Hhd _ _ Hin). lia.
      * intros ([[= <- <-]|Hin] & Hlt & Hmax); [reflexivity|].
        specialize (Hhd _ _ Hin).
        specialize (Hmax k1 v1 (or_introl eq_refl) ltac:(lia)). lia.
    + rewrite (IH Htl). split.
      * intros (Hin & Hlt & Hmax). split; [right; exact Hin|]. split; [exact Hlt|].
        intros k' v' [[= <- <-]|Hin'] Hk'; [lia|]. exact (Hmax _ _ Hin' Hk').
      * intros ([[= <- <-]|Hin] & Hlt & Hmax); [lia|].
        split; [exact Hin|]. split; [exact Hlt|].
        intros k' v' Hin' Hk'. apply (Hmax k' v'); [right; exact Hin' | exact Hk'].
Qed.


Lemma In_assign_same k v m : In (k, v) (assign k v m).
Proof.
  induction m as [|[k0 v0] m IH]; cbn; [left; reflexivity|].
  destruct (k >? k0); [left; reflexivity|].
  destruct (k =? k0); [left; reflexivity|]. right. exact IH.
Qed.

(** An assignment under [k] is not seen by [upper_bound] at or below [k]. *)
Lemma upper_bound_assign_before k v m timestamp :
  timestamp <= k ->
  upper_bound timestamp (assign k v m) = upper_bound timestamp m.
Proof.
  intros Hle. induction m as [|[k0 v0] m IH]; cbn.
  - destruct (Z.gtb_spec timestamp k); [lia | reflexivity].
  - destruct (Z.gtb_spec k k0) as [Hgt|Hngt].
    + cbn. destruct (Z.gtb_spec timestamp k); [lia | reflexivity].
    + destruct (Z.eqb_spec k k0) as [->|Hne].
      * cbn. destruct (Z.gtb_spec timestamp k0); [lia | reflexivity].
      * cbn. rewrite IH. reflexivity.
Qed.

(** Above [k] it is what [upper_bound] selects, when no other key lies
    between. *)
Lemma upper_bound_assign_after k v m timestamp :
  descending m ->
  k < timestamp ->
  (forall k' v', In (k', v') m -> k' <= k \/ timestamp <= k') ->
  upper_bound timestamp (assign k v m) = Some (k, v).
Proof.
  intros Hd Hlt Hgap.
  apply upper_bound_Some; [apply descending_assign; exact Hd|].
  split; [apply In_assign_same|]. split; [exact Hlt|].
  intros k' v' Hin Hk'. apply In_assign in Hin as [[-> _]|Hin]; [lia|].
  destruct (Hgap _ _ Hin); lia.
Qed.


End Map.

Arguments t : clear implicits.

End SavedValues.

(* ===================================================================== *)
(** * fuzz-itest.cc: class FuzzTest *)
(* ===================================================================== *)

Module Harness.

Import MachineInt Fuzz Client KeyValue.

(** [CHECK_OK(status)] on a call that also returns a value. *)
Definition CHECK_OK {A : Type} (r : Status * A) : outcome A :=
  if ok (fst r) then Done (snd r) else Crash CheckFailure.

(** [ASSERT_OK(status)] *)
Definition ASSERT_OK {A : Type} (r : Status * A) : outcome A :=
  if ok (fst r) then Done (snd r) else Crash FatalTestFailure.

(** ** Row operations *)

Section RowOperations.

(** [schema_], as [CreateTabletAndStartClusterWithSchema] set it. *)
Variable schema_ : Schema.

(** [FuzzTest::InsertOrUpsertRow]: the expected new contents of the row,
    and the session with the operation applied. *)
Definition InsertOrUpsertRow (key val : Z) (old_row : option ExpectedKeyValueRow)
    (type : TestOpType) (session_ : KuduSession)
  : outcome (ExpectedKeyValueRow * KuduSession) :=
  let op :=
    match type with
    | TEST_INSERT | TEST_INSERT_PK_ONLY => INSERT
    | _ => UPSERT
    end in
  row ← CHECK_OK (SetInt32 0 key (empty_row schema_));
  '(ret_val, row) ←
    match type with
    | TEST_INSERT | TEST_UPSERT =>
        if negb (Z.land val 1 =? 0) then
          row ← CHECK_OK (SetNull 1 row); mret (None, row)
        else
          row ← CHECK_OK (SetInt32 1 val row); mret (Some val, row)
    | TEST_INSERT_PK_ONLY => mret (None, row)
    | TEST_UPSERT_PK_ONLY =>
        mret (match old_row with
              | Some old => KeyValue.val old
              | None => None
              end, row)
    | _ => Crash CheckFailure
    end;
  session_ ← CHECK_OK (Apply (mkWriteOp op row) session_);
  mret (mkRow key ret_val, session_).

(** [FuzzTest::MutateRow]; [new_val] is a [uint32_t]. *)
Definition MutateRow (key new_val : Z) (session_ : KuduSession)
  : outcome (ExpectedKeyValueRow * KuduSession) :=
  row ← CHECK_OK (SetInt32 0 key (empty_row schema_));
  '(ret_val, row) ←
    (if negb (Z.land new_val 1 =? 0) then
       row ← CHECK_OK (SetNull 1 row); mret (None, row)
     else
       row ← CHECK_OK (SetInt32 1 (to_int32 new_val) row);
       mret (Some (to_int32 new_val), row));
  session_ ← CHECK_OK (Apply (mkWriteOp UPDATE row) session_);
  mret (mkRow key ret_val, session_).

(** [FuzzTest::DeleteRow] *)
Definition DeleteRow (key : Z) (session_ : KuduSession)
  : outcome (option ExpectedKeyValueRow * KuduSession) :=
  row ← CHECK_OK (SetInt32 0 key (empty_row schema_));
  session_ ← CHECK_OK (Apply (mkWriteOp DELETE row) session_);
  mret (None, session_).

End RowOperations.

(** ** The value encoding rule *)

(** What the harness sets the value column to for sequence value [v]. *)
Definition encoded_column (v : Z) : ColumnWrite :=
  if Z.even v then SetTo v else SetToNull.

(** What it expects to read back. *)
Definition encoded_val (v : Z) : option Z :=
  if Z.even v then Some v else None.

Lemma low_bit_test (v : Z) : negb (Z.land v 1 =? 0) = Z.odd v.
Proof. rewrite land_1_odd. destruct (Z.odd v); reflexivity. Qed.

Lemma even_negb_odd (v : Z) : Z.even v = negb (Z.odd v).
Proof. rewrite <- Z.negb_even. destruct (Z.even v); reflexivity. Qed.

(** C5.  On the key/value schema, for a sequence value [v] (an [int]):
    [InsertOrUpsertRow], for [TEST_INSERT] and for [TEST_UPSERT], and
    [MutateRow], which receives [v] converted to [uint32_t], apply an
    operation whose value column is set to [v] when [v] is even and to NULL
    when it is odd, and return an expected row that records [v],
    respectively no value. *)
Theorem value_encoding_rule
    (key v : Z) (old_row : option ExpectedKeyValueRow) (session_ : KuduSession) :
  is_int32 v ->
  InsertOrUpsertRow KeyValueSchema key v old_row TEST_INSERT session_
  = Done (mkRow key (encoded_val v),
          session_ ++ [mkWriteOp INSERT
                         (mkPartialRow KeyValueSchema (SetTo key) (encoded_column v))])
  /\ InsertOrUpsertRow KeyValueSchema key v old_row TEST_UPSERT session_
     = Done (mkRow key (encoded_val v),
             session_ ++ [mkWriteOp UPSERT
                            (mkPartialRow KeyValueSchema (SetTo key) (encoded_column v))])
  /\ MutateRow KeyValueSchema key (to_uint32 v) session_
     = Done (mkRow key (encoded_val v),
             session_ ++ [mkWriteOp UPDATE
                            (mkPartialRow KeyValueSchema (SetTo key) (encoded_column v))]).
Proof.
  intros Hv. unfold InsertOrUpsertRow, MutateRow, encoded_val, encoded_column.
  cbn. rewrite !low_bit_test, odd_to_uint32, even_negb_odd.
  rewrite (to_int32_to_uint32 v Hv).
  destruct (Z.odd v); cbn; repeat split; reflexivity.
Qed.

Lemma value_encoding_rule_witness :
  is_int32 6
  /\ InsertOrUpsertRow KeyValueSchema 1 6 None TEST_INSERT []
     = Done (mkRow 1 (Some 6),
             [mkWriteOp INSERT (mkPartialRow KeyValueSchema (SetTo 1) (SetTo 6))])
  /\ InsertOrUpsertRow KeyValueSchema 1 6 None TEST_UPSERT []
     = Done (mkRow 1 (Some 6),
             [mkWriteOp UPSERT (mkPartialRow KeyValueSchema (SetTo 1) (SetTo 6))])
  /\ MutateRow KeyValueSchema 1 (to_uint32 6) []
     = Done (mkRow 1 (Some 6),
             [mkWriteOp UPDATE (mkPartialRow KeyValueSchema (SetTo 1) (SetTo 6))]).
Proof.
  assert (H6 : is_int32 6) by (unfold is_int32; lia).
  split; [exact H6|].
  exact (value_encoding_rule 1 6 None [] H6).
Defined.

(** An odd value, and a negative one, for illustration. *)
Example value_encoding_odd :
  MutateRow KeyValueSchema 0 (to_uint32 7) []
  = Done (mkRow 0 None,
          [mkWriteOp UPDATE (mkPartialRow KeyValueSchema (SetTo 0) SetToNull)])
  /\ MutateRow KeyValueSchema 0 (to_uint32 (-4)) []
     = Done (mkRow 0 (Some (-4)),
             [mkWriteOp UPDATE (mkPartialRow KeyValueSchema (SetTo 0) (SetTo (-4)))]).
Proof. split; reflexivity. Qed.

(** On the schema that has no value column the same calls stop at the
    [CHECK_OK] of the column setter. *)
Example value_column_missing :
  InsertOrUpsertRow PkOnlySchema 0 2 None TEST_INSERT [] = Crash CheckFailure
  /\ MutateRow PkOnlySchema 0 2 [] = Crash CheckFailure.
Proof. split; reflexivity. Qed.

(** What [InsertOrUpsertRow] does for [TEST_UPSERT_PK_ONLY], on either
    schema: an upsert that sets the key alone, and an expected row that
    keeps the old row's value, or has none when there was no old row. *)
Lemma InsertOrUpsertRow_upsert_pk_only
    (schema_ : Schema) (key v : Z) (old_row : option ExpectedKeyValueRow)
    (session_ : KuduSession) :
  InsertOrUpsertRow schema_ key v old_row TEST_UPSERT_PK_ONLY session_
  = Done (mkRow key (match old_row with
                     | Some old => KeyValue.val old
                     | None => None
                     end),
          session_ ++ [mkWriteOp UPSERT (mkPartialRow schema_ (SetTo key) Unset)]).
Proof. reflexivity. Qed.

(** ** Comparing a scan with the shadow model *)

(** The messages [CheckRowsMatchAtTimestamp] pushes, by their format. *)
Inductive CheckError : Type :=
  | FoundUnexpectedRow (found_row : ExpectedKeyValueRow)
  | DidntFindExpectedValue (expected_val : ExpectedKeyValueRow)
  | MismatchedKey (expected_val found_val : ExpectedKeyValueRow)
  | MismatchedValue (expected_val found_val : ExpectedKeyValueRow)
  | MismatchedSize (expected_values_counter rows_found_size : nat)
  | FoundErrorsAt (timestamp saved_timestamp : Z).

(** [vector<optional<ExpectedKeyValueRow>>]: the shadow table, by key. *)
Abbreviation Snapshot := (list (option ExpectedKeyValueRow)).

(** The [for (auto& expected : saved)] loop, from the entries still to
    visit: the final [expected_values_counter] and [errors]. *)
Fixpoint check_expected (rows_found : list ExpectedKeyValueRow) (saved : Snapshot)
    (found_idx expected_values_counter : nat) (errors : list CheckError)
  : nat * list CheckError :=
  match saved with
  | [] => (expected_values_counter, errors)
  | None :: saved' =>
      check_expected rows_found saved' found_idx expected_values_counter errors
  | Some expected_val :: saved' =>
      let expected_values_counter := S expected_values_counter in
      match rows_found !! found_idx with
      | None =>
          (* found_idx >= rows_found.size(): break *)
          (expected_values_counter, errors ++ [DidntFindExpectedValue expected_val])
      | Some found_val =>
          let found_idx := S found_idx in
          if negb (key expected_val =? key found_val) then
            check_expected rows_found saved' found_idx expected_values_counter
              (errors ++ [MismatchedKey expected_val found_val])
          else if negb (bool_decide (KeyValue.val expected_val = KeyValue.val found_val)) then
            check_expected rows_found saved' found_idx expected_values_counter
              (errors ++ [MismatchedValue expected_val found_val])
          else
            check_expected rows_found saved' found_idx expected_values_counter errors
      end
  end.

(** [FuzzTest::CheckRowsMatchAtTimestamp]: the list [errors] points to
    when the function returns. *)
Definition CheckRowsMatchAtTimestamp (saved_values_ : SavedValues.t Snapshot)
    (timestamp : Z) (rows_found : list ExpectedKeyValueRow)
    (errors : list CheckError) : list CheckError :=
  let saved_timestamp := -1 in
  let '(saved_timestamp, errors) :=
    match SavedValues.upper_bound timestamp saved_values_ with
    | None => (saved_timestamp, errors ++ map FoundUnexpectedRow rows_found)
    | Some (iter_first, saved) =>
        let '(expected_values_counter, errors) :=
          check_expected rows_found saved 0 0 errors in
        if negb (length rows_found =? expected_values_counter)%nat then
          (iter_first,
           errors
           ++ [MismatchedSize expected_values_counter (length rows_found)]
           ++ map FoundUnexpectedRow rows_found)
        else (iter_first, errors)
    end in
  match errors with
  | [] => []
  | _ :: _ => FoundErrorsAt timestamp saved_timestamp :: errors
  end.

(** The rows a snapshot expects: its entries that are not deleted, in the
    order of the vector. *)
Definition expected_rows (saved : Snapshot) : list ExpectedKeyValueRow :=
  omap id saved.

Lemma row_eq (a b : ExpectedKeyValueRow) :
  key a = key b -> KeyValue.val a = KeyValue.val b -> a = b.
Proof. destruct a, b; cbn; intros -> ->; reflexivity. Qed.

Lemma check_expected_spec rows_found saved idx errors :
  (idx <= length rows_found)%nat ->
  let '(counter, errors') := check_expected rows_found saved idx idx errors in
  (errors' = [] /\ length rows_found = counter)
  <-> (errors = [] /\ drop idx rows_found = expected_rows saved).
Proof.
  unfold expected_rows.
  revert idx errors. induction saved as [|[e|] saved IH]; intros idx errors Hidx; cbn.
  - split; intros [-> H]; (split; [reflexivity|]).
    + apply drop_ge. lia.
    + apply (f_equal length) in H. rewrite length_drop in H. cbn in H. lia.
  - destruct (rows_found !! idx) as [f|] eqn:Hf.
    + assert (Hlt : (idx < length rows_found)%nat) by (eapply lookup_lt_Some; exact Hf).
      rewrite (drop_S _ _ _ Hf).
      destruct (Z.eqb_spec (key e) (key f)) as [Hk|Hk]; cbn.
      * destruct (bool_decide_reflect (KeyValue.val e = KeyValue.val f)) as [Hv|Hv]; cbn.
        -- specialize (IH (S idx) errors ltac:(lia)).
           destruct (check_expected _ _ _ _ _) as [c er]. rewrite IH.
           rewrite (row_eq e f Hk Hv).
           split; intros [-> H]; (split; [reflexivity|]); congruence.
        -- specialize (IH (S idx) (errors ++ [MismatchedValue e f]) ltac:(lia)).
           destruct (check_expected _ _ _ _ _) as [c er]. rewrite IH.
           split; [intros [H _]; destruct errors; discriminate H|].
           intros [_ [= -> _]]. contradiction Hv; reflexivity.
      * specialize (IH (S idx) (errors ++ [MismatchedKey e f]) ltac:(lia)).
        destruct (check_expected _ _ _ _ _) as [c er]. rewrite IH.
        split; [intros [H _]; destruct errors; discriminate H|].
        intros [_ [= -> _]]. contradiction Hk; reflexivity.
    + apply lookup_ge_None in Hf. rewrite drop_ge by lia.
      split; [intros [H _]; destruct errors; discriminate H|].
      intros [_ H]. discriminate H.
  - apply IH. exact Hidx.
Qed.

(** With no error on entry, [CheckRowsMatchAtTimestamp] leaves [errors]
    empty exactly when the rows found are the expected rows of the entry
    [upper_bound] selects, or no rows when it selects none. *)
Lemma CheckRowsMatchAtTimestamp_empty saved_values_ timestamp rows_found :
  CheckRowsMatchAtTimestamp saved_values_ timestamp rows_found [] = []
  <-> rows_found
      = match SavedValues.upper_bound timestamp saved_values_ with
        | Some (_, saved) => expected_rows saved
        | None => []
        end.
Proof.
  unfold CheckRowsMatchAtTimestamp.
  destruct (SavedValues.upper_bound timestamp saved_values_) as [[ts saved]|].
  - pose proof (check_expected_spec rows_found saved 0 [] ltac:(lia)) as Hs.
    destruct (check_expected rows_found saved 0 0 []) as [c er].
    rewrite drop_0 in Hs.
    destruct (Nat.eqb_spec (length rows_found) c) as [Hc|Hc]; cbn.
    + destruct er as [|x er].
      * split; [intros _|reflexivity]. apply Hs. split; [reflexivity | exact Hc].
      * split; [discriminate|]. intros H.
        destruct (proj2 Hs (conj eq_refl H)) as [[=] _].
    + split.
      * destruct er; discriminate.
      * intros H. destruct (proj2 Hs (conj eq_refl H)) as [_ Hc']. contradiction.
  - cbn. destruct rows_found; cbn; split; intros H; try reflexivity; discriminate H.
Qed.

(** An error present on entry is still there on return. *)
Lemma check_expected_errors rows_found saved idx counter errors :
  exists more,
    snd (check_expected rows_found saved idx counter errors) = errors ++ more.
Proof.
  revert idx counter errors.
  induction saved as [|[e|] saved IH]; intros idx counter errors; cbn.
  - exists []. rewrite app_nil_r. reflexivity.
  - destruct (rows_found !! idx) as [f|]; [|eexists; reflexivity].
    destruct (negb (key e =? key f)).
    + destruct (IH (S idx) (S counter) (errors ++ [MismatchedKey e f])) as [m ->].
      rewrite <- app_assoc. eexists; reflexivity.
    + destruct (negb (bool_decide _)).
      * destruct (IH (S idx) (S counter) (errors ++ [MismatchedValue e f])) as [m ->].
        rewrite <- app_assoc. eexists; reflexivity.
      * apply IH.
  - apply IH.
Qed.

Lemma CheckRowsMatchAtTimestamp_keeps_errors saved_values_ timestamp rows_found errors :
  errors <> [] ->
  CheckRowsMatchAtTimestamp saved_values_ timestamp rows_found errors <> [].
Proof.
  intros Hne. unfold CheckRowsMatchAtTimestamp.
  destruct (SavedValues.upper_bound timestamp saved_values_) as [[ts saved]|].
  - destruct (check_expected_errors rows_found saved 0 0 errors) as [m Hm].
    destruct (check_expected rows_found saved 0 0 errors) as [c er]. cbn in Hm. subst er.
    destruct (negb _); destruct errors; try contradiction; cbn; discriminate.
  - destruct errors; [contradiction|]. cbn. discriminate.
Qed.


(** Two snapshots, saved at 2 and at 5: a scan at 4 is compared with the
    one saved at 2, and a scan at 2 must find nothing. *)
Definition saved_at_2_and_5 : SavedValues.t Snapshot :=
  [(5, [Some (mkRow 0 None); Some (mkRow 1 (Some 4))]);
   (2, [None; Some (mkRow 1 (Some 4))])].

(** Comparisons against these snapshots, run. *)
Example CheckRowsMatchAtTimestamp_runs :
  CheckRowsMatchAtTimestamp saved_at_2_and_5 4 [mkRow 1 (Some 4)] [] = []
  /\ CheckRowsMatchAtTimestamp saved_at_2_and_5 2 [] [] = []
  /\ CheckRowsMatchAtTimestamp saved_at_2_and_5 2 [mkRow 1 (Some 4)] []
     = [FoundErrorsAt 2 (-1); FoundUnexpectedRow (mkRow 1 (Some 4))]
  /\ CheckRowsMatchAtTimestamp saved_at_2_and_5 5 [mkRow 0 None; mkRow 1 (Some 4)] []
     = [FoundErrorsAt 5 2; MismatchedKey (mkRow 1 (Some 4)) (mkRow 0 None);
        MismatchedSize 1 2;
        FoundUnexpectedRow (mkRow 0 None); FoundUnexpectedRow (mkRow 1 (Some 4))].
Proof. repeat split; reflexivity. Qed.

(** X11.  What [CheckRowsMatchAtTimestamp] leaves in [errors], whatever
    [errors] holds on entry: nothing, exactly when [errors] was empty and
    the rows found are the expected rows of the snapshot selected; else a
    first message that names the timestamp of the scan and the timestamp
    of the snapshot selected (-1 when there is none), then the messages
    [errors] held on entry, in their order, then the messages of this
    comparison.  No message is ever dropped. *)
Theorem CheckRowsMatchAtTimestamp_report
    (saved_values_ : SavedValues.t Snapshot) (timestamp : Z)
    (rows_found : list ExpectedKeyValueRow) (errors : list CheckError) :
  (CheckRowsMatchAtTimestamp saved_values_ timestamp rows_found errors = []
   <-> errors = []
       /\ rows_found
          = match SavedValues.upper_bound timestamp saved_values_ with
            | Some (_, saved) => expected_rows saved
            | None => []
            end)
  /\ (CheckRowsMatchAtTimestamp saved_values_ timestamp rows_found errors <> [] ->
      exists more,
        CheckRowsMatchAtTimestamp saved_values_ timestamp rows_found errors
        = FoundErrorsAt timestamp
            (match SavedValues.upper_bound timestamp saved_values_ with
             | Some (saved_timestamp, _) => saved_timestamp
             | None => -1
             end)
          :: errors ++ more).
Proof.
  split.
  - destruct errors as [|e errors].
    + rewrite CheckRowsMatchAtTimestamp_empty. split; [intros H; split; [reflexivity|exact H]|].
      intros [_ H]. exact H.
    + split; [|intros [[=] _]]. intros H. exfalso.
      apply (CheckRowsMatchAtTimestamp_keeps_errors saved_values_ timestamp rows_found
               (e :: errors)); [discriminate | exact H].
  - unfold CheckRowsMatchAtTimestamp.
    destruct (SavedValues.upper_bound timestamp saved_values_) as [[ts saved]|].
    + destruct (check_expected_errors rows_found saved 0 0 errors) as [m Hm].
      destruct (check_expected rows_found saved 0 0 errors) as [c er].
      cbn [snd] in Hm. subst er.
      destruct (negb (length rows_found =? c)%nat).
      * intros _. rewrite <- app_assoc.
        exists (m ++ [MismatchedSize c (length rows_found)]
                  ++ map FoundUnexpectedRow rows_found).
        destruct (errors ++ m ++ _) eqn:He; [|reflexivity].
        destruct errors, m; discriminate He.
      * intros Hne. exists m.
        destruct (errors ++ m) eqn:He; [contradiction | reflexivity].
    + intros Hne. exists (map FoundUnexpectedRow rows_found).
      destruct (errors ++ map FoundUnexpectedRow rows_found) eqn:He;
        [contradiction | reflexivity].
Qed.

(** ** Reading the tablet *)

(** The row the harness builds from a scanned one:
    [row.GetInt32(0, &ret.key)], and the value when the schema has a second
    column and the row's is not NULL. *)
Definition read_row (schema_ : Schema) (row : RowResult) : ExpectedKeyValueRow :=
  mkRow (result_key row)
        (if (1 <? num_columns schema_)%nat then result_val row else None).

(** The fixture's members the test body uses, the locals of [RunFuzzCase],
    and the failures [EXPECT_EQ] has recorded (the key read, the expected
    and the actual row). *)
Record FuzzTest (T : Type) : Type := mkFuzzTest {
  cluster_ : T;
  session_ : KuduSession;
  saved_values_ : SavedValues.t Snapshot;
  cur_val : Snapshot;
  pending_val : Snapshot;
  i : Z;
  expect_failures : list (Z * option ExpectedKeyValueRow * option ExpectedKeyValueRow);
}.

Arguments mkFuzzTest {T}.
Arguments cluster_ {T}.
Arguments session_ {T}.
Arguments saved_values_ {T}.
Arguments cur_val {T}.
Arguments pending_val {T}.
Arguments i {T}.
Arguments expect_failures {T}.

Section Fixture.

Context {T : Type} `{TabletServer T}.

(** [FLAGS_keyspace_size] and [schema_]. *)
Variable keyspace_size : Z.
Variable schema_ : Schema.

Definition set_cluster (c : T) (t : FuzzTest T) : FuzzTest T :=
  mkFuzzTest c (session_ t) (saved_values_ t) (cur_val t) (pending_val t) (i t)
    (expect_failures t).

Definition set_session (s : KuduSession) (t : FuzzTest T) : FuzzTest T :=
  mkFuzzTest (cluster_ t) s (saved_values_ t) (cur_val t) (pending_val t) (i t)
    (expect_failures t).

Definition set_saved_values (m : SavedValues.t Snapshot) (t : FuzzTest T) : FuzzTest T :=
  mkFuzzTest (cluster_ t) (session_ t) m (cur_val t) (pending_val t) (i t)
    (expect_failures t).

Definition set_cur_val (v : Snapshot) (t : FuzzTest T) : FuzzTest T :=
  mkFuzzTest (cluster_ t) (session_ t) (saved_values_ t) v (pending_val t) (i t)
    (expect_failures t).

Definition set_pending_val (v : Snapshot) (t : FuzzTest T) : FuzzTest T :=
  mkFuzzTest (cluster_ t) (session_ t) (saved_values_ t) (cur_val t) v (i t)
    (expect_failures t).

Definition set_i (n : Z) (t : FuzzTest T) : FuzzTest T :=
  mkFuzzTest (cluster_ t) (session_ t) (saved_values_ t) (cur_val t) (pending_val t) n
    (expect_failures t).

Definition add_expect_failure
    (f : Z * option ExpectedKeyValueRow * option ExpectedKeyValueRow)
    (t : FuzzTest T) : FuzzTest T :=
  mkFuzzTest (cluster_ t) (session_ t) (saved_values_ t) (cur_val t) (pending_val t)
    (i t) (expect_failures t ++ [f]).

(** [v[k]] for a vector of optional rows and an [int] index. *)
Definition at_key (v : Snapshot) (k : Z) : option ExpectedKeyValueRow :=
  default None (v !! Z.to_nat k).

(** [FuzzTest::GetRow]: the first row of a scan with the predicate
    [key = key], and the server after the scan. *)
Definition GetRow (key : Z) (server : T) : option ExpectedKeyValueRow * T :=
  let '(rows, server) := Scan (mkScanSpec READ_LATEST UNORDERED (Some key)) server in
  (match rows with
   | row :: _ => Some (read_row schema_ row)
   | [] => None
   end, server).

(** [FuzzTest::CheckScanAtTimestamp]: the errors of the comparison (the
    test fails when there are any), and the server after the scan. *)
Definition CheckScanAtTimestamp (timestamp : Z) (t : FuzzTest T)
  : list CheckError * T :=
  let '(rows, server) :=
    Scan (mkScanSpec (READ_AT_SNAPSHOT timestamp) ORDERED None) (cluster_ t) in
  let found := map (read_row schema_) rows in
  (CheckRowsMatchAtTimestamp (saved_values_ t) timestamp found [], server).

(** [FlushSessionOrDie(session_)] *)
Definition FlushSessionOrDie (t : FuzzTest T) : outcome (FuzzTest T) :=
  let '(statuses, server) := Write (session_ t) (cluster_ t) in
  if forallb ok statuses
  then Done (set_session [] (set_cluster server t))
  else Crash CheckFailure.

(** The [for (int j = 0; j < update_multiplier; j++)] loop of
    [TEST_UPDATE], with the turns still to run. *)
Fixpoint update_loop (turns : nat) (key : Z) (t : FuzzTest T)
  : outcome (FuzzTest T) :=
  match turns with
  | O => Done t
  | S turns' =>
      '(row, session) ← MutateRow schema_ key (to_uint32 (i t)) (session_ t);
      let t := set_i (i t + 1) t in
      let t := set_session session t in
      let t := set_pending_val (<[Z.to_nat key := Some row]> (pending_val t)) t in
      update_loop turns' key t
  end.

(** The [switch] of [RunFuzzCase]'s loop. *)
Definition RunFuzzCase_switch (update_multiplier : Z) (test_op : TestOp)
    (t : FuzzTest T) : outcome (FuzzTest T) :=
  let k := Fuzz.val test_op in
  match type test_op with
  | TEST_INSERT | TEST_INSERT_PK_ONLY | TEST_UPSERT | TEST_UPSERT_PK_ONLY =>
      '(row, session) ←
        InsertOrUpsertRow schema_ k (i t) (at_key (pending_val t) k) (type test_op)
          (session_ t);
      let t := set_i (i t + 1) t in
      let t := set_session session t in
      mret (set_pending_val (<[Z.to_nat k := Some row]> (pending_val t)) t)
  | TEST_UPDATE => update_loop (Z.to_nat update_multiplier) k t
  | TEST_DELETE =>
      '(row, session) ← DeleteRow schema_ k (session_ t);
      let t := set_session session t in
      mret (set_pending_val (<[Z.to_nat k := row]> (pending_val t)) t)
  | TEST_FLUSH_OPS =>
      t ← FlushSessionOrDie t;
      let t := set_cur_val (pending_val t) t in
      let current_time := to_int32 (GetCurrentTime (cluster_ t)) in
      mret (set_saved_values
              (SavedValues.assign current_time (cur_val t) (saved_values_ t)) t)
  | TEST_FLUSH_TABLET =>
      server ← ASSERT_OK (Flush (cluster_ t)); mret (set_cluster server t)
  | TEST_FLUSH_DELTAS =>
      server ← ASSERT_OK (FlushBiggestDMS (cluster_ t)); mret (set_cluster server t)
  | TEST_MAJOR_COMPACT_DELTAS =>
      server ← ASSERT_OK (CompactWorstDeltas MAJOR_DELTA_COMPACTION (cluster_ t));
      mret (set_cluster server t)
  | TEST_MINOR_COMPACT_DELTAS =>
      server ← ASSERT_OK (CompactWorstDeltas MINOR_DELTA_COMPACTION (cluster_ t));
      mret (set_cluster server t)
  | TEST_COMPACT_TABLET =>
      server ← ASSERT_OK (Compact (cluster_ t)); mret (set_cluster server t)
  | TEST_RESTART_TS =>
      server ← ASSERT_OK (RestartServer (cluster_ t)); mret (set_cluster server t)
  | TEST_SCAN_AT_TIMESTAMP =>
      let '(errors, server) := CheckScanAtTimestamp k t in
      match errors with
      | [] => mret (set_cluster server t)
      | _ :: _ => Crash FatalTestFailure
      end
  | TEST_NUM_OP_TYPES => Crash CheckFailure
  end.

(** The part of a turn that cannot stop the run: for a mutation,
    [EXPECT_EQ(cur_val[test_op.val], GetRow(test_op.val))]. *)
Definition RunFuzzCase_expect (test_op : TestOp) (t : FuzzTest T) : FuzzTest T :=
  if IsMutation (type test_op) then
    let k := Fuzz.val test_op in
    let '(actual, server) := GetRow k (cluster_ t) in
    let t := set_cluster server t in
    if bool_decide (at_key (cur_val t) k = actual) then t
    else add_expect_failure (k, at_key (cur_val t) k, actual) t
  else t.

(** The [for (const TestOp& test_op : test_ops)] loop: the fixture when the
    loop was left, and what stopped it if it did not reach the end. *)
Fixpoint RunFuzzCase_loop (update_multiplier : Z) (test_ops : list TestOp)
    (t : FuzzTest T) : FuzzTest T * option failure :=
  match test_ops with
  | [] => (t, None)
  | test_op :: rest =>
      let t := RunFuzzCase_expect test_op t in
      match RunFuzzCase_switch update_multiplier test_op t with
      | Done t' => RunFuzzCase_loop update_multiplier rest t'
      | Crash f => (t, Some f)
      | OutOfFuel => (t, None)
      end
  end.

(** The fixture on entry to the loop, for a tablet server [server] just
    started by [CreateTabletAndStartClusterWithSchema]. *)
Definition RunFuzzCase_init (server : T) : FuzzTest T :=
  mkFuzzTest server [] []
    (replicate (Z.to_nat keyspace_size) None)
    (replicate (Z.to_nat keyspace_size) None)
    0 [].

(** [void FuzzTest::RunFuzzCase(const vector<TestOp>& test_ops,
    int update_multiplier)].  After the validation,
    [vector<optional<ExpectedKeyValueRow>> cur_val(FLAGS_keyspace_size)]:
    a negative flag converts to a [size_t] above [max_size()], and the
    constructor throws. *)
Definition RunFuzzCase (test_ops : list TestOp) (update_multiplier : Z) (server : T)
  : FuzzTest T * option failure :=
  match ValidateFuzzCase keyspace_size test_ops with
  | Done _ =>
      if keyspace_size <? 0 then (RunFuzzCase_init server, Some BadAlloc)
      else RunFuzzCase_loop update_multiplier test_ops (RunFuzzCase_init server)
  | Crash f => (RunFuzzCase_init server, Some f)
  | OutOfFuel => (RunFuzzCase_init server, None)
  end.

End Fixture.

End Harness.

(* ===================================================================== *)
(** * The table a tablet shows *)
(* ===================================================================== *)

(** Modelled from the spec: what a tablet must show of its rows, whatever
    its layers hold, as the round-trip laws of section 8 and the contracts
    of section 4.3 give it: "Insert(k,v); Scan(latest) => k present with
    v", "Insert ... fails if a live row exists", "Upsert(k,v2) on existing
    (k,v1) => equivalent to Update(k,v2)", "Upsert-PK-only(k) on existing
    (k,v) => value unchanged; on absent k => inserted with null values",
    "Mutate ... ok | NotFound". *)
Module Logical.

Import Client.

(** The live rows by key: [None] for no live row, else the value column
    ([None] when NULL). *)
Definition Table : Type := Z -> option (option Z).

Definition empty_table : Table := fun _ => None.

Definition table_set (k : Z) (row : option (option Z)) (tbl : Table) : Table :=
  fun k' => if k' =? k then row else tbl k'.

(** What an operation of the given type and column set does to the row
    for its key: the error it meets, or the row afterwards. *)
Definition row_write (type : WriteType) (colset : option (option Z))
    (row : option (option Z)) : Status + option (option Z) :=
  match type, row with
  | INSERT, Some _ => inl AlreadyPresent
  | INSERT, None => inr (Some (default None colset))
  | UPSERT, Some c => inr (Some (default c colset))
  | UPSERT, None => inr (Some (default None colset))
  | UPDATE, Some c => inr (Some (default c colset))
  | UPDATE, None => inl NotFound
  | DELETE, Some _ => inr None
  | DELETE, None => inl NotFound
  end.

(** A row operation applied to the table, with its status. *)
Definition logical_write (op : KuduWriteOperation) (tbl : Table) : Status * Table :=
  match key_column (write_row op) with
  | SetTo k =>
      match row_write (write_type op) (colset_of (val_column (write_row op))) (tbl k) with
      | inl err => (err, tbl)
      | inr row => (OK, table_set k row tbl)
      end
  | _ => (InvalidArgument, tbl)
  end.

(** A batch: the operations in order, one status each. *)
Fixpoint logical_batch (ops : KuduSession) (tbl : Table) : list Status * Table :=
  match ops with
  | [] => ([], tbl)
  | op :: rest =>
      let '(st, tbl) := logical_write op tbl in
      let '(sts, tbl) := logical_batch rest tbl in
      (st :: sts, tbl)
  end.

(** ** Batches, operation by operation *)

Lemma row_write_err type colset row err :
  row_write type colset row = inl err -> ok err = false.
Proof. destruct type, row; cbn; intros [= <-]; reflexivity. Qed.

Lemma logical_batch_snoc ops op tbl :
  logical_batch (ops ++ [op]) tbl
  = (fst (logical_batch ops tbl) ++ [fst (logical_write op (snd (logical_batch ops tbl)))],
     snd (logical_write op (snd (logical_batch ops tbl)))).
Proof.
  revert tbl. induction ops as [|o ops IH]; intros tbl; cbn [app logical_batch fst snd].
  - destruct (logical_write op tbl); reflexivity.
  - destruct (logical_write o tbl) as [st tbl1]. rewrite IH.
    destruct (logical_batch ops tbl1) as [sts tbl2]. reflexivity.
Qed.

Lemma logical_write_ext op tbl tbl' :
  (forall k, tbl k = tbl' k) ->
  fst (logical_write op tbl) = fst (logical_write op tbl')
  /\ forall k, snd (logical_write op tbl) k = snd (logical_write op tbl') k.
Proof.
  intros Heq. unfold logical_write.
  destruct (key_column (write_row op)) as [| |pk]; [easy | easy |].
  rewrite (Heq pk). destruct (row_write _ _ _) as [err|row]; [easy|].
  split; [reflexivity|]. intros k. cbn. unfold table_set.
  destruct (k =? pk); [reflexivity | apply Heq].
Qed.

Lemma logical_batch_ext ops tbl tbl' :
  (forall k, tbl k = tbl' k) ->
  fst (logical_batch ops tbl) = fst (logical_batch ops tbl')
  /\ forall k, snd (logical_batch ops tbl) k = snd (logical_batch ops tbl') k.
Proof.
  revert tbl tbl'. induction ops as [|op ops IH]; intros tbl tbl' Heq; [easy|].
  cbn [logical_batch].
  destruct (logical_write_ext op tbl tbl' Heq) as [Hst Htb].
  destruct (logical_write op tbl) as [st1 tbl1], (logical_write op tbl') as [st2 tbl2].
  cbn [fst snd] in *. destruct (IH tbl1 tbl2 Htb) as [Hsts Htbs].
  destruct (logical_batch ops tbl1), (logical_batch ops tbl2). cbn [fst snd] in *.
  split; [congruence | exact Htbs].
Qed.

(** A call that succeeds and changes nothing a latest read shows. *)
Definition neutral {T : Type} (ok : T -> Prop) (table : T -> Table)
    (call : T -> Status * T) : Prop :=
  forall t, ok t ->
    fst (call t) = OK /\ ok (snd (call t))
    /\ forall k, table (snd (call t)) k = table t k.

(** A tablet server that shows a table: the servers it can be in
    ([server_ok]), the table each shows, and how its calls act on it. *)
Class ShowsTable (T : Type) `{TabletServer T} : Type := {
  server_ok : T -> Prop;
  table : T -> Table;
  scan_table : forall spec t, server_ok t ->
    server_ok (snd (Scan spec t)) /\ forall k, table (snd (Scan spec t)) k = table t k;
  scan_key : forall order k t, server_ok t ->
    fst (Scan (mkScanSpec READ_LATEST order (Some k)) t)
    = match table t k with
      | Some c => [mkRowResult k c]
      | None => []
      end;
  write_table : forall session t, server_ok t ->
    fst (Write session t) = fst (logical_batch session (table t))
    /\ server_ok (snd (Write session t))
    /\ forall k, table (snd (Write session t)) k
                 = snd (logical_batch session (table t)) k;
  flush_neutral : neutral server_ok table Flush;
  flush_dms_neutral : neutral server_ok table FlushBiggestDMS;
  compact_deltas_neutral : forall type, neutral server_ok table (CompactWorstDeltas type);
  compact_neutral : neutral server_ok table Compact;
  restart_neutral : neutral server_ok table RestartServer;
}.

End Logical.

(* ===================================================================== *)
(** * The tablet: a model of the storage engine *)
(* ===================================================================== *)

(** Modelled from the spec: the storage engine ([Tablet], [MemRowSet],
    [DiskRowSet], [DeltaMemStore], the flushes and compactions, the logical
    clock, the write-ahead log) is not among the sources; the harness only
    calls it.  The definitions below follow sections 3 and 4 of the
    specification for a single tablet driven by one thread, with the key
    column and one nullable value column of the test schemas. *)
Module Tablet.

Import Client.

Abbreviation Timestamp := Z.

(** The value column of a row: [None] is NULL. *)
Abbreviation Cell := (option Z).

(** A row at some instant: [None] when it is tombstoned (or not yet
    inserted), its value column when it is live. *)
Abbreviation RowState := (option (option Z)).

(** Modelled from the spec: section 3, "Mutation.  One of: INSERT,
    UPDATE(colset), DELETE, REINSERT(colset)".  A column set over the one
    value column is either empty ([None]: the empty changelist) or gives
    the new value. *)
Inductive Mutation : Type :=
  | Insert (cols : Cell)
  | Update (colset : option Cell)
  | Delete
  | Reinsert (colset : option Cell).

#[export] Instance Mutation_eq_dec : EqDecision Mutation.
Proof. solve_decision. Defined.

(** The row image a column set stands for: columns it leaves out are NULL. *)
Definition row_of_colset (colset : option Cell) : Cell := default None colset.

(** A mutation applied to a row. *)
Definition apply_mutation (m : Mutation) (s : RowState) : RowState :=
  match m with
  | Insert cols => Some cols
  | Update None => s
  | Update (Some c) => match s with Some _ => Some c | None => None end
  | Delete => None
  | Reinsert colset => Some (row_of_colset colset)
  end.

(** A mutation with its commit timestamp. *)
Abbreviation Stamped := (Z * Mutation)%type.

(** Mutations applied in the order of the list. *)
Definition apply_chain (chain : list Stamped) (s : RowState) : RowState :=
  fold_left (fun s tm => apply_mutation (snd tm) s) chain s.

(** The reverse-diff of [m] applied to a row in state [before]: the
    mutation that takes the row back to [before]. *)
Definition invert (m : Mutation) (before : RowState) : Mutation :=
  match before with
  | None => Delete
  | Some c =>
      match m with
      | Delete => Reinsert (Some c)
      | Update None => Update None
      | _ => Update (Some c)
      end
  end.

(** The reverse-diffs of a chain applied from state [s], oldest first. *)
Fixpoint invert_chain (s : RowState) (chain : list Stamped) : list Stamped :=
  match chain with
  | [] => []
  | (ts, m) :: rest => (ts, invert m s) :: invert_chain (apply_mutation m s) rest
  end.

(** What a read sees.  Modelled from the spec: a snapshot read at [T] sees
    the mutations with [ts <= T] (sections 4.3 and 4.5); a [latest] read
    sees every committed mutation. *)
Definition visible (mode : ReadMode) (ts : Timestamp) : bool :=
  match mode with
  | READ_LATEST => true
  | READ_AT_SNAPSHOT T => ts <=? T
  end.

Definition visible_at (mode : ReadMode) (tm : Stamped) : bool := visible mode (fst tm).

Definition hidden_at (mode : ReadMode) (tm : Stamped) : bool :=
  negb (visible mode (fst tm)).

(** ** Rows and their history *)

(** A row with its history around a base image: the reverse-diffs that
    lead back from the base (newest first) and the mutations that lead
    forward from it (oldest first). *)
Record RowHistory : Type := mkHistory {
  h_pk : Z;
  h_base_ts : Timestamp;
  h_base : RowState;
  h_undo : list Stamped;
  h_redo : list Stamped;
}.

(** Modelled from the spec: section 4.5, "Point read at T", steps 3 and 4:
    "If T >= base_ts, apply all redo entries for that ordinal with ts <= T
    in ascending order.  Else apply all undo entries with ts > T in
    descending order." *)
Definition history_state (mode : ReadMode) (h : RowHistory) : RowState :=
  if visible mode (h_base_ts h)
  then apply_chain (List.filter (visible_at mode) (h_redo h)) (h_base h)
  else apply_chain (List.filter (hidden_at mode) (h_undo h)) (h_base h).

(** ** MemRowSet *)

(** Modelled from the spec: section 3, "MemRowSet entry.  (pk, value-cols,
    insert_ts, redo_head)". *)
Record MRSEntry : Type := mkMRSEntry {
  m_pk : Z;
  m_cols : Cell;
  m_insert_ts : Timestamp;
  m_redo : list Stamped;
}.

(** The rows of a MemRowSet, in key order. *)
Definition MemRowSet : Type := list MRSEntry.

(** An entry seen as a history: before its insertion the row is absent. *)
Definition mrs_history (e : MRSEntry) : RowHistory :=
  mkHistory (m_pk e) (m_insert_ts e) (Some (m_cols e))
    [(m_insert_ts e, Delete)] (m_redo e).

(** Insertion of a new entry at its place in key order. *)
Fixpoint mrs_add (e : MRSEntry) (mrs : MemRowSet) : MemRowSet :=
  match mrs with
  | [] => [e]
  | e' :: rest =>
      if m_pk e <? m_pk e' then e :: e' :: rest else e' :: mrs_add e rest
  end.

(** Appending a mutation to the redo chain of the entry for [pk]. *)
Fixpoint mrs_append (pk : Z) (tm : Stamped) (mrs : MemRowSet) : MemRowSet :=
  match mrs with
  | [] => []
  | e :: rest =>
      if m_pk e =? pk
      then mkMRSEntry (m_pk e) (m_cols e) (m_insert_ts e) (m_redo e ++ [tm]) :: rest
      else e :: mrs_append pk tm rest
  end.

Definition mrs_find (pk : Z) (mrs : MemRowSet) : option MRSEntry :=
  find (fun e => m_pk e =? pk) mrs.

(** ** DiskRowSet and DeltaMemStore *)

(** A row of the base image, "tagged with a base_ts" (section 3). *)
Record BaseRow : Type := mkBaseRow {
  b_pk : Z;
  b_ts : Timestamp;
  b_state : RowState;
}.

(** A delta: "Deltas reference rows by ordinal, never by key". *)
Record Delta : Type := mkDelta {
  d_ord : nat;
  d_ts : Timestamp;
  d_mut : Mutation;
}.

(** Modelled from the spec: section 3, "DiskRowSet.  Immutable triple
    (base_data, undo_file, redo_files[])", with the DeltaMemStore attached
    to it (section 4.4); every file is a stream of deltas. *)
Record DiskRowSet : Type := mkDiskRowSet {
  base_data : list BaseRow;
  undo_file : list Delta;
  redo_files : list (list Delta);
  dms : list Delta;
}.

(** The deltas of a stream that reference ordinal [ord], in stream order. *)
Definition deltas_of (ord : nat) (stream : list Delta) : list Stamped :=
  map (fun d => (d_ts d, d_mut d)) (List.filter (fun d => Nat.eqb (d_ord d) ord) stream).

(** All the redo deltas of a row set: its files, oldest first, then its
    DeltaMemStore. *)
Definition redo_stream (drs : DiskRowSet) : list Delta :=
  concat (redo_files drs) ++ dms drs.

(** The row at ordinal [ord] with its history. *)
Definition drs_history (drs : DiskRowSet) (ord : nat) (b : BaseRow) : RowHistory :=
  mkHistory (b_pk b) (b_ts b) (b_state b)
    (deltas_of ord (undo_file drs)) (deltas_of ord (redo_stream drs)).

(** "a primary-key index ... mapping encoded PK -> row ordinal" *)
Fixpoint pk_index_from (ord : nat) (pk : Z) (base : list BaseRow)
  : option (nat * BaseRow) :=
  match base with
  | [] => None
  | b :: rest => if b_pk b =? pk then Some (ord, b) else pk_index_from (S ord) pk rest
  end.

Definition pk_index (drs : DiskRowSet) (pk : Z) : option (nat * BaseRow) :=
  pk_index_from 0 pk (base_data drs).

(** Modelled from the spec: section 4.4, the DeltaMemStore is "ordered by
    (row_ordinal, ts)"; a new delta carries the newest timestamp, so it
    goes behind the deltas of its ordinal and of smaller ones.  The walk
    starts at the back. *)
Fixpoint dms_add_rev (d : Delta) (rev_dms : list Delta) : list Delta :=
  match rev_dms with
  | [] => [d]
  | d' :: rest =>
      if (d_ord d <? d_ord d')%nat then d' :: dms_add_rev d rest else d :: d' :: rest
  end.

Definition dms_add (d : Delta) (dms : list Delta) : list Delta :=
  rev (dms_add_rev d (rev dms)).

(** A stream of deltas for the chains of consecutive ordinals, from
    ordinal [ord] on: sorted by ordinal, each chain in its own order. *)
Fixpoint emit_from (ord : nat) (chains : list (list Stamped)) : list Delta :=
  match chains with
  | [] => []
  | chain :: rest =>
      map (fun tm => mkDelta ord (fst tm) (snd tm)) chain ++ emit_from (S ord) rest
  end.

(** The histories of the rows of a row set, by ordinal. *)
Fixpoint drs_histories_from (drs : DiskRowSet) (ord : nat) (base : list BaseRow)
  : list RowHistory :=
  match base with
  | [] => []
  | b :: rest => drs_history drs ord b :: drs_histories_from drs (S ord) rest
  end.

Definition drs_histories (drs : DiskRowSet) : list RowHistory :=
  drs_histories_from drs 0 (base_data drs).

(** ** The stores of a tablet *)

Record Stores : Type := mkStores {
  mrs : MemRowSet;
  drss : list DiskRowSet;
}.

Definition empty_stores : Stores := mkStores [] [].

(** Where the row for a key is kept. *)
Inductive Location : Type :=
  | InMRS (e : MRSEntry)
  | InDRS (idx : nat) (ord : nat) (b : BaseRow)
  | Nowhere.

Fixpoint locate_drs_from (idx : nat) (pk : Z) (l : list DiskRowSet) : Location :=
  match l with
  | [] => Nowhere
  | drs :: rest =>
      match pk_index drs pk with
      | Some (ord, b) => InDRS idx ord b
      | None => locate_drs_from (S idx) pk rest
      end
  end.

Definition locate (pk : Z) (s : Stores) : Location :=
  match mrs_find pk (mrs s) with
  | Some e => InMRS e
  | None => locate_drs_from 0 pk (drss s)
  end.

(** Modelled from the spec: section 4.5, "Point read at T": look the key
    up, materialise the row as of the read point, "if the result is a
    tombstone, return miss". *)
Definition point_read (mode : ReadMode) (pk : Z) (s : Stores) : RowState :=
  match locate pk s with
  | InMRS e => history_state mode (mrs_history e)
  | InDRS idx ord b =>
      match drss s !! idx with
      | Some drs => history_state mode (drs_history drs ord b)
      | None => None
      end
  | Nowhere => None
  end.

(** ** The write path *)

(** Modelled from the spec: section 3, "UPSERT is resolved at apply time
    into either INSERT or UPDATE (PK-only upsert against an existing row
    produces an empty-changelist update; against a tombstoned row a
    REINSERT)"; section 4.3, "Insert ... fails if a live row exists",
    "Mutate ... ok | NotFound", and an insert of a tombstoned key "creates a
    new generation linked via a REINSERT edge".  [stored] tells whether
    some store holds a row (live or not) for the key, [live] whether that
    row is live. *)
Definition resolve (type : WriteType) (colset : option Cell) (stored live : bool)
  : Status + Mutation :=
  match type with
  | INSERT =>
      if live then inl AlreadyPresent
      else if stored then inr (Reinsert colset)
      else inr (Insert (row_of_colset colset))
  | UPSERT =>
      if live then inr (Update colset)
      else if stored then inr (Reinsert colset)
      else inr (Insert (row_of_colset colset))
  | UPDATE => if live then inr (Update colset) else inl NotFound
  | DELETE => if live then inr Delete else inl NotFound
  end.

(** [<[idx := f drs]>] on the list of row sets. *)
Definition update_drs (idx : nat) (f : DiskRowSet -> DiskRowSet) (l : list DiskRowSet)
  : list DiskRowSet :=
  alter f idx l.

Definition drs_add_delta (d : Delta) (drs : DiskRowSet) : DiskRowSet :=
  mkDiskRowSet (base_data drs) (undo_file drs) (redo_files drs) (dms_add d (dms drs)).

(** Modelled from the spec: section 2, "apply to MRS (insert) or to DMS of
    covering DRS (update/delete/reinsert)"; a row still in the MemRowSet
    takes its mutations on its redo chain (section 4.3). *)
Definition apply_write (ts : Timestamp) (op : KuduWriteOperation) (s : Stores)
  : Status * Stores :=
  match key_column (write_row op) with
  | SetTo pk =>
      let colset := colset_of (val_column (write_row op)) in
      match locate pk s with
      | InMRS e =>
          let live := bool_decide (is_Some (history_state READ_LATEST (mrs_history e))) in
          match resolve (write_type op) colset true live with
          | inl err => (err, s)
          | inr m => (OK, mkStores (mrs_append pk (ts, m) (mrs s)) (drss s))
          end
      | InDRS idx ord b =>
          let live :=
            match drss s !! idx with
            | Some drs =>
                bool_decide (is_Some (history_state READ_LATEST (drs_history drs ord b)))
            | None => false
            end in
          match resolve (write_type op) colset true live with
          | inl err => (err, s)
          | inr m =>
              (OK, mkStores (mrs s)
                     (update_drs idx (drs_add_delta (mkDelta ord ts m)) (drss s)))
          end
      | Nowhere =>
          match resolve (write_type op) colset false false with
          | inl err => (err, s)
          | inr (Insert cols) =>
              (OK, mkStores (mrs_add (mkMRSEntry pk cols ts []) (mrs s)) (drss s))
          | inr _ => (InvalidArgument, s)
          end
      end
  | _ => (InvalidArgument, s)
  end.

(** Modelled from the spec: section 6, "Flush() submits them as one
    mutation batch sharing one commit timestamp.  Returns per-row status;
    partial failure does not abort the batch." *)
Fixpoint apply_batch (ts : Timestamp) (ops : list KuduWriteOperation) (s : Stores)
  : list Status * Stores :=
  match ops with
  | [] => ([], s)
  | op :: rest =>
      let '(st, s) := apply_write ts op s in
      let '(sts, s) := apply_batch ts rest s in
      (st :: sts, s)
  end.

(** ** Scans *)

(** The row a scan returns for a history, if the row is live at the read
    point. *)
Definition result_of (mode : ReadMode) (h : RowHistory) : option RowResult :=
  match history_state mode h with
  | Some c => Some (mkRowResult (h_pk h) c)
  | None => None
  end.

Definition mrs_scan (mode : ReadMode) (m : MemRowSet) : list RowResult :=
  omap (fun e => result_of mode (mrs_history e)) m.

Definition drs_scan (mode : ReadMode) (drs : DiskRowSet) : list RowResult :=
  omap (result_of mode) (drs_histories drs).

(** The order of rows by primary key. *)
Definition key_le (a b : RowResult) : Prop := result_key a <= result_key b.

#[export] Instance key_le_dec a b : Decision (key_le a b).
Proof. unfold key_le. apply _. Defined.

(** Modelled from the spec: section 2, "for each DRS, merge base image with
    its undo file ... or apply redo deltas <= T ...; union with MRS rows
    visible at T; return in key order". *)
Definition scan_ordered (mode : ReadMode) (s : Stores) : list RowResult :=
  foldr (list_merge key_le) [] (mrs_scan mode (mrs s) :: map (drs_scan mode) (drss s)).

(** Without an order: store by store. *)
Definition scan_unordered (mode : ReadMode) (s : Stores) : list RowResult :=
  mrs_scan mode (mrs s) ++ concat (map (drs_scan mode) (drss s)).

(** A scan as configured: read mode, order mode, optional predicate on the
    key (section 6, "Scanner"). *)
Definition scan (spec : ScanSpec) (s : Stores) : list RowResult :=
  let rows :=
    match order_mode spec with
    | ORDERED => scan_ordered (read_mode spec) s
    | UNORDERED => scan_unordered (read_mode spec) s
    end in
  match key_equals spec with
  | Some k => List.filter (fun r => result_key r =? k) rows
  | None => rows
  end.

(** ** Flushes and compactions *)

(** A history moved to a new base: the redo chain is applied into the base
    image and goes, inverted, in front of the undo chain (newest first). *)
Definition rebase (ts : Timestamp) (h : RowHistory) : RowHistory :=
  mkHistory (h_pk h) ts (apply_chain (h_redo h) (h_base h))
    (rev (invert_chain (h_base h) (h_redo h)) ++ h_undo h) [].

(** A row set for rows (in key order) whose history lies all behind their
    base: ordinals by position. *)
Definition build_drs (rows : list RowHistory) : DiskRowSet :=
  mkDiskRowSet
    (map (fun h => mkBaseRow (h_pk h) (h_base_ts h) (h_base h)) rows)
    (emit_from 0 (map h_undo rows))
    [] [].

(** Modelled from the spec: section 4.7 (1), "Flush MRS -> DRS.  Freeze the
    MRS ..., sort-dump its rows to a new DRS, ..., swap the MRS out", and
    section 4.5, "the base stores the row's state at the maximum committed
    timestamp <= flush-time, and the undo file records the reverse-diffs
    needed to reconstruct prior states back to the insert".  [ts] is the
    flush timestamp. *)
Definition flush_mrs (ts : Timestamp) (s : Stores) : Stores :=
  match mrs s with
  | [] => s
  | _ :: _ =>
      mkStores [] (drss s ++ [build_drs (map (fun e => rebase ts (mrs_history e)) (mrs s))])
  end.

(** Modelled from the spec: section 4.7 (2), "Flush DMS -> redo delta file.
    ... append as a new redo file of that DRS; replace DMS with empty". *)
Definition flush_dms_drs (drs : DiskRowSet) : DiskRowSet :=
  match dms drs with
  | [] => drs
  | _ :: _ =>
      mkDiskRowSet (base_data drs) (undo_file drs) (redo_files drs ++ [dms drs]) []
  end.

Definition flush_dms (idx : nat) (s : Stores) : Stores :=
  mkStores (mrs s) (update_drs idx flush_dms_drs (drss s)).

(** A stream sorted by ordinal; deltas of one ordinal keep their order. *)
Fixpoint insert_by_ordinal (d : Delta) (stream : list Delta) : list Delta :=
  match stream with
  | [] => [d]
  | d' :: rest =>
      if (d_ord d' <? d_ord d)%nat then d' :: insert_by_ordinal d rest
      else d :: d' :: rest
  end.

Definition sort_by_ordinal (stream : list Delta) : list Delta :=
  foldr insert_by_ordinal [] stream.

(** Modelled from the spec: section 4.7 (3), "Minor delta compaction.
    Merge several redo delta files of one DRS into a single redo file; does
    not touch the base or the undo file".  The files are listed oldest
    first, so within an ordinal the order of the concatenation is the order
    of the timestamps. *)
Definition minor_compact_drs (drs : DiskRowSet) : DiskRowSet :=
  match redo_files drs with
  | [] => drs
  | _ :: _ =>
      mkDiskRowSet (base_data drs) (undo_file drs)
        [sort_by_ordinal (concat (redo_files drs))] (dms drs)
  end.

Definition minor_compact (idx : nat) (s : Stores) : Stores :=
  mkStores (mrs s) (update_drs idx minor_compact_drs (drss s)).

(** The timestamp of the newest mutation of a chain (oldest first). *)
Definition newest_ts (dflt : Timestamp) (chain : list Stamped) : Timestamp :=
  List.last (map fst chain) dflt.

(** The row at [ord] after its flushed redo deltas were applied to the
    base: the new base row and the new undo chain. *)
Definition major_row (drs : DiskRowSet) (ord : nat) (b : BaseRow)
  : BaseRow * list Stamped :=
  let redo := deltas_of ord (concat (redo_files drs)) in
  (mkBaseRow (b_pk b) (newest_ts (b_ts b) redo) (apply_chain redo (b_state b)),
   rev (invert_chain (b_state b) redo) ++ deltas_of ord (undo_file drs)).

Fixpoint major_rows_from (drs : DiskRowSet) (ord : nat) (base : list BaseRow)
  : list (BaseRow * list Stamped) :=
  match base with
  | [] => []
  | b :: rest => major_row drs ord b :: major_rows_from drs (S ord) rest
  end.

(** Modelled from the spec: section 4.7 (4), "Major delta compaction.
    Apply redo deltas into the base columns of one DRS, producing a new
    base and moving the applied deltas into the undo file (inverted)".  The
    deltas still in the DeltaMemStore stay there; a row's base timestamp
    becomes that of the newest delta applied to it. *)
Definition major_compact_drs (drs : DiskRowSet) : DiskRowSet :=
  let rows := major_rows_from drs 0 (base_data drs) in
  mkDiskRowSet (map fst rows) (emit_from 0 (map snd rows)) [] (dms drs).

Definition major_compact (idx : nat) (s : Stores) : Stores :=
  mkStores (mrs s) (update_drs idx major_compact_drs (drss s)).

(** The order of histories by primary key. *)
Definition pk_le (a b : RowHistory) : Prop := h_pk a <= h_pk b.

#[export] Instance pk_le_dec a b : Decision (pk_le a b).
Proof. unfold pk_le. apply _. Defined.

(** Modelled from the spec: section 4.7 (5), "Merging (row-set) compaction.
    Pick a set of DRSs ...; merge-sort their rows by key, applying each
    DRS's redo chain, producing one or more output DRSs with rebuilt
    undo/redo streams", here for all the row sets at once
    ([Compact(FORCE_COMPACT_ALL)]) and one output.  The specification lets
    a compaction drop a tombstoned row only below the clean time; the
    harness never advances it, so no row is dropped.  [ts] is the
    timestamp of the output's base. *)
Definition compact_all (ts : Timestamp) (s : Stores) : Stores :=
  match drss s with
  | [] => s
  | _ :: _ =>
      let inputs := map (fun drs => map (rebase ts) (drs_histories drs)) (drss s) in
      mkStores (mrs s) [build_drs (foldr (list_merge pk_le) [] inputs)]
  end.

(** ** The write-ahead log *)

(** Modelled from the spec: section 4.2, "Each record is either a mutation
    batch (one or more applied mutations sharing a commit timestamp) or a
    control record (flush-marker, compaction-marker)". *)
Inductive LogRecord : Type :=
  | MutationBatch (ts : Timestamp) (ops : KuduSession)
  | FlushMarker (ts : Timestamp)
  | DeltaFlushMarker (idx : nat)
  | MinorCompactionMarker (idx : nat)
  | MajorCompactionMarker (idx : nat)
  | CompactionMarker (ts : Timestamp).

(** What a record does to the stores, when first applied and on replay. *)
Definition exec (r : LogRecord) (s : Stores) : Stores :=
  match r with
  | MutationBatch ts ops => snd (apply_batch ts ops s)
  | FlushMarker ts => flush_mrs ts s
  | DeltaFlushMarker idx => flush_dms idx s
  | MinorCompactionMarker idx => minor_compact idx s
  | MajorCompactionMarker idx => major_compact idx s
  | CompactionMarker ts => compact_all ts s
  end.

(** "Replay(from_segment) reproduces every appended record in order",
    from the empty tablet. *)
Definition replay (wal : list LogRecord) : Stores :=
  fold_left (fun s r => exec r s) wal empty_stores.

(** ** The tablet server *)

(** The logical clock, the stores and the log. *)
Record TabletState : Type := mkTablet {
  clock : Timestamp;
  stores : Stores;
  wal : list LogRecord;
}.

(** A tablet just created. *)
Definition new_tablet : TabletState := mkTablet 0 empty_stores [].

(** Modelled from the spec: section 4.1, "Now() returns a timestamp
    strictly greater than any previously returned". *)
Definition now (t : TabletState) : Timestamp := clock t + 1.

(** Append the record, apply it, and move the clock to [ts]. *)
Definition log_and_apply (ts : Timestamp) (r : LogRecord) (t : TabletState)
  : TabletState :=
  mkTablet ts (exec r (stores t)) (wal t ++ [r]).

(** The position and the score of the best element, among those that score
    at least [least]; the first one among equals. *)
Fixpoint best_from {A : Type} (score : A -> nat) (least : nat) (idx : nat) (l : list A)
  : option (nat * nat) :=
  match l with
  | [] => None
  | a :: rest =>
      match best_from score least (S idx) rest with
      | Some (j, sc) =>
          if (least <=? score a)%nat && (sc <=? score a)%nat
          then Some (idx, score a) else Some (j, sc)
      | None => if (least <=? score a)%nat then Some (idx, score a) else None
      end
  end.

Definition best {A : Type} (score : A -> nat) (least : nat) (l : list A) : option nat :=
  fst <$> best_from score least 0 l.

(** "Pick the DRS with the largest DMS" *)
Definition biggest_dms (l : list DiskRowSet) : option nat :=
  best (fun drs => length (dms drs)) 1 l.

(** The row set whose redo deltas are most worth compacting: for a minor
    compaction the one with the most files (two at least), for a major one
    the one with the most flushed deltas. *)
Definition worst_deltas (type : DeltaCompactionType) (l : list DiskRowSet) : option nat :=
  match type with
  | MINOR_DELTA_COMPACTION => best (fun drs => length (redo_files drs)) 2 l
  | MAJOR_DELTA_COMPACTION => best (fun drs => length (concat (redo_files drs))) 1 l
  end.

(** A scan: its initiation advances the logical clock (section 4.1), past
    the snapshot timestamp when that lies ahead ("Update(ts_observed)
    advances the clock past an externally observed timestamp"). *)
Definition tablet_scan (spec : ScanSpec) (t : TabletState)
  : list RowResult * TabletState :=
  let observed :=
    match read_mode spec with
    | READ_LATEST => clock t
    | READ_AT_SNAPSHOT T => Z.max (clock t) T
    end in
  (scan spec (stores t), mkTablet (observed + 1) (stores t) (wal t)).

(** A session flush: one batch, one commit timestamp. *)
Definition tablet_write (session : KuduSession) (t : TabletState)
  : list Status * TabletState :=
  let ts := now t in
  (fst (apply_batch ts session (stores t)),
   log_and_apply ts (MutationBatch ts session) t).

Definition tablet_flush (t : TabletState) : Status * TabletState :=
  (OK, log_and_apply (now t) (FlushMarker (now t)) t).

Definition tablet_flush_biggest_dms (t : TabletState) : Status * TabletState :=
  match biggest_dms (drss (stores t)) with
  | Some idx => (OK, log_and_apply (clock t) (DeltaFlushMarker idx) t)
  | None => (OK, t)
  end.

Definition tablet_compact_worst_deltas (type : DeltaCompactionType) (t : TabletState)
  : Status * TabletState :=
  match worst_deltas type (drss (stores t)) with
  | Some idx =>
      (OK, log_and_apply (clock t)
             match type with
             | MINOR_DELTA_COMPACTION => MinorCompactionMarker idx
             | MAJOR_DELTA_COMPACTION => MajorCompactionMarker idx
             end t)
  | None => (OK, t)
  end.

Definition tablet_compact (t : TabletState) : Status * TabletState :=
  (OK, log_and_apply (now t) (CompactionMarker (now t)) t).

(** Modelled from the spec: section 6, "Exit / restart contract.  ...
    reopening the tablet directory must reproduce the exact set of rows and
    history visible at the last durable commit timestamp": the stores are
    rebuilt by replaying the log; the clock does not go back. *)
Definition tablet_restart (t : TabletState) : Status * TabletState :=
  (OK, mkTablet (clock t) (replay (wal t)) (wal t)).

#[export] Instance tablet_server : TabletServer TabletState := {|
  Scan := tablet_scan;
  Write := tablet_write;
  GetCurrentTime := clock;
  Flush := tablet_flush;
  FlushBiggestDMS := tablet_flush_biggest_dms;
  CompactWorstDeltas := tablet_compact_worst_deltas;
  Compact := tablet_compact;
  RestartServer := tablet_restart;
|}.

(** ** Chains of mutations *)

Lemma apply_chain_app c1 c2 s :
  apply_chain (c1 ++ c2) s = apply_chain c2 (apply_chain c1 s).
Proof. unfold apply_chain. apply fold_left_app. Qed.

Lemma apply_chain_cons tm c s :
  apply_chain (tm :: c) s = apply_chain c (apply_mutation (snd tm) s).
Proof. reflexivity. Qed.

Lemma apply_invert m s : apply_mutation (invert m s) (apply_mutation m s) = s.
Proof.
  destruct s as [c|]; [|destruct m as [?|[?|]| |?]; reflexivity].
  destruct m as [?|[?|]| |?]; reflexivity.
Qed.

(** Undoing a whole chain gives back the state it was applied to. *)
Lemma apply_invert_chain c s :
  apply_chain (rev (invert_chain s c)) (apply_chain c s) = s.
Proof.
  revert s. induction c as [|[ts m] c IH]; intros s; [reflexivity|].
  cbn [invert_chain rev]. rewrite apply_chain_app, apply_chain_cons, IH.
  cbn. apply apply_invert.
Qed.

Lemma invert_chain_ts s c : map fst (invert_chain s c) = map fst c.
Proof.
  revert s. induction c as [|[ts m] c IH]; intros s; [reflexivity|].
  cbn. rewrite IH. reflexivity.
Qed.

Lemma invert_chain_app s c1 c2 :
  invert_chain s (c1 ++ c2)
  = invert_chain s c1 ++ invert_chain (apply_chain c1 s) c2.
Proof.
  revert s. induction c1 as [|[ts m] c1 IH]; intros s; [reflexivity|].
  cbn. rewrite IH. reflexivity.
Qed.

(** ** Order of timestamps *)

(** Timestamps ascending, none below [lo]. *)
Fixpoint ascending_from (lo : Timestamp) (c : list Stamped) : Prop :=
  match c with
  | [] => True
  | tm :: rest => lo <= fst tm /\ ascending_from (fst tm) rest
  end.

(** Timestamps descending, none above [hi]. *)
Fixpoint descending_from (hi : Timestamp) (c : list Stamped) : Prop :=
  match c with
  | [] => True
  | tm :: rest => fst tm <= hi /\ descending_from (fst tm) rest
  end.

(** No timestamp above [hi]. *)
Definition bounded_by (hi : Timestamp) (c : list Stamped) : Prop :=
  Forall (fun tm => fst tm <= hi) c.

Lemma ascending_from_weaken lo lo' c :
  lo' <= lo -> ascending_from lo c -> ascending_from lo' c.
Proof. destruct c as [|tm c]; cbn; [trivial|]. intros ? [? ?]. split; [lia|assumption]. Qed.

Lemma descending_from_weaken hi hi' c :
  hi <= hi' -> descending_from hi c -> descending_from hi' c.
Proof. destruct c as [|tm c]; cbn; [trivial|]. intros ? [? ?]. split; [lia|assumption]. Qed.

Lemma ascending_from_ge lo c :
  ascending_from lo c -> Forall (fun tm => lo <= fst tm) c.
Proof.
  revert lo. induction c as [|tm c IH]; intros lo; cbn; [constructor|].
  intros [Hlo Hc]. constructor; [exact Hlo|].
  apply IH. apply (ascending_from_weaken (fst tm)); assumption.
Qed.

Lemma descending_from_le hi c :
  descending_from hi c -> Forall (fun tm => fst tm <= hi) c.
Proof.
  revert hi. induction c as [|tm c IH]; intros hi; cbn; [constructor|].
  intros [Hhi Hc]. constructor; [exact Hhi|].
  apply IH. apply (descending_from_weaken (fst tm)); assumption.
Qed.

Lemma last_cons_default {A : Type} (l : list A) (a d : A) :
  List.last (a :: l) d = List.last l a.
Proof.
  revert a d. induction l as [|b l IH]; intros a d; [reflexivity|].
  change (List.last (a :: b :: l) d) with (List.last (b :: l) d).
  rewrite (IH b d), (IH b a). reflexivity.
Qed.

Lemma newest_ts_cons dflt tm c : newest_ts dflt (tm :: c) = newest_ts (fst tm) c.
Proof. unfold newest_ts. cbn [map]. apply last_cons_default. Qed.

Lemma ascending_from_app lo c1 c2 :
  ascending_from lo (c1 ++ c2)
  <-> ascending_from lo c1 /\ ascending_from (newest_ts lo c1) c2.
Proof.
  revert lo. induction c1 as [|tm c1 IH]; intros lo.
  - cbn. unfold newest_ts. cbn. tauto.
  - cbn [app ascending_from]. rewrite IH, newest_ts_cons. tauto.
Qed.

Lemma ascending_newest lo c :
  ascending_from lo c -> lo <= newest_ts lo c /\ bounded_by (newest_ts lo c) c.
Proof.
  revert lo. induction c as [|tm c IH]; intros lo.
  - cbn. intros _. split; [unfold newest_ts; cbn; lia | constructor].
  - cbn [ascending_from]. intros [Hlo Hc]. rewrite newest_ts_cons.
    destruct (IH _ Hc) as [H1 H2]. split; [lia|].
    constructor; [exact H1 | exact H2].
Qed.

(** ** What a read point shows *)

(** What is visible is closed downwards. *)
Lemma visible_mono mode a b : b <= a -> visible mode a = true -> visible mode b = true.
Proof.
  destruct mode as [|T]; cbn; [reflexivity|].
  rewrite !Z.leb_le. lia.
Qed.

Lemma hidden_mono mode a b : a <= b -> visible mode a = false -> visible mode b = false.
Proof.
  intros Hab Ha. destruct (visible mode b) eqn:Hb; [|reflexivity].
  rewrite (visible_mono mode b a Hab Hb) in Ha. discriminate.
Qed.

Lemma filter_visible_all mode hi c :
  visible mode hi = true -> Forall (fun t => t <= hi) (map fst c) ->
  List.filter (visible_at mode) c = c.
Proof.
  intros Hhi. induction c as [|tm c IH]; cbn [List.filter map]; [reflexivity|].
  intros Hc. apply Forall_cons_1 in Hc as [Htm Hc].
  unfold visible_at at 1. rewrite (visible_mono mode hi (fst tm) Htm Hhi).
  rewrite (IH Hc). reflexivity.
Qed.

Lemma filter_visible_none mode lo c :
  visible mode lo = false -> Forall (fun t => lo <= t) (map fst c) ->
  List.filter (visible_at mode) c = [].
Proof.
  intros Hlo. induction c as [|tm c IH]; cbn [List.filter map]; [reflexivity|].
  intros Hc. apply Forall_cons_1 in Hc as [Htm Hc].
  unfold visible_at at 1. rewrite (hidden_mono mode lo (fst tm) Htm Hlo).
  exact (IH Hc).
Qed.

Lemma filter_hidden_all mode lo c :
  visible mode lo = false -> Forall (fun t => lo <= t) (map fst c) ->
  List.filter (hidden_at mode) c = c.
Proof.
  intros Hlo. induction c as [|tm c IH]; cbn [List.filter map]; [reflexivity|].
  intros Hc. apply Forall_cons_1 in Hc as [Htm Hc].
  unfold hidden_at at 1. rewrite (hidden_mono mode lo (fst tm) Htm Hlo). cbn [negb].
  rewrite (IH Hc). reflexivity.
Qed.

Lemma filter_hidden_none mode hi c :
  visible mode hi = true -> Forall (fun t => t <= hi) (map fst c) ->
  List.filter (hidden_at mode) c = [].
Proof.
  intros Hhi. induction c as [|tm c IH]; cbn [List.filter map]; [reflexivity|].
  intros Hc. apply Forall_cons_1 in Hc as [Htm Hc].
  unfold hidden_at at 1. rewrite (visible_mono mode hi (fst tm) Htm Hhi). cbn [negb].
  exact (IH Hc).
Qed.

Lemma Forall_map_fst (P : Timestamp -> Prop) (c : list Stamped) :
  Forall P (map fst c) <-> Forall (fun tm => P (fst tm)) c.
Proof. apply Forall_map. Qed.

(** The inverted chain takes a row back to any read point: undoing the
    mutations the read point does not show leaves the ones it shows. *)
Lemma undo_to_read_point mode lo c s :
  ascending_from lo c ->
  apply_chain (List.filter (hidden_at mode) (rev (invert_chain s c))) (apply_chain c s)
  = apply_chain (List.filter (visible_at mode) c) s.
Proof.
  revert lo s. induction c as [|[ts m] c IH]; intros lo s Hasc; [reflexivity|].
  cbn [ascending_from fst] in Hasc. destruct Hasc as [_ Hasc].
  cbn [invert_chain rev]. rewrite List.filter_app, apply_chain_app, apply_chain_cons.
  cbn [snd].
  change (List.filter (visible_at mode) ((ts, m) :: c))
    with (if visible mode ts
          then (ts, m) :: List.filter (visible_at mode) c
          else List.filter (visible_at mode) c).
  change (List.filter (hidden_at mode) [(ts, invert m s)])
    with (if negb (visible mode ts) then [(ts, invert m s)] else []).
  destruct (visible mode ts) eqn:Hv; cbn [negb].
  - rewrite (IH ts _ Hasc). reflexivity.
  - assert (Hge : Forall (fun t => ts <= t) (map fst c))
      by (apply Forall_map_fst, ascending_from_ge; exact Hasc).
    rewrite (filter_hidden_all mode ts).
    + rewrite apply_invert_chain. cbn. rewrite apply_invert.
      rewrite (filter_visible_none mode ts c Hv Hge). reflexivity.
    + exact Hv.
    + rewrite map_rev, invert_chain_ts. apply Forall_rev. exact Hge.
Qed.

(** ** Histories *)

(** A history is in order when the undo chain descends from the base
    timestamp, the redo chain ascends from it, and nothing is newer than
    [now]. *)
Definition history_ok (now : Timestamp) (h : RowHistory) : Prop :=
  descending_from (h_base_ts h) (h_undo h)
  /\ ascending_from (h_base_ts h) (h_redo h)
  /\ bounded_by now (h_redo h)
  /\ h_base_ts h <= now.

Lemma history_ok_mono now now' h : now <= now' -> history_ok now h -> history_ok now' h.
Proof.
  intros Hle (Hu & Hr & Hb & Hts). repeat split; try assumption; [|lia].
  eapply Forall_impl; [exact Hb|]. cbn. intros. lia.
Qed.

(** A history whose first [redo1] redo mutations are folded into the base,
    the base moving to [ts]. *)
Definition rebase_onto (ts : Timestamp) (h : RowHistory) (redo1 redo2 : list Stamped)
  : RowHistory :=
  mkHistory (h_pk h) ts (apply_chain redo1 (h_base h))
    (rev (invert_chain (h_base h) redo1) ++ h_undo h) redo2.

Lemma descending_from_rev_ascending lo hi c tail :
  ascending_from lo c -> bounded_by hi c -> lo <= hi ->
  descending_from lo tail ->
  descending_from hi (rev c ++ tail).
Proof.
  revert lo tail. induction c as [|tm c IH]; intros lo tail Hasc Hb Hle Htail.
  - cbn. apply (descending_from_weaken lo); assumption.
  - cbn [rev]. rewrite <- app_assoc. cbn [app].
    cbn [ascending_from] in Hasc. destruct Hasc as [Hlo Hasc].
    apply Forall_cons_1 in Hb as [Htm Hb].
    apply (IH (fst tm)); [exact Hasc | exact Hb | exact Htm |].
    cbn. split; [lia|]. apply (descending_from_weaken lo); [exact Hlo | exact Htail].
Qed.

(** Folding a prefix of the redo chain into the base changes nothing a
    read can see, provided the new base timestamp lies between the two
    parts of the chain. *)
Lemma rebase_onto_state mode now ts h redo1 redo2 :
  history_ok now h -> h_redo h = redo1 ++ redo2 ->
  h_base_ts h <= ts -> bounded_by ts redo1 -> ascending_from ts redo2 ->
  history_state mode (rebase_onto ts h redo1 redo2) = history_state mode h.
Proof.
  intros (Hu & Hr & _ & _) Hsplit Hts Hb1 Ha2.
  rewrite Hsplit in Hr. apply ascending_from_app in Hr as [Hr1 _].
  unfold history_state, rebase_onto. cbn [h_base_ts h_base h_undo h_redo].
  rewrite Hsplit, !List.filter_app, !apply_chain_app.
  rewrite (undo_to_read_point mode (h_base_ts h) redo1 (h_base h) Hr1).
  assert (Hge2 : Forall (fun t => ts <= t) (map fst redo2))
    by (apply Forall_map_fst, ascending_from_ge; exact Ha2).
  assert (Hle1 : Forall (fun t => t <= ts) (map fst redo1))
    by (apply Forall_map_fst; exact Hb1).
  assert (Hge1 : Forall (fun t => h_base_ts h <= t) (map fst redo1))
    by (apply Forall_map_fst, ascending_from_ge; exact Hr1).
  assert (Hleu : Forall (fun t => t <= h_base_ts h) (map fst (h_undo h)))
    by (apply Forall_map_fst, descending_from_le; exact Hu).
  destruct (visible mode ts) eqn:Hv.
  - rewrite (visible_mono mode ts (h_base_ts h) Hts Hv).
    rewrite (filter_visible_all mode ts redo1 Hv Hle1). reflexivity.
  - rewrite (filter_visible_none mode ts redo2 Hv Hge2).
    destruct (visible mode (h_base_ts h)) eqn:Hvb.
    + rewrite (filter_hidden_none mode (h_base_ts h) (h_undo h) Hvb Hleu). reflexivity.
    + rewrite (filter_visible_none mode (h_base_ts h) redo1 Hvb Hge1). reflexivity.
Qed.

Lemma rebase_onto_ok now ts h redo1 redo2 :
  history_ok now h -> h_redo h = redo1 ++ redo2 ->
  h_base_ts h <= ts -> ts <= now -> bounded_by ts redo1 -> ascending_from ts redo2 ->
  history_ok now (rebase_onto ts h redo1 redo2).
Proof.
  intros (Hu & Hr & Hb & Hn) Hsplit Hts Htn Hb1 Ha2.
  rewrite Hsplit in Hr, Hb. apply ascending_from_app in Hr as [Hr1 _].
  apply Forall_app in Hb as [_ Hb2].
  unfold history_ok, rebase_onto. cbn [h_base_ts h_base h_undo h_redo].
  repeat split; try assumption.
  apply (descending_from_rev_ascending (h_base_ts h)).
  - clear -Hr1. revert Hr1. generalize (h_base h) (h_base_ts h).
    induction redo1 as [|[t m] c IH]; intros s lo; cbn; [trivial|].
    intros [Hlo Hc]. split; [exact Hlo|]. apply IH. exact Hc.
  - unfold bounded_by. apply (Forall_map_fst (fun t => t <= ts)).
    rewrite invert_chain_ts. apply (Forall_map_fst (fun t => t <= ts)). exact Hb1.
  - exact Hts.
  - exact Hu.
Qed.

(** [rebase] folds the whole redo chain. *)
Lemma rebase_is_rebase_onto ts h : rebase ts h = rebase_onto ts h (h_redo h) [].
Proof. reflexivity. Qed.

Lemma rebase_state mode now ts h :
  history_ok now h -> now <= ts ->
  history_state mode (rebase ts h) = history_state mode h.
Proof.
  intros Hok Hts. rewrite rebase_is_rebase_onto.
  apply (rebase_onto_state mode now); [exact Hok | symmetry; apply app_nil_r | | | exact I].
  - destruct Hok as (_ & _ & _ & H). lia.
  - destruct Hok as (_ & _ & H & _). eapply Forall_impl; [exact H|]. cbn. intros. lia.
Qed.

Lemma rebase_ok now ts h :
  history_ok now h -> now <= ts -> history_ok ts (rebase ts h).
Proof.
  intros Hok Hts. rewrite rebase_is_rebase_onto.
  apply rebase_onto_ok; [| symmetry; apply app_nil_r | | lia | | exact I].
  - apply (history_ok_mono now); assumption.
  - destruct Hok as (_ & _ & _ & H). lia.
  - destruct Hok as (_ & _ & H & _). eapply Forall_impl; [exact H|]. cbn. intros. lia.
Qed.

(** ** Streams of deltas *)

Lemma deltas_of_nil ord : deltas_of ord [] = [].
Proof. reflexivity. Qed.

Lemma deltas_of_app ord s1 s2 :
  deltas_of ord (s1 ++ s2) = deltas_of ord s1 ++ deltas_of ord s2.
Proof. unfold deltas_of. rewrite List.filter_app, map_app. reflexivity. Qed.

Lemma deltas_of_cons ord d s :
  deltas_of ord (d :: s)
  = (if Nat.eqb (d_ord d) ord then [(d_ts d, d_mut d)] else []) ++ deltas_of ord s.
Proof. unfold deltas_of. cbn. destruct (Nat.eqb (d_ord d) ord); reflexivity. Qed.

Lemma deltas_of_chain ord ord' (chain : list Stamped) :
  deltas_of ord (map (fun tm => mkDelta ord' (fst tm) (snd tm)) chain)
  = if Nat.eqb ord' ord then chain else [].
Proof.
  induction chain as [|[ts m] chain IH]; [destruct (Nat.eqb ord' ord); reflexivity|].
  cbn [map]. rewrite deltas_of_cons, IH. cbn.
  destruct (Nat.eqb ord' ord); reflexivity.
Qed.

Lemma deltas_of_emit_from ord k chains :
  deltas_of ord (emit_from k chains)
  = if (k <=? ord)%nat then default [] (chains !! (ord - k)%nat) else [].
Proof.
  revert k. induction chains as [|chain chains IH]; intros k; cbn [emit_from].
  - destruct (k <=? ord)%nat; reflexivity.
  - rewrite deltas_of_app, deltas_of_chain, IH.
    destruct (Nat.eqb_spec k ord) as [->|Hne].
    + rewrite Nat.leb_refl, Nat.sub_diag.
      destruct (Nat.leb_spec (S ord) ord); [lia|]. cbn. apply app_nil_r.
    + destruct (Nat.leb_spec k ord), (Nat.leb_spec (S k) ord); try lia; [|reflexivity].
      replace (ord - k)%nat with (S (ord - S k)) by lia. reflexivity.
Qed.

(** A delta added to the DeltaMemStore goes behind the deltas of its
    ordinal. *)
Lemma deltas_of_dms_add_rev ord d l :
  deltas_of ord (rev (dms_add_rev d l))
  = deltas_of ord (rev l)
    ++ (if Nat.eqb (d_ord d) ord then [(d_ts d, d_mut d)] else []).
Proof.
  induction l as [|d' l IH]; cbn [dms_add_rev rev].
  - cbn [app]. rewrite deltas_of_cons, deltas_of_nil, app_nil_r. reflexivity.
  - destruct (Nat.ltb_spec (d_ord d) (d_ord d')) as [Hlt|Hge]; cbn [rev].
    + rewrite !deltas_of_app, IH, !deltas_of_cons, !deltas_of_nil, !app_nil_r.
      destruct (Nat.eqb_spec (d_ord d) ord), (Nat.eqb_spec (d_ord d') ord);
        try lia; rewrite ?app_nil_r; reflexivity.
    + rewrite !deltas_of_app, !deltas_of_cons, !deltas_of_nil, !app_nil_r.
      reflexivity.
Qed.

Lemma deltas_of_dms_add ord d l :
  deltas_of ord (dms_add d l)
  = deltas_of ord l ++ (if Nat.eqb (d_ord d) ord then [(d_ts d, d_mut d)] else []).
Proof. unfold dms_add. rewrite deltas_of_dms_add_rev, rev_involutive. reflexivity. Qed.

Lemma deltas_of_insert_by_ordinal ord d s :
  deltas_of ord (insert_by_ordinal d s)
  = (if Nat.eqb (d_ord d) ord then [(d_ts d, d_mut d)] else []) ++ deltas_of ord s.
Proof.
  induction s as [|d' s IH]; cbn [insert_by_ordinal].
  - rewrite deltas_of_cons. reflexivity.
  - destruct (Nat.ltb_spec (d_ord d') (d_ord d)) as [Hlt|Hge].
    + rewrite !deltas_of_cons, IH.
      destruct (Nat.eqb_spec (d_ord d) ord), (Nat.eqb_spec (d_ord d') ord);
        try lia; reflexivity.
    + rewrite !deltas_of_cons. reflexivity.
Qed.

(** Sorting a stream by ordinal leaves the chain of every ordinal as it
    was. *)
Lemma deltas_of_sort_by_ordinal ord s :
  deltas_of ord (sort_by_ordinal s) = deltas_of ord s.
Proof.
  induction s as [|d s IH]; [reflexivity|].
  cbn [sort_by_ordinal foldr]. fold (sort_by_ordinal s).
  rewrite deltas_of_insert_by_ordinal, IH, deltas_of_cons. reflexivity.
Qed.

(** ** The rows of a tablet, as histories *)

(** Every row of the tablet with its history: the MemRowSet's, then each
    row set's. *)
Definition tablet_histories (s : Stores) : list RowHistory :=
  map mrs_history (mrs s) ++ concat (map drs_histories (drss s)).

Definition has_pk (pk : Z) (h : RowHistory) : bool := h_pk h =? pk.

(** The state, at a read point, of the row for [pk] in a list of histories. *)
Definition read_histories (mode : ReadMode) (pk : Z) (l : list RowHistory) : RowState :=
  match find (has_pk pk) l with
  | Some h => history_state mode h
  | None => None
  end.

Lemma find_app {A : Type} (f : A -> bool) (l1 l2 : list A) :
  find f (l1 ++ l2) = match find f l1 with Some a => Some a | None => find f l2 end.
Proof.
  induction l1 as [|a l1 IH]; [reflexivity|]. cbn. destruct (f a); [reflexivity | exact IH].
Qed.

Lemma find_map {A B : Type} (f : B -> bool) (g : A -> B) (l : list A) :
  find f (map g l) = g <$> find (fun a => f (g a)) l.
Proof.
  induction l as [|a l IH]; [reflexivity|]. cbn. destruct (f (g a)); [reflexivity | exact IH].
Qed.

Lemma drs_histories_from_lookup drs k base n :
  drs_histories_from drs k base !! n = drs_history drs (k + n) <$> base !! n.
Proof.
  revert k n. induction base as [|b base IH]; intros k n; [reflexivity|].
  destruct n as [|n]; cbn.
  - rewrite Nat.add_0_r. reflexivity.
  - rewrite IH. replace (S k + n)%nat with (k + S n)%nat by lia. reflexivity.
Qed.

Lemma drs_histories_lookup drs n :
  drs_histories drs !! n = drs_history drs n <$> base_data drs !! n.
Proof. unfold drs_histories. rewrite drs_histories_from_lookup. reflexivity. Qed.

Lemma drs_histories_from_length drs k base :
  length (drs_histories_from drs k base) = length base.
Proof. revert k. induction base as [|b base IH]; intros k; cbn; [reflexivity|]. rewrite IH. reflexivity. Qed.

Lemma drs_histories_from_pk drs k base :
  map h_pk (drs_histories_from drs k base) = map b_pk base.
Proof. revert k. induction base as [|b base IH]; intros k; cbn; [reflexivity|]. rewrite IH. reflexivity. Qed.

Lemma drs_histories_pk drs : map h_pk (drs_histories drs) = map b_pk (base_data drs).
Proof. apply drs_histories_from_pk. Qed.

Lemma find_drs_histories_from drs k pk base :
  find (has_pk pk) (drs_histories_from drs k base)
  = (fun ob => drs_history drs (fst ob) (snd ob)) <$> pk_index_from k pk base.
Proof.
  revert k. induction base as [|b base IH]; intros k; [reflexivity|].
  cbn. unfold has_pk at 1. cbn. destruct (b_pk b =? pk); [reflexivity | apply IH].
Qed.

Lemma read_drs_histories mode pk all idx l :
  drop idx all = l ->
  read_histories mode pk (concat (map drs_histories l))
  = match locate_drs_from idx pk l with
    | InDRS i ord b =>
        match all !! i with
        | Some drs => history_state mode (drs_history drs ord b)
        | None => None
        end
    | _ => None
    end.
Proof.
  revert idx. induction l as [|drs l IH]; intros idx Hdrop; [reflexivity|].
  cbn [map concat locate_drs_from]. unfold read_histories. rewrite find_app.
  unfold drs_histories at 1. rewrite find_drs_histories_from. unfold pk_index.
  assert (Hidx : all !! idx = Some drs).
  { rewrite <- (Nat.add_0_r idx), <- lookup_drop, Hdrop. reflexivity. }
  destruct (pk_index_from 0 pk (base_data drs)) as [[ord b]|]; cbn.
  - rewrite Hidx. reflexivity.
  - apply (IH (S idx)).
    replace (S idx) with (idx + 1)%nat by lia.
    rewrite <- drop_drop, Hdrop. reflexivity.
Qed.

Lemma locate_drs_from_not_mrs idx pk l e : locate_drs_from idx pk l <> InMRS e.
Proof.
  revert idx. induction l as [|drs l IH]; intros idx; cbn; [discriminate|].
  destruct (pk_index drs pk) as [[ord b]|]; [discriminate | apply IH].
Qed.

(** A point read looks the key up among the histories of the tablet. *)
Lemma point_read_histories mode pk s :
  point_read mode pk s = read_histories mode pk (tablet_histories s).
Proof.
  unfold point_read, locate, tablet_histories, read_histories, mrs_find.
  rewrite find_app, find_map.
  change (fun a => has_pk pk (mrs_history a)) with (fun e => m_pk e =? pk).
  destruct (find (fun e => m_pk e =? pk) (mrs s)) as [e|]; [reflexivity|].
  pose proof (read_drs_histories mode pk (drss s) 0 (drss s) eq_refl) as Hd.
  unfold read_histories in Hd. cbn. rewrite Hd.
  pose proof (locate_drs_from_not_mrs 0 pk (drss s)) as Hn.
  destruct (locate_drs_from 0 pk (drss s)); [destruct (Hn e); reflexivity | |]; reflexivity.
Qed.

(** ** Lists sorted by a key *)

Section SortedByKey.

Context {A : Type} (f : A -> Z).

Definition by_key_le (a b : A) : Prop := f a <= f b.
Definition by_key_lt (a b : A) : Prop := f a < f b.

#[local] Instance by_key_le_total : Total by_key_le.
Proof. intros a b. unfold by_key_le. lia. Qed.

#[local] Instance by_key_le_trans : Transitive by_key_le.
Proof. intros a b c. unfold by_key_le. lia. Qed.

#[local] Instance by_key_lt_trans : Transitive by_key_lt.
Proof. intros a b c. unfold by_key_lt. lia. Qed.

#[local] Instance by_key_lt_antisym : AntiSymm (=) by_key_lt.
Proof. intros a b. unfold by_key_lt. lia. Qed.

(** Keys strictly ascending. *)
Definition strictly_sorted (l : list A) : Prop := StronglySorted Z.lt (map f l).

Lemma strictly_sorted_by_key_lt l : strictly_sorted l <-> StronglySorted by_key_lt l.
Proof.
  unfold strictly_sorted. induction l as [|a l IH]; cbn.
  - split; constructor.
  - split; intros H; apply StronglySorted_inv in H as [Hl Ha]; constructor.
    + apply IH. exact Hl.
    + exact (proj1 (Forall_map f (Z.lt (f a)) l) Ha).
    + apply IH. exact Hl.
    + exact (proj2 (Forall_map f (Z.lt (f a)) l) Ha).
Qed.

Lemma strictly_sorted_NoDup l : strictly_sorted l -> NoDup (map f l).
Proof.
  unfold strictly_sorted. generalize (map f l). clear l.
  intros l. induction 1 as [|x l Hl IH Hx]; constructor; [|exact IH].
  intros Hin. rewrite Forall_forall in Hx. specialize (Hx x Hin). lia.
Qed.

Lemma strictly_sorted_Sorted l : strictly_sorted l -> Sorted by_key_le l.
Proof.
  intros H. apply strictly_sorted_by_key_lt in H.
  apply StronglySorted_Sorted in H.
  induction H as [|a l Hl IH Ha]; constructor; [exact IH|].
  destruct Ha; constructor. unfold by_key_le, by_key_lt in *. lia.
Qed.

Lemma Sorted_strictly_sorted l :
  Sorted by_key_le l -> NoDup (map f l) -> strictly_sorted l.
Proof.
  intros Hs Hn. apply Sorted_StronglySorted in Hs; [|apply _].
  unfold strictly_sorted.
  induction Hs as [|a l Hl IH Ha]; cbn; [constructor|].
  cbn in Hn. apply NoDup_cons in Hn as [Hnot Hn].
  constructor; [apply IH; exact Hn|].
  apply (proj2 (Forall_map f (Z.lt (f a)) l)). rewrite Forall_forall in *. intros b Hb.
  specialize (Ha b Hb). unfold by_key_le in Ha.
  assert (f a <> f b); [|lia].
  intros Heq. apply Hnot. rewrite Heq. apply (list_elem_of_fmap_2 f). exact Hb.
Qed.

(** Two lists with strictly ascending keys and the same elements are the
    same list. *)
Lemma strictly_sorted_ext l1 l2 :
  strictly_sorted l1 -> strictly_sorted l2 ->
  (forall a, a ∈ l1 <-> a ∈ l2) -> l1 = l2.
Proof.
  intros H1 H2 Hiff.
  apply (StronglySorted_unique by_key_lt).
  - apply strictly_sorted_by_key_lt. exact H1.
  - apply strictly_sorted_by_key_lt. exact H2.
  - apply NoDup_Permutation; [| |exact Hiff].
    + eapply NoDup_fmap_1. apply strictly_sorted_NoDup. exact H1.
    + eapply NoDup_fmap_1. apply strictly_sorted_NoDup. exact H2.
Qed.

Section Merge.

Context (dec : forall a b, Decision (by_key_le a b)).

Lemma Sorted_merge_all (ls : list (list A)) :
  Forall (Sorted by_key_le) ls ->
  Sorted by_key_le (foldr (@list_merge A by_key_le dec) [] ls).
Proof.
  induction 1 as [|l ls Hl Hls IH]; cbn; [constructor|].
  apply (Sorted_list_merge by_key_le); assumption.
Qed.

Lemma merge_all_Permutation (ls : list (list A)) :
  foldr (@list_merge A by_key_le dec) [] ls ≡ₚ concat ls.
Proof.
  induction ls as [|l ls IH]; cbn; [reflexivity|].
  rewrite merge_Permutation, IH. reflexivity.
Qed.

End Merge.

End SortedByKey.

(** ** Reading through a list of histories *)

Lemma find_has_pk_Some pk l h : find (has_pk pk) l = Some h -> h ∈ l /\ h_pk h = pk.
Proof.
  intros H. apply find_some in H as [Hin Hpk]. split.
  - apply list_elem_of_In. exact Hin.
  - unfold has_pk in Hpk. apply Z.eqb_eq. exact Hpk.
Qed.

Lemma find_has_pk_None pk l : find (has_pk pk) l = None -> forall h, h ∈ l -> h_pk h <> pk.
Proof.
  intros H h Hin Hpk. apply list_elem_of_In in Hin.
  pose proof (find_none _ _ H h Hin) as Hf. unfold has_pk in Hf.
  apply Z.eqb_neq in Hf. contradiction.
Qed.

(** With distinct keys, the history of a key is the one [find] returns. *)
Lemma find_has_pk_unique pk l h :
  NoDup (map h_pk l) -> h ∈ l -> h_pk h = pk -> find (has_pk pk) l = Some h.
Proof.
  induction l as [|a l IH]; cbn; intros Hn Hin Hpk.
  - inversion Hin.
  - apply NoDup_cons in Hn as [Hnot Hn]. unfold has_pk at 1.
    apply elem_of_cons in Hin as [->|Hin].
    + rewrite <- Hpk, Z.eqb_refl. reflexivity.
    + destruct (Z.eqb_spec (h_pk a) pk) as [Heq|Hne]; [|apply IH; assumption].
      exfalso. apply Hnot. rewrite Heq, <- Hpk.
      apply (list_elem_of_fmap_2 h_pk). exact Hin.
Qed.

Lemma read_histories_Permutation mode pk l l' :
  NoDup (map h_pk l) -> l ≡ₚ l' ->
  read_histories mode pk l' = read_histories mode pk l.
Proof.
  intros Hn Hp. unfold read_histories.
  assert (Hn' : NoDup (map h_pk l')).
  { change (NoDup (h_pk <$> l')). rewrite <- Hp. exact Hn. }
  destruct (find (has_pk pk) l) as [h|] eqn:Hf.
  - apply find_has_pk_Some in Hf as [Hin Hpk].
    rewrite (find_has_pk_unique pk l' h Hn'); [reflexivity| |exact Hpk].
    rewrite <- Hp. exact Hin.
  - destruct (find (has_pk pk) l') as [h'|] eqn:Hf'; [|reflexivity].
    apply find_has_pk_Some in Hf' as [Hin Hpk].
    exfalso. apply (find_has_pk_None pk l Hf h'); [|exact Hpk].
    rewrite Hp. exact Hin.
Qed.

(** Histories that show the same row. *)
Definition same_row (h h' : RowHistory) : Prop :=
  h_pk h' = h_pk h /\ forall mode, history_state mode h' = history_state mode h.

Lemma read_histories_same_rows mode pk l l' :
  Forall2 same_row l l' -> read_histories mode pk l' = read_histories mode pk l.
Proof.
  unfold read_histories. induction 1 as [|h h' l l' [Hpk Hst] Hl IH]; [reflexivity|].
  cbn. unfold has_pk at 1 3. rewrite Hpk.
  destruct (h_pk h =? pk); [apply Hst | exact IH].
Qed.

Lemma same_rows_pk l l' : Forall2 same_row l l' -> map h_pk l' = map h_pk l.
Proof. induction 1 as [|h h' l l' [Hpk _] Hl IH]; cbn; [reflexivity|]. rewrite Hpk, IH. reflexivity. Qed.

(** ** What flushes and compactions do to a history *)

(** A history either stays, or has a part of its redo chain folded into
    its base. *)
Inductive evolves (now' : Timestamp) : RowHistory -> RowHistory -> Prop :=
  | evolves_same h : evolves now' h h
  | evolves_rebase h ts redo1 redo2 :
      h_redo h = redo1 ++ redo2 ->
      h_base_ts h <= ts -> ts <= now' ->
      bounded_by ts redo1 -> ascending_from ts redo2 ->
      evolves now' h (rebase_onto ts h redo1 redo2).

Lemma evolves_same_row now now' h h' :
  history_ok now h -> now <= now' -> evolves now' h h' ->
  same_row h h' /\ history_ok now' h'.
Proof.
  intros Hok Hle Hev. destruct Hev as [h|h ts r1 r2 Hsplit Hts Htn Hb Ha].
  - split; [split; reflexivity|]. apply (history_ok_mono now); assumption.
  - split; [split; [reflexivity|]|].
    + intros mode. apply (rebase_onto_state mode now); assumption.
    + apply rebase_onto_ok; try assumption. apply (history_ok_mono now); assumption.
Qed.

(** A full rebase at a timestamp that is not in the past. *)
Lemma evolves_rebase_all now ts h :
  history_ok now h -> now <= ts -> evolves ts h (rebase ts h).
Proof.
  intros (_ & _ & Hb & Hts) Hle. rewrite rebase_is_rebase_onto.
  constructor; [symmetry; apply app_nil_r | lia | lia | | exact I].
  eapply Forall_impl; [exact Hb|]. cbn. intros. lia.
Qed.

(** The histories [l'] are those of [l], some of them rebased, in some
    order. *)
Definition maintained (now' : Timestamp) (l l' : list RowHistory) : Prop :=
  exists l1, Forall2 (evolves now') l l1 /\ l1 ≡ₚ l'.

Lemma maintained_refl now' l : maintained now' l l.
Proof.
  exists l. split; [|reflexivity].
  induction l; constructor; [constructor | assumption].
Qed.

Lemma evolves_Forall2 now now' l l1 :
  Forall (history_ok now) l -> now <= now' -> Forall2 (evolves now') l l1 ->
  Forall2 same_row l l1 /\ Forall (history_ok now') l1.
Proof.
  intros Hok Hle H. induction H as [|h h' l l1 Hh Hl IH].
  - split; constructor.
  - apply Forall_cons in Hok as [Hokh Hok]. destruct (IH Hok) as [IH1 IH2].
    destruct (evolves_same_row now now' h h' Hokh Hle Hh) as [Hs Hok'].
    split; constructor; assumption.
Qed.

(** Maintenance keeps the keys distinct and the histories in order, and
    no read can tell the difference. *)
Lemma maintained_reads now now' l l' :
  NoDup (map h_pk l) -> Forall (history_ok now) l -> now <= now' ->
  maintained now' l l' ->
  NoDup (map h_pk l')
  /\ Forall (history_ok now') l'
  /\ forall mode pk, read_histories mode pk l' = read_histories mode pk l.
Proof.
  intros Hn Hok Hle (l1 & Hev & Hp).
  destruct (evolves_Forall2 now now' l l1 Hok Hle Hev) as [Hsame Hok1].
  assert (Hn1 : NoDup (map h_pk l1)) by (rewrite (same_rows_pk l l1 Hsame); exact Hn).
  split; [|split].
  - change (NoDup (h_pk <$> l')). rewrite <- Hp. exact Hn1.
  - rewrite <- Hp. exact Hok1.
  - intros mode pk.
    rewrite (read_histories_Permutation mode pk l1 l' Hn1 Hp).
    apply read_histories_same_rows. exact Hsame.
Qed.

(** ** The invariant of the stores *)

(** The stores are in order at time [now]: no key is held twice, every
    history is in order, and the MemRowSet and every base image are sorted
    by key. *)
Definition stores_ok (now : Timestamp) (s : Stores) : Prop :=
  NoDup (map h_pk (tablet_histories s))
  /\ Forall (history_ok now) (tablet_histories s)
  /\ strictly_sorted m_pk (mrs s)
  /\ Forall (fun drs => strictly_sorted b_pk (base_data drs)) (drss s).

Lemma stores_ok_empty now : stores_ok now empty_stores.
Proof. repeat split; constructor. Qed.

Lemma stores_ok_mono now now' s : now <= now' -> stores_ok now s -> stores_ok now' s.
Proof.
  intros Hle (Hn & Hok & Hm & Hd). repeat split; try assumption.
  eapply Forall_impl; [exact Hok|]. intros h. apply history_ok_mono. exact Hle.
Qed.

Lemma drs_histories_ext drs drs' :
  base_data drs' = base_data drs ->
  (forall ord, deltas_of ord (undo_file drs') = deltas_of ord (undo_file drs)) ->
  (forall ord, deltas_of ord (redo_stream drs') = deltas_of ord (redo_stream drs)) ->
  drs_histories drs' = drs_histories drs.
Proof.
  intros Hb Hu Hr. apply list_eq. intros n.
  rewrite !drs_histories_lookup, Hb. unfold drs_history.
  rewrite Hu, Hr. reflexivity.
Qed.

Lemma flush_dms_drs_histories drs : drs_histories (flush_dms_drs drs) = drs_histories drs.
Proof.
  unfold flush_dms_drs. destruct (dms drs) as [|d l] eqn:Hd; [reflexivity|].
  apply drs_histories_ext; try reflexivity.
  intros ord. unfold redo_stream. cbn [redo_files dms].
  rewrite concat_app, Hd. cbn. rewrite !app_nil_r. reflexivity.
Qed.

Lemma minor_compact_drs_histories drs :
  drs_histories (minor_compact_drs drs) = drs_histories drs.
Proof.
  unfold minor_compact_drs. destruct (redo_files drs) as [|f fs] eqn:Hf; [reflexivity|].
  apply drs_histories_ext; try reflexivity.
  intros ord. unfold redo_stream. cbn [redo_files dms]. rewrite Hf.
  cbn [concat]. rewrite app_nil_r, !deltas_of_app, deltas_of_sort_by_ordinal.
  rewrite deltas_of_app. reflexivity.
Qed.

Lemma alter_drs_histories (f : DiskRowSet -> DiskRowSet) idx l :
  (forall drs, drs_histories (f drs) = drs_histories drs) ->
  map drs_histories (alter f idx l) = map drs_histories l.
Proof.
  intros Hf. revert idx. induction l as [|drs l IH]; intros [|idx]; cbn; try reflexivity.
  - rewrite Hf. reflexivity.
  - rewrite IH. reflexivity.
Qed.

Lemma alter_base_sorted (f : DiskRowSet -> DiskRowSet) idx l :
  (forall drs, map b_pk (base_data (f drs)) = map b_pk (base_data drs)) ->
  Forall (fun drs => strictly_sorted b_pk (base_data drs)) l ->
  Forall (fun drs => strictly_sorted b_pk (base_data drs)) (alter f idx l).
Proof.
  intros Hf H. apply Forall_alter; [exact H|].
  intros drs _ Hs. unfold strictly_sorted in *. rewrite Hf. exact Hs.
Qed.

Lemma build_drs_histories rows :
  Forall (fun h => h_redo h = []) rows -> drs_histories (build_drs rows) = rows.
Proof.
  intros Hr. apply list_eq. intros n. rewrite drs_histories_lookup.
  cbn [build_drs base_data].
  change (map (fun h => mkBaseRow (h_pk h) (h_base_ts h) (h_base h)) rows)
    with ((fun h => mkBaseRow (h_pk h) (h_base_ts h) (h_base h)) <$> rows).
  rewrite list_lookup_fmap.
  destruct (rows !! n) as [h|] eqn:Hn; [|reflexivity].
  cbn [fmap option_fmap option_map]. f_equal.
  unfold drs_history, redo_stream, build_drs.
  cbn [undo_file redo_files dms b_pk b_ts b_state concat app].
  rewrite deltas_of_emit_from, deltas_of_nil.
  cbn [Nat.leb]. rewrite Nat.sub_0_r.
  change (map h_undo rows) with (h_undo <$> rows).
  rewrite list_lookup_fmap, Hn.
  pose proof (Forall_lookup_1 _ _ _ _ Hr Hn) as Hredo. cbn in Hredo.
  destruct h; cbn in *. rewrite Hredo. reflexivity.
Qed.

Lemma build_drs_pk rows : map b_pk (base_data (build_drs rows)) = map h_pk rows.
Proof. cbn. rewrite map_map. reflexivity. Qed.

Lemma major_rows_from_lookup drs k base n :
  major_rows_from drs k base !! n = major_row drs (k + n) <$> base !! n.
Proof.
  revert k n. induction base as [|b base IH]; intros k n; [reflexivity|].
  destruct n as [|n]; cbn.
  - rewrite Nat.add_0_r. reflexivity.
  - rewrite IH. replace (S k + n)%nat with (k + S n)%nat by lia. reflexivity.
Qed.

Lemma major_rows_from_length drs k base :
  length (major_rows_from drs k base) = length base.
Proof. revert k. induction base as [|b base IH]; intros k; cbn; [reflexivity|]. rewrite IH. reflexivity. Qed.

Lemma major_rows_from_pk drs k base :
  map b_pk (map fst (major_rows_from drs k base)) = map b_pk base.
Proof. revert k. induction base as [|b base IH]; intros k; cbn; [reflexivity|]. rewrite IH. reflexivity. Qed.

Lemma newest_ts_bounded now dflt c :
  dflt <= now -> bounded_by now c -> newest_ts dflt c <= now.
Proof.
  revert dflt. induction c as [|tm c IH]; intros dflt Hd Hb.
  - unfold newest_ts. cbn. exact Hd.
  - rewrite newest_ts_cons. apply Forall_cons in Hb as [Htm Hb]. apply IH; assumption.
Qed.

(** A major delta compaction folds, for every row, the flushed redo deltas
    into the base. *)
Lemma major_compact_drs_evolves now drs :
  Forall (history_ok now) (drs_histories drs) ->
  Forall2 (evolves now) (drs_histories drs) (drs_histories (major_compact_drs drs)).
Proof.
  intros Hok. apply Forall2_same_length_lookup_2.
  - unfold drs_histories. rewrite !drs_histories_from_length. cbn.
    rewrite length_map, major_rows_from_length. reflexivity.
  - intros n h h'. rewrite !drs_histories_lookup. cbn [major_compact_drs base_data].
    change (map fst (major_rows_from drs 0 (base_data drs)))
      with (fst <$> major_rows_from drs 0 (base_data drs)).
    rewrite list_lookup_fmap, major_rows_from_lookup.
    destruct (base_data drs !! n) as [b|] eqn:Hb; cbn; [|discriminate].
    intros [= <-] [= <-].
    assert (Hh : history_ok now (drs_history drs n b)).
    { eapply Forall_lookup_1; [exact Hok|]. rewrite drs_histories_lookup, Hb. reflexivity. }
    destruct Hh as (Hu & Hr & Hbd & Hts). cbn in Hu, Hr, Hbd, Hts.
    unfold redo_stream in Hr, Hbd. rewrite deltas_of_app in Hr, Hbd.
    apply ascending_from_app in Hr as [Hr1 Hr2].
    apply Forall_app in Hbd as [Hb1 Hb2].
    destruct (ascending_newest _ _ Hr1) as [Hge Hbn].
    set (r1 := deltas_of n (concat (redo_files drs))) in *.
    set (r2 := deltas_of n (dms drs)) in *.
    assert (Heq : drs_history (major_compact_drs drs) n (major_row drs n b).1
                  = rebase_onto (newest_ts (b_ts b) r1) (drs_history drs n b) r1 r2).
    { unfold drs_history, rebase_onto, major_compact_drs, redo_stream.
      cbn [undo_file redo_files dms concat app h_pk h_base_ts h_base h_undo h_redo].
      rewrite deltas_of_emit_from. cbn [Nat.leb]. rewrite Nat.sub_0_r.
      change (map snd (major_rows_from drs 0 (base_data drs)))
        with (snd <$> major_rows_from drs 0 (base_data drs)).
      rewrite list_lookup_fmap, major_rows_from_lookup, Hb. reflexivity. }
    change (evolves now (drs_history drs n b)
              (drs_history (major_compact_drs drs) n (major_row drs n b).1)).
    rewrite Heq. constructor.
    + cbn. unfold redo_stream. rewrite deltas_of_app. reflexivity.
    + exact Hge.
    + apply newest_ts_bounded; assumption.
    + exact Hbn.
    + exact Hr2.
Qed.

Lemma major_compact_drs_pk drs :
  map b_pk (base_data (major_compact_drs drs)) = map b_pk (base_data drs).
Proof. cbn. apply major_rows_from_pk. Qed.

Lemma Forall2_concat {A B : Type} (R : A -> B -> Prop) ls ls' :
  Forall2 (Forall2 R) ls ls' -> Forall2 R (concat ls) (concat ls').
Proof.
  induction 1 as [|l l' ls ls' Hl Hls IH]; cbn; [constructor|].
  apply Forall2_app; assumption.
Qed.

Lemma Forall2_evolves_refl now l : Forall2 (evolves now) l l.
Proof. induction l; constructor; [constructor | assumption]. Qed.

Lemma Forall_concat_1 {A : Type} (P : A -> Prop) (ls : list (list A)) :
  Forall P (concat ls) -> Forall (Forall P) ls.
Proof.
  induction ls as [|l ls IH]; cbn; [constructor|].
  intros [Hl Hls]%Forall_app. constructor; [exact Hl | apply IH; exact Hls].
Qed.

Lemma alter_major_evolves now idx l :
  Forall (Forall (history_ok now)) (map drs_histories l) ->
  Forall2 (Forall2 (evolves now)) (map drs_histories l)
    (map drs_histories (alter major_compact_drs idx l)).
Proof.
  revert idx. induction l as [|drs l IH]; intros idx Hok; [constructor|].
  cbn in Hok. apply Forall_cons in Hok as [Hd Hok].
  destruct idx as [|idx]; cbn; constructor.
  - apply major_compact_drs_evolves. exact Hd.
  - clear. induction l; constructor; [apply Forall2_evolves_refl | assumption].
  - apply Forall2_evolves_refl.
  - apply IH. exact Hok.
Qed.

(** ** Flushes and compactions on the stores *)

Lemma flush_dms_histories idx s :
  tablet_histories (flush_dms idx s) = tablet_histories s.
Proof.
  unfold tablet_histories, flush_dms, update_drs. cbn [mrs drss].
  rewrite (alter_drs_histories _ _ _ flush_dms_drs_histories). reflexivity.
Qed.

Lemma minor_compact_histories idx s :
  tablet_histories (minor_compact idx s) = tablet_histories s.
Proof.
  unfold tablet_histories, minor_compact, update_drs. cbn [mrs drss].
  rewrite (alter_drs_histories _ _ _ minor_compact_drs_histories). reflexivity.
Qed.

Lemma major_compact_maintained now idx s :
  stores_ok now s ->
  maintained now (tablet_histories s) (tablet_histories (major_compact idx s)).
Proof.
  intros (_ & Hok & _ & _). unfold tablet_histories in *.
  apply Forall_app in Hok as [Hm Hd].
  exists (map mrs_history (mrs s)
          ++ concat (map drs_histories (alter major_compact_drs idx (drss s)))).
  split; [|reflexivity].
  apply Forall2_app; [apply Forall2_evolves_refl|].
  apply Forall2_concat, alter_major_evolves, Forall_concat_1. exact Hd.
Qed.

Lemma rebase_redo_nil ts (l : list RowHistory) :
  Forall (fun h => h_redo h = []) (map (rebase ts) l).
Proof. induction l; constructor; [reflexivity | assumption]. Qed.

Lemma rebase_pk ts (l : list RowHistory) : map h_pk (map (rebase ts) l) = map h_pk l.
Proof. rewrite map_map. reflexivity. Qed.

Lemma Forall2_rebase now ts l :
  Forall (history_ok now) l -> now <= ts ->
  Forall2 (evolves ts) l (map (rebase ts) l).
Proof.
  intros Hok Hle. induction Hok as [|h l Hh Hl IH]; cbn; constructor; [|exact IH].
  apply (evolves_rebase_all now); assumption.
Qed.

Lemma flush_mrs_histories ts s :
  tablet_histories (flush_mrs ts s)
  = concat (map drs_histories (drss s)) ++ map (rebase ts) (map mrs_history (mrs s)).
Proof.
  unfold tablet_histories, flush_mrs. destruct (mrs s) as [|e m] eqn:Hm.
  - cbn. rewrite Hm. cbn. rewrite app_nil_r. reflexivity.
  - rewrite <- Hm. cbn [mrs drss]. rewrite map_app, concat_app.
    change (map mrs_history [] ++ ?x) with x.
    cbn [map concat]. rewrite app_nil_r, build_drs_histories.
    + rewrite map_map. reflexivity.
    + rewrite <- (map_map mrs_history (rebase ts)). apply rebase_redo_nil.
Qed.

Lemma flush_mrs_maintained now ts s :
  stores_ok now s -> now <= ts ->
  maintained ts (tablet_histories s) (tablet_histories (flush_mrs ts s)).
Proof.
  intros (_ & Hok & _ & _) Hle. rewrite flush_mrs_histories.
  unfold tablet_histories in *. apply Forall_app in Hok as [Hm Hd].
  exists (map (rebase ts) (map mrs_history (mrs s))
          ++ concat (map drs_histories (drss s))).
  split; [|apply Permutation_app_comm].
  apply Forall2_app; [|apply Forall2_evolves_refl].
  apply (Forall2_rebase now); assumption.
Qed.

(** The rows a merging compaction writes out. *)
Definition merged_rows (ts : Timestamp) (l : list DiskRowSet) : list RowHistory :=
  foldr (list_merge pk_le) [] (map (fun drs => map (rebase ts) (drs_histories drs)) l).

Lemma merged_rows_Permutation ts l :
  merged_rows ts l ≡ₚ map (rebase ts) (concat (map drs_histories l)).
Proof.
  unfold merged_rows.
  rewrite (merge_all_Permutation h_pk pk_le_dec).
  rewrite concat_map, map_map. reflexivity.
Qed.

Lemma compact_all_histories ts s :
  drss s <> [] ->
  tablet_histories (compact_all ts s)
  = map mrs_history (mrs s) ++ merged_rows ts (drss s).
Proof.
  intros Hne. unfold tablet_histories, compact_all.
  destruct (drss s) as [|drs l] eqn:Hd; [contradiction|].
  cbn [mrs drss map concat]. rewrite app_nil_r. fold (merged_rows ts (drs :: l)).
  rewrite build_drs_histories; [reflexivity|].
  assert (Hp := merged_rows_Permutation ts (drs :: l)).
  rewrite Hp. apply rebase_redo_nil.
Qed.

Lemma compact_all_maintained now ts s :
  stores_ok now s -> now <= ts ->
  maintained ts (tablet_histories s) (tablet_histories (compact_all ts s)).
Proof.
  intros (_ & Hok & _ & _) Hle.
  destruct (drss s) as [|drs l] eqn:Hd.
  - unfold compact_all. rewrite Hd. apply maintained_refl.
  - rewrite compact_all_histories by (rewrite Hd; discriminate).
    unfold tablet_histories in *. apply Forall_app in Hok as [Hm Hds].
    exists (map mrs_history (mrs s)
            ++ map (rebase ts) (concat (map drs_histories (drss s)))).
    split.
    + apply Forall2_app; [apply Forall2_evolves_refl|].
      apply (Forall2_rebase now); assumption.
    + rewrite merged_rows_Permutation. reflexivity.
Qed.

(** The control records of the log, and the time after each. *)
Definition is_control (r : LogRecord) : bool :=
  match r with MutationBatch _ _ => false | _ => true end.

Definition time_after (now : Timestamp) (r : LogRecord) : Timestamp :=
  match r with
  | MutationBatch ts _ | FlushMarker ts | CompactionMarker ts => ts
  | _ => now
  end.

Lemma control_maintained now r s :
  is_control r = true -> stores_ok now s -> now <= time_after now r ->
  maintained (time_after now r) (tablet_histories s) (tablet_histories (exec r s)).
Proof.
  intros Hc Hok Hle.
  destruct r as [ts ops|ts|idx|idx|idx|ts]; cbn [exec time_after is_control] in *.
  - discriminate.
  - apply (flush_mrs_maintained now); assumption.
  - rewrite flush_dms_histories. apply maintained_refl.
  - rewrite minor_compact_histories. apply maintained_refl.
  - apply major_compact_maintained. exact Hok.
  - apply (compact_all_maintained now); assumption.
Qed.

Lemma strictly_sorted_rebased ts drs :
  strictly_sorted b_pk (base_data drs) ->
  Sorted (by_key_le h_pk) (map (rebase ts) (drs_histories drs)).
Proof.
  intros Hs. apply strictly_sorted_Sorted. unfold strictly_sorted in *.
  rewrite rebase_pk, drs_histories_pk. exact Hs.
Qed.

Lemma control_sorted now r s :
  is_control r = true -> stores_ok now s ->
  NoDup (map h_pk (tablet_histories (exec r s))) ->
  strictly_sorted m_pk (mrs (exec r s))
  /\ Forall (fun drs => strictly_sorted b_pk (base_data drs)) (drss (exec r s)).
Proof.
  intros Hc (_ & _ & Hm & Hd) Hn.
  destruct r as [ts ops|ts|idx|idx|idx|ts]; cbn [exec] in *.
  - discriminate.
  - unfold flush_mrs. destruct (mrs s) as [|e m] eqn:Hmrs.
    + rewrite Hmrs. split; assumption.
    + cbn [mrs drss]. split; [constructor|].
      apply Forall_app. split; [exact Hd|]. constructor; [|constructor].
      unfold strictly_sorted in *. rewrite build_drs_pk, !map_map. exact Hm.
  - split; [exact Hm|]. cbn. apply alter_base_sorted; [|exact Hd].
    intros drs. unfold flush_dms_drs. destruct (dms drs); reflexivity.
  - split; [exact Hm|]. cbn. apply alter_base_sorted; [|exact Hd].
    intros drs. unfold minor_compact_drs. destruct (redo_files drs); reflexivity.
  - split; [exact Hm|]. cbn. apply alter_base_sorted; [|exact Hd].
    apply major_compact_drs_pk.
  - destruct (drss s) as [|drs l] eqn:Hdrss.
    + unfold compact_all. rewrite Hdrss. split; [exact Hm | rewrite Hdrss; constructor].
    + rewrite compact_all_histories in Hn by (rewrite Hdrss; discriminate).
      unfold compact_all. rewrite Hdrss. cbn [mrs drss]. split; [exact Hm|].
      constructor; [|constructor].
      rewrite <- Hdrss. fold (merged_rows ts (drss s)).
      unfold strictly_sorted. rewrite build_drs_pk.
      apply (Sorted_strictly_sorted h_pk).
      * apply (Sorted_merge_all h_pk pk_le_dec).
        apply Forall_map. rewrite Hdrss. eapply Forall_impl; [exact Hd|].
        intros d. apply strictly_sorted_rebased.
      * rewrite map_app in Hn. apply NoDup_app in Hn as (_ & _ & Hn). exact Hn.
Qed.

(** A flush or a compaction leaves the stores in order, and no read, at
    any read point, for any key, can tell that it happened. *)
Lemma control_preserves now r s :
  is_control r = true -> stores_ok now s -> now <= time_after now r ->
  stores_ok (time_after now r) (exec r s)
  /\ forall mode pk, point_read mode pk (exec r s) = point_read mode pk s.
Proof.
  intros Hc Hok Hle.
  pose proof (control_maintained now r s Hc Hok Hle) as Hm.
  destruct Hok as (Hn & Hh & Hsm & Hsd).
  destruct (maintained_reads now _ _ _ Hn Hh Hle Hm) as (Hn' & Hh' & Hr).
  destruct (control_sorted now r s Hc (conj Hn (conj Hh (conj Hsm Hsd))) Hn') as [Hsm' Hsd'].
  split; [repeat split; assumption|].
  intros mode pk. rewrite !point_read_histories. apply Hr.
Qed.

(** ** Scans *)

Lemma result_of_key mode h r : result_of mode h = Some r -> result_key r = h_pk h.
Proof. unfold result_of. destruct (history_state mode h); [|discriminate]. intros [= <-]. reflexivity. Qed.

Lemma omap_map {A B C : Type} (f : B -> option C) (g : A -> B) (l : list A) :
  omap f (map g l) = omap (fun a => f (g a)) l.
Proof. induction l as [|a l IH]; cbn; [reflexivity|]. rewrite IH. reflexivity. Qed.

Lemma omap_concat {A B : Type} (f : A -> option B) (ls : list (list A)) :
  omap f (concat ls) = concat (map (omap f) ls).
Proof.
  induction ls as [|l ls IH]; cbn; [reflexivity|]. rewrite omap_app, IH. reflexivity.
Qed.

(** An unordered scan returns the live rows among the histories. *)
Lemma scan_unordered_histories mode s :
  scan_unordered mode s = omap (result_of mode) (tablet_histories s).
Proof.
  unfold scan_unordered, tablet_histories, mrs_scan.
  rewrite omap_app, omap_map, omap_concat, map_map. reflexivity.
Qed.

Lemma scan_ordered_Permutation mode s : scan_ordered mode s ≡ₚ scan_unordered mode s.
Proof.
  unfold scan_ordered, scan_unordered.
  rewrite (merge_all_Permutation result_key key_le_dec). reflexivity.
Qed.

(** The rows kept of a list sorted by key are sorted by key. *)
Lemma strictly_sorted_omap {A B : Type} (f : A -> Z) (g : B -> Z)
    (sel : A -> option B) (l : list A) :
  (forall a b, sel a = Some b -> g b = f a) ->
  strictly_sorted f l -> strictly_sorted g (omap sel l).
Proof.
  intros Hkey. unfold strictly_sorted.
  induction l as [|a l IH]; cbn; [constructor|].
  intros Hs. apply StronglySorted_inv in Hs as [Hl Ha].
  destruct (sel a) as [b|] eqn:Hb; cbn; [|apply IH; exact Hl].
  constructor; [apply IH; exact Hl|].
  rewrite (Hkey a b Hb).
  apply (proj2 (Forall_map g (Z.lt (f a)) (omap sel l))).
  apply Forall_forall. intros b' Hb'.
  apply list_elem_of_omap in Hb' as (a' & Ha' & Hsel).
  rewrite (Hkey a' b' Hsel).
  pose proof (proj1 (Forall_map f (Z.lt (f a)) l) Ha) as Hall.
  rewrite Forall_forall in Hall. exact (Hall a' Ha').
Qed.

Lemma NoDup_omap_keys mode l :
  NoDup (map h_pk l) -> NoDup (map result_key (omap (result_of mode) l)).
Proof.
  induction l as [|h l IH]; cbn; [constructor|].
  intros [Hnot Hn]%NoDup_cons.
  destruct (result_of mode h) as [r|] eqn:Hr; cbn; [|apply IH; exact Hn].
  apply NoDup_cons. split; [|apply IH; exact Hn].
  intros Hin. apply Hnot.
  change (result_key r ∈ result_key <$> omap (result_of mode) l) in Hin.
  apply list_elem_of_fmap in Hin as (r' & Hk & Hr').
  apply list_elem_of_omap in Hr' as (h' & Hh' & Hres).
  rewrite <- (result_of_key mode h r Hr), Hk, (result_of_key mode h' r' Hres).
  apply (list_elem_of_fmap_2 h_pk). exact Hh'.
Qed.

Lemma mrs_scan_sorted mode m :
  strictly_sorted m_pk m -> strictly_sorted result_key (mrs_scan mode m).
Proof.
  apply strictly_sorted_omap. intros e r Hr. apply (result_of_key mode _ _ Hr).
Qed.

Lemma drs_scan_sorted mode drs :
  strictly_sorted b_pk (base_data drs) -> strictly_sorted result_key (drs_scan mode drs).
Proof.
  intros Hs. apply (strictly_sorted_omap h_pk).
  - intros h r Hr. apply (result_of_key mode _ _ Hr).
  - unfold strictly_sorted in *. rewrite drs_histories_pk. exact Hs.
Qed.

(** An ordered scan returns its rows by strictly ascending key. *)
Lemma scan_ordered_sorted now mode s :
  stores_ok now s -> strictly_sorted result_key (scan_ordered mode s).
Proof.
  intros (Hn & _ & Hm & Hd). apply Sorted_strictly_sorted.
  - unfold scan_ordered. apply (Sorted_merge_all result_key key_le_dec).
    constructor.
    + apply strictly_sorted_Sorted, mrs_scan_sorted. exact Hm.
    + apply Forall_map. eapply Forall_impl; [exact Hd|].
      intros drs Hs. apply strictly_sorted_Sorted, drs_scan_sorted. exact Hs.
  - change (NoDup (result_key <$> scan_ordered mode s)).
    rewrite scan_ordered_Permutation, scan_unordered_histories.
    apply NoDup_omap_keys. exact Hn.
Qed.

(** A row is returned exactly when a point read of its key shows it. *)
Lemma elem_of_scan_histories mode l r :
  NoDup (map h_pk l) ->
  (r ∈ omap (result_of mode) l
   <-> read_histories mode (result_key r) l = Some (result_val r)).
Proof.
  intros Hn. rewrite list_elem_of_omap. unfold read_histories. split.
  - intros (h & Hin & Hr).
    rewrite (find_has_pk_unique _ l h Hn Hin (eq_sym (result_of_key mode h r Hr))).
    unfold result_of in Hr. destruct (history_state mode h); [|discriminate].
    injection Hr as <-. reflexivity.
  - destruct (find (has_pk (result_key r)) l) as [h|] eqn:Hf; [|discriminate].
    apply find_has_pk_Some in Hf as [Hin Hpk]. intros Hst.
    exists h. split; [exact Hin|]. unfold result_of. rewrite Hst, Hpk.
    destruct r; reflexivity.
Qed.

Lemma elem_of_scan_ordered now mode s r :
  stores_ok now s ->
  (r ∈ scan_ordered mode s <-> point_read mode (result_key r) s = Some (result_val r)).
Proof.
  intros (Hn & _). rewrite scan_ordered_Permutation, scan_unordered_histories.
  rewrite point_read_histories. apply elem_of_scan_histories. exact Hn.
Qed.

(** Stores that agree on every point read return the same ordered scan. *)
Lemma scan_ordered_ext now now' mode s s' :
  stores_ok now s -> stores_ok now' s' ->
  (forall pk, point_read mode pk s' = point_read mode pk s) ->
  scan_ordered mode s' = scan_ordered mode s.
Proof.
  intros Hok Hok' Hread. apply (strictly_sorted_ext result_key).
  - apply (scan_ordered_sorted now'). exact Hok'.
  - apply (scan_ordered_sorted now). exact Hok.
  - intros r. rewrite (elem_of_scan_ordered now' mode s' r Hok').
    rewrite (elem_of_scan_ordered now mode s r Hok), Hread. reflexivity.
Qed.

Lemma filter_key_none mode k l :
  (forall h, h ∈ l -> h_pk h <> k) ->
  List.filter (fun r => result_key r =? k) (omap (result_of mode) l) = [].
Proof.
  induction l as [|h l IH]; intros Hk; cbn; [reflexivity|].
  assert (Hl : forall h', h' ∈ l -> h_pk h' <> k)
    by (intros h' Hh'; apply Hk; right; exact Hh').
  destruct (result_of mode h) as [r|] eqn:Hr; cbn; [|apply IH; exact Hl].
  rewrite (result_of_key mode h r Hr).
  destruct (Z.eqb_spec (h_pk h) k) as [Heq|_]; [|apply IH; exact Hl].
  exfalso. apply (Hk h); [left|exact Heq].
Qed.

(** A scan with the predicate [key = k] returns the row a point read of
    [k] shows, and nothing else. *)
Lemma filter_key_histories mode k l :
  NoDup (map h_pk l) ->
  List.filter (fun r => result_key r =? k) (omap (result_of mode) l)
  = match read_histories mode k l with
    | Some c => [mkRowResult k c]
    | None => []
    end.
Proof.
  unfold read_histories. induction l as [|h l IH]; cbn; [reflexivity|].
  intros [Hnot Hn]%NoDup_cons. unfold has_pk at 1.
  destruct (Z.eqb_spec (h_pk h) k) as [Heq|Hne].
  - assert (Hrest : List.filter (fun r => result_key r =? k) (omap (result_of mode) l) = []).
    { apply filter_key_none. intros h' Hh' Hk. apply Hnot. rewrite Heq, <- Hk.
      apply (list_elem_of_fmap_2 h_pk). exact Hh'. }
    unfold result_of at 1. destruct (history_state mode h) as [c|]; cbn.
    + rewrite Heq, Z.eqb_refl, Hrest. reflexivity.
    + exact Hrest.
  - destruct (result_of mode h) as [r|] eqn:Hr; cbn; [|apply IH; exact Hn].
    rewrite (result_of_key mode h r Hr).
    destruct (Z.eqb_spec (h_pk h) k); [contradiction|]. apply IH. exact Hn.
Qed.

Lemma filter_Permutation_key k (l l' : list RowResult) :
  l ≡ₚ l' ->
  List.filter (fun r => result_key r =? k) l
  ≡ₚ List.filter (fun r => result_key r =? k) l'.
Proof.
  induction 1 as [|x l l' Hp IH|x y l|l1 l2 l3 H1 IH1 H2 IH2]; cbn.
  - reflexivity.
  - destruct (result_key x =? k); [constructor|]; exact IH.
  - destruct (result_key x =? k), (result_key y =? k); try reflexivity. apply perm_swap.
  - etransitivity; eassumption.
Qed.

(** The scan [GetRow] makes. *)
Lemma scan_key_latest now order k s :
  stores_ok now s ->
  scan (mkScanSpec READ_LATEST order (Some k)) s
  = match point_read READ_LATEST k s with
    | Some c => [mkRowResult k c]
    | None => []
    end.
Proof.
  intros Hok. pose proof Hok as (Hn & _).
  rewrite point_read_histories, <- (filter_key_histories READ_LATEST k _ Hn).
  unfold scan. cbn [order_mode read_mode key_equals].
  destruct order; [rewrite scan_unordered_histories; reflexivity|].
  (* ordered: the same rows in key order; at most one has the key *)
  assert (Hp : List.filter (fun r => result_key r =? k) (scan_ordered READ_LATEST s)
               ≡ₚ List.filter (fun r => result_key r =? k)
                    (omap (result_of READ_LATEST) (tablet_histories s))).
  { apply filter_Permutation_key.
    rewrite scan_ordered_Permutation, scan_unordered_histories. reflexivity. }
  rewrite (filter_key_histories READ_LATEST k _ Hn) in Hp |- *.
  destruct (read_histories READ_LATEST k (tablet_histories s)).
  - apply Permutation_singleton_r in Hp. exact Hp.
  - apply Permutation_nil_r in Hp. exact Hp.
Qed.

(** ** The write path *)

(** A mutation appended to the redo chain of a history. *)
Definition push (tm : Stamped) (h : RowHistory) : RowHistory :=
  mkHistory (h_pk h) (h_base_ts h) (h_base h) (h_undo h) (h_redo h ++ [tm]).

(** ... of the first history for key [k]. *)
Fixpoint push_at (k : Z) (tm : Stamped) (l : list RowHistory) : list RowHistory :=
  match l with
  | [] => []
  | h :: rest => if has_pk k h then push tm h :: rest else h :: push_at k tm rest
  end.

Lemma push_at_app k tm l1 l2 :
  push_at k tm (l1 ++ l2)
  = match find (has_pk k) l1 with
    | Some _ => push_at k tm l1 ++ l2
    | None => l1 ++ push_at k tm l2
    end.
Proof.
  induction l1 as [|h l1 IH]; [reflexivity|]. cbn.
  destruct (has_pk k h); [reflexivity|]. rewrite IH.
  destruct (find (has_pk k) l1); reflexivity.
Qed.

Lemma push_at_pk k tm l : map h_pk (push_at k tm l) = map h_pk l.
Proof.
  induction l as [|h l IH]; [reflexivity|]. cbn.
  destruct (has_pk k h); cbn; [reflexivity|]. rewrite IH. reflexivity.
Qed.

Lemma mrs_append_histories k tm m :
  map mrs_history (mrs_append k tm m) = push_at k tm (map mrs_history m).
Proof.
  induction m as [|e m IH]; [reflexivity|]. cbn.
  unfold has_pk at 1. cbn. destruct (m_pk e =? k); cbn; [reflexivity|].
  rewrite IH. reflexivity.
Qed.

Lemma mrs_append_pk k tm m : map m_pk (mrs_append k tm m) = map m_pk m.
Proof.
  induction m as [|e m IH]; [reflexivity|]. cbn.
  destruct (m_pk e =? k); cbn; [reflexivity|]. rewrite IH. reflexivity.
Qed.

Lemma pk_index_from_ge o k base ord b :
  pk_index_from o k base = Some (ord, b) -> (o <= ord)%nat.
Proof.
  revert o. induction base as [|b' base IH]; intros o; cbn; [discriminate|].
  destruct (b_pk b' =? k); [intros [= <- _]; lia|].
  intros H. apply IH in H. lia.
Qed.

Lemma drs_history_add_delta ord ts m drs o b :
  drs_history (drs_add_delta (mkDelta ord ts m) drs) o b
  = if Nat.eqb ord o then push (ts, m) (drs_history drs o b) else drs_history drs o b.
Proof.
  unfold drs_history, drs_add_delta, redo_stream, push.
  cbn [undo_file redo_files dms base_data h_pk h_base_ts h_base h_undo h_redo].
  rewrite !deltas_of_app, deltas_of_dms_add. cbn [d_ord d_ts d_mut].
  destruct (Nat.eqb ord o); [rewrite app_assoc | rewrite app_nil_r]; reflexivity.
Qed.

Lemma drs_histories_from_add_other ord ts m drs o base :
  (ord < o)%nat ->
  drs_histories_from (drs_add_delta (mkDelta ord ts m) drs) o base
  = drs_histories_from drs o base.
Proof.
  revert o. induction base as [|b base IH]; intros o Ho; [reflexivity|].
  cbn. rewrite drs_history_add_delta, IH by lia.
  destruct (Nat.eqb_spec ord o); [lia | reflexivity].
Qed.

Lemma drs_histories_from_add ord ts m drs o k base b :
  pk_index_from o k base = Some (ord, b) ->
  drs_histories_from (drs_add_delta (mkDelta ord ts m) drs) o base
  = push_at k (ts, m) (drs_histories_from drs o base).
Proof.
  revert o. induction base as [|b' base IH]; intros o; cbn; [discriminate|].
  unfold has_pk at 1. cbn. rewrite drs_history_add_delta.
  destruct (b_pk b' =? k).
  - intros [= <- _]. rewrite Nat.eqb_refl, drs_histories_from_add_other by lia.
    reflexivity.
  - intros Hi. pose proof (pk_index_from_ge _ _ _ _ _ Hi).
    destruct (Nat.eqb_spec ord o); [lia|]. rewrite (IH _ Hi). reflexivity.
Qed.

Lemma locate_drs_from_ge idx0 k l idx ord b :
  locate_drs_from idx0 k l = InDRS idx ord b ->
  (idx0 <= idx)%nat
  /\ exists drs, l !! (idx - idx0)%nat = Some drs /\ pk_index drs k = Some (ord, b).
Proof.
  revert idx0. induction l as [|drs l IH]; intros idx0; cbn; [discriminate|].
  destruct (pk_index drs k) as [[o b']|] eqn:Hp.
  - intros [= <- <- <-]. split; [lia|]. rewrite Nat.sub_diag. eauto.
  - intros H. apply IH in H as (Hge & drs' & Hl & Hp'). split; [lia|].
    exists drs'. split; [|exact Hp'].
    replace (idx - idx0)%nat with (S (idx - S idx0)) by lia. exact Hl.
Qed.

Lemma alter_add_histories idx0 k l idx ord b ts m :
  locate_drs_from idx0 k l = InDRS idx ord b ->
  concat (map drs_histories (alter (drs_add_delta (mkDelta ord ts m)) (idx - idx0)%nat l))
  = push_at k (ts, m) (concat (map drs_histories l)).
Proof.
  revert idx0. induction l as [|drs l IH]; intros idx0; cbn [locate_drs_from]; [discriminate|].
  cbn [map concat]. rewrite push_at_app. unfold drs_histories at 2.
  rewrite find_drs_histories_from. fold (pk_index drs k).
  destruct (pk_index drs k) as [[o b']|] eqn:Hp.
  - intros [= <- <- <-]. rewrite Nat.sub_diag. cbn.
    unfold drs_histories. cbn [drs_add_delta base_data].
    rewrite (drs_histories_from_add o ts m drs 0 k (base_data drs) b' Hp). reflexivity.
  - intros H. pose proof (locate_drs_from_ge _ _ _ _ _ _ H) as [Hge _].
    replace (idx - idx0)%nat with (S (idx - S idx0)) by lia. cbn.
    rewrite (IH _ H). reflexivity.
Qed.

Lemma find_drs_located k all idx l :
  drop idx all = l ->
  find (has_pk k) (concat (map drs_histories l))
  = match locate_drs_from idx k l with
    | InDRS i ord b => (fun drs => drs_history drs ord b) <$> (all !! i)
    | _ => None
    end.
Proof.
  revert idx. induction l as [|drs l IH]; intros idx Hdrop; [reflexivity|].
  cbn [map concat locate_drs_from]. rewrite find_app.
  unfold drs_histories at 1. rewrite find_drs_histories_from. fold (pk_index drs k).
  assert (Hidx : all !! idx = Some drs).
  { rewrite <- (Nat.add_0_r idx), <- lookup_drop, Hdrop. reflexivity. }
  destruct (pk_index drs k) as [[ord b]|]; cbn.
  - rewrite Hidx. reflexivity.
  - apply (IH (S idx)). replace (S idx) with (idx + 1)%nat by lia.
    rewrite <- drop_drop, Hdrop. reflexivity.
Qed.

(** Where a key is located, in terms of the histories. *)
Lemma find_located k s :
  find (has_pk k) (tablet_histories s)
  = match locate k s with
    | InMRS e => Some (mrs_history e)
    | InDRS idx ord b => (fun drs => drs_history drs ord b) <$> (drss s !! idx)
    | Nowhere => None
    end.
Proof.
  unfold tablet_histories, locate, mrs_find. rewrite find_app, find_map.
  change (fun a => has_pk k (mrs_history a)) with (fun e => m_pk e =? k).
  destruct (find (fun e => m_pk e =? k) (mrs s)) as [e|]; [reflexivity|]. cbn.
  rewrite (find_drs_located k (drss s) 0 (drss s) eq_refl).
  pose proof (locate_drs_from_not_mrs 0 k (drss s)) as Hn.
  destruct (locate_drs_from 0 k (drss s)); [destruct (Hn e); reflexivity | |]; reflexivity.
Qed.

Lemma filter_visible_latest c : List.filter (visible_at READ_LATEST) c = c.
Proof. induction c as [|tm c IH]; cbn; [reflexivity|]. rewrite IH. reflexivity. Qed.

Lemma history_state_latest h :
  history_state READ_LATEST h = apply_chain (h_redo h) (h_base h).
Proof. unfold history_state. cbn. rewrite filter_visible_latest. reflexivity. Qed.

Lemma history_state_latest_push tm h :
  history_state READ_LATEST (push tm h)
  = apply_mutation (snd tm) (history_state READ_LATEST h).
Proof. rewrite !history_state_latest. cbn. rewrite apply_chain_app. reflexivity. Qed.

Lemma read_push_at mode k tm l k' :
  read_histories mode k' (push_at k tm l)
  = if k' =? k then
      match find (has_pk k) l with
      | Some h => history_state mode (push tm h)
      | None => None
      end
    else read_histories mode k' l.
Proof.
  unfold read_histories. induction l as [|h l IH]; cbn [push_at find].
  - destruct (k' =? k); reflexivity.
  - destruct (has_pk k h) eqn:Hk; cbn [find].
    + change (has_pk k' (push tm h)) with (has_pk k' h).
      unfold has_pk in Hk. apply Z.eqb_eq in Hk.
      destruct (has_pk k' h) eqn:Hk'; unfold has_pk in Hk'.
      * apply Z.eqb_eq in Hk'. rewrite <- Hk', Hk, Z.eqb_refl. reflexivity.
      * apply Z.eqb_neq in Hk'.
        destruct (Z.eqb_spec k' k); [congruence | reflexivity].
    + unfold has_pk in Hk. apply Z.eqb_neq in Hk.
      destruct (has_pk k' h) eqn:Hk'; unfold has_pk in Hk'.
      * apply Z.eqb_eq in Hk'.
        destruct (Z.eqb_spec k' k); [congruence | reflexivity].
      * exact IH.
Qed.

Lemma push_ok now ts m h :
  history_ok now h -> now <= ts -> history_ok ts (push (ts, m) h).
Proof.
  intros (Hu & Hr & Hb & Hts) Hle. unfold history_ok, push. cbn.
  split; [exact Hu|]. split; [|split; [|lia]].
  - apply ascending_from_app. split; [exact Hr|]. cbn. split; [|exact I].
    pose proof (newest_ts_bounded now (h_base_ts h) (h_redo h) Hts Hb). lia.
  - apply Forall_app. split; [|constructor; [cbn; lia | constructor]].
    eapply Forall_impl; [exact Hb|]. cbn. intros. lia.
Qed.

Lemma push_at_ok now ts k m l :
  Forall (history_ok now) l -> now <= ts ->
  Forall (history_ok ts) (push_at k (ts, m) l).
Proof.
  intros Hok Hle. induction Hok as [|h l Hh Hl IH]; cbn; [constructor|].
  destruct (has_pk k h); constructor.
  - apply (push_ok now); assumption.
  - eapply Forall_impl; [exact Hl|]. intros h'. apply history_ok_mono. exact Hle.
  - apply (history_ok_mono now); assumption.
  - exact IH.
Qed.

(** ** A new row in the MemRowSet *)

Lemma mrs_add_Permutation e m : mrs_add e m ≡ₚ e :: m.
Proof.
  induction m as [|e' m IH]; cbn; [reflexivity|].
  destruct (m_pk e <? m_pk e'); [reflexivity|].
  rewrite IH. apply perm_swap.
Qed.

Lemma mrs_add_sorted e m :
  strictly_sorted m_pk m -> m_pk e ∉ map m_pk m -> strictly_sorted m_pk (mrs_add e m).
Proof.
  unfold strictly_sorted. induction m as [|e' m IH]; cbn; intros Hs Hnot.
  - repeat constructor.
  - apply StronglySorted_inv in Hs as [Hm He'].
    assert (Hne : m_pk e <> m_pk e')
      by (intros Heq; apply Hnot, elem_of_cons; left; exact Heq).
    assert (Hnot' : m_pk e ∉ map m_pk m)
      by (intros Hin; apply Hnot, elem_of_cons; right; exact Hin).
    destruct (Z.ltb_spec (m_pk e) (m_pk e')) as [Hlt|Hge]; cbn.
    + constructor; [constructor; assumption|].
      constructor; [exact Hlt|]. eapply Forall_impl; [exact He'|]. cbn. intros. lia.
    + constructor; [apply IH; assumption|].
      change (Forall (Z.lt (m_pk e')) (m_pk <$> mrs_add e m)).
      rewrite mrs_add_Permutation. cbn. constructor; [lia | exact He'].
Qed.

(** ** A write, seen through latest reads *)

(** The table a tablet shows: what a latest point read returns, by key. *)
Definition latest (s : Stores) : Logical.Table := fun k => point_read READ_LATEST k s.

Lemma latest_histories s k :
  latest s k = read_histories READ_LATEST k (tablet_histories s).
Proof. apply point_read_histories. Qed.

(** The mutation an operation resolves to does to the row what the
    operation is to do to the table.  [stored] tells whether a store holds
    the key; a live row is stored. *)
Lemma resolve_row_write type colset stored (st : RowState) :
  (is_Some st -> stored = true) ->
  match resolve type colset stored (bool_decide (is_Some st)) with
  | inl err => Logical.row_write type colset st = inl err
  | inr m =>
      Logical.row_write type colset st = inr (apply_mutation m st)
      /\ (if stored then forall c, m <> Insert c else exists c, m = Insert c)
  end.
Proof.
  intros Hst. destruct st as [c|].
  - rewrite (Hst (mk_is_Some _ _ eq_refl)).
    destruct type, colset as [[v|]|]; cbn; try reflexivity; split;
      try reflexivity; intros; discriminate.
  - destruct type, stored, colset as [[v|]|]; cbn; try reflexivity; split;
      try reflexivity; try (intros; discriminate); eauto.
Qed.

Lemma write_existing now ts s s' pk m h :
  stores_ok now s -> now <= ts ->
  find (has_pk pk) (tablet_histories s) = Some h ->
  tablet_histories s' = push_at pk (ts, m) (tablet_histories s) ->
  strictly_sorted m_pk (mrs s') ->
  Forall (fun drs => strictly_sorted b_pk (base_data drs)) (drss s') ->
  stores_ok ts s'
  /\ forall k,
      latest s' k
      = Logical.table_set pk (apply_mutation m (history_state READ_LATEST h)) (latest s) k.
Proof.
  intros (Hn & Hok & _ & _) Hle Hfind Hh Hsm Hsd. split.
  - repeat split; try assumption.
    + rewrite Hh, push_at_pk. exact Hn.
    + rewrite Hh. apply (push_at_ok now); assumption.
  - intros k. unfold Logical.table_set.
    rewrite !latest_histories, Hh, read_push_at, Hfind.
    destruct (k =? pk); [|reflexivity].
    apply (history_state_latest_push (ts, m) h).
Qed.

Lemma write_new now ts s pk cols :
  stores_ok now s -> now <= ts ->
  find (has_pk pk) (tablet_histories s) = None ->
  stores_ok ts (mkStores (mrs_add (mkMRSEntry pk cols ts []) (mrs s)) (drss s))
  /\ forall k,
      latest (mkStores (mrs_add (mkMRSEntry pk cols ts []) (mrs s)) (drss s)) k
      = Logical.table_set pk (Some cols) (latest s) k.
Proof.
  intros (Hn & Hok & Hsm & Hsd) Hle Hfind.
  set (e := mkMRSEntry pk cols ts []).
  set (s' := mkStores (mrs_add e (mrs s)) (drss s)).
  assert (Hp : tablet_histories s' ≡ₚ mrs_history e :: tablet_histories s).
  { unfold tablet_histories, s'. cbn [mrs drss].
    change (map mrs_history (mrs_add e (mrs s))) with (mrs_history <$> mrs_add e (mrs s)).
    rewrite mrs_add_Permutation. reflexivity. }
  assert (Hfresh : pk ∉ map h_pk (tablet_histories s)).
  { intros Hin. change (pk ∈ h_pk <$> tablet_histories s) in Hin.
    apply list_elem_of_fmap in Hin as (h & Hk & Hin).
    apply (find_has_pk_None pk _ Hfind h Hin). symmetry. exact Hk. }
  assert (Hn' : NoDup (map h_pk (mrs_history e :: tablet_histories s))).
  { cbn. apply NoDup_cons. split; assumption. }
  split.
  - repeat split.
    + change (NoDup (h_pk <$> tablet_histories s')). rewrite Hp. exact Hn'.
    + rewrite Hp. constructor.
      * unfold history_ok, e. cbn. repeat split; try lia. constructor.
      * eapply Forall_impl; [exact Hok|]. intros h. apply history_ok_mono. exact Hle.
    + apply mrs_add_sorted; [exact Hsm|]. intros Hin. apply Hfresh.
      unfold tablet_histories. rewrite map_app, map_map.
      apply elem_of_app. left. exact Hin.
    + exact Hsd.
  - intros k. unfold Logical.table_set. rewrite !latest_histories.
    rewrite (read_histories_Permutation READ_LATEST k _ _ Hn' (symmetry Hp)).
    unfold read_histories at 1. cbn [find]. unfold has_pk at 1. cbn [mrs_history h_pk e m_pk].
    rewrite (Z.eqb_sym pk k).
    destruct (k =? pk); reflexivity.
Qed.

(** A write at a timestamp that is not in the past leaves the stores in
    order and acts on the table they show as the operation is to act. *)
Lemma apply_write_spec now ts op s :
  stores_ok now s -> now <= ts ->
  stores_ok ts (snd (apply_write ts op s))
  /\ fst (apply_write ts op s) = fst (Logical.logical_write op (latest s))
  /\ forall k,
      latest (snd (apply_write ts op s)) k
      = snd (Logical.logical_write op (latest s)) k.
Proof.
  intros Hok Hle.
  assert (Hsame : stores_ok ts s) by (apply (stores_ok_mono now); assumption).
  unfold apply_write, Logical.logical_write.
  destruct (key_column (write_row op)) as [| |pk]; [easy | easy |].
  set (colset := colset_of (val_column (write_row op))).
  pose proof (find_located pk s) as Hfind.
  assert (Hlatest : latest s pk = point_read READ_LATEST pk s) by reflexivity.
  unfold point_read in Hlatest.
  destruct (locate pk s) as [e|idx ord b|] eqn:Hloc.
  - (* the row is in the MemRowSet *)
    rewrite Hlatest.
    pose proof (resolve_row_write (write_type op) colset true
                  (history_state READ_LATEST (mrs_history e)) (fun _ => eq_refl)) as Hres.
    destruct (resolve _ _ _ _) as [err|m]; [rewrite Hres; easy|].
    destruct Hres as [-> _]. cbn [fst snd].
    destruct (write_existing now ts s
                (mkStores (mrs_append pk (ts, m) (mrs s)) (drss s)) pk m (mrs_history e)
                Hok Hle Hfind) as [Hok' Hread].
    + unfold tablet_histories. cbn [mrs drss].
      rewrite mrs_append_histories, push_at_app.
      unfold locate in Hloc. unfold mrs_find in Hloc.
      rewrite find_map.
      change (fun a => has_pk pk (mrs_history a)) with (fun e => m_pk e =? pk).
      destruct (find (fun e => m_pk e =? pk) (mrs s)); [reflexivity|].
      destruct (locate_drs_from_not_mrs _ _ _ _ Hloc).
    + unfold strictly_sorted. cbn. rewrite mrs_append_pk. apply Hok.
    + apply Hok.
    + split; [exact Hok'|]. split; [reflexivity | exact Hread].
  - (* the row is in a DiskRowSet *)
    assert (Hdrs : locate_drs_from 0 pk (drss s) = InDRS idx ord b).
    { unfold locate in Hloc. destruct (mrs_find pk (mrs s)); [discriminate | exact Hloc]. }
    destruct (locate_drs_from_ge _ _ _ _ _ _ Hdrs) as (_ & drs & Hidx & Hpk).
    rewrite Nat.sub_0_r in Hidx. rewrite Hidx in Hlatest, Hfind |- *.
    cbn in Hfind. rewrite Hlatest.
    pose proof (resolve_row_write (write_type op) colset true
                  (history_state READ_LATEST (drs_history drs ord b)) (fun _ => eq_refl))
      as Hres.
    destruct (resolve _ _ _ _) as [err|m]; [rewrite Hres; easy|].
    destruct Hres as [-> _]. cbn [fst snd].
    destruct (write_existing now ts s
                (mkStores (mrs s)
                   (update_drs idx (drs_add_delta (mkDelta ord ts m)) (drss s)))
                pk m (drs_history drs ord b) Hok Hle Hfind) as [Hok' Hread].
    + unfold tablet_histories, update_drs. cbn [mrs drss].
      rewrite push_at_app.
      assert (Hm : find (has_pk pk) (map mrs_history (mrs s)) = None).
      { rewrite find_map. change (fun a => has_pk pk (mrs_history a))
          with (fun e => m_pk e =? pk).
        unfold locate, mrs_find in Hloc.
        destruct (find (fun e => m_pk e =? pk) (mrs s)); [discriminate | reflexivity]. }
      rewrite Hm. f_equal.
      pose proof (alter_add_histories 0 pk (drss s) idx ord b ts m Hdrs) as Ha.
      rewrite Nat.sub_0_r in Ha. exact Ha.
    + apply Hok.
    + cbn. apply alter_base_sorted; [reflexivity | apply Hok].
    + split; [exact Hok'|]. split; [reflexivity | exact Hread].
  - (* no store holds the key *)
    rewrite Hlatest.
    pose proof (resolve_row_write (write_type op) colset false None
                  (fun H => match is_Some_None H with end)) as Hres.
    change (bool_decide (is_Some (@None (option Z)))) with false in Hres.
    destruct (resolve _ _ _ _) as [err|m]; [rewrite Hres; easy|].
    destruct Hres as [-> [c ->]]. cbn [fst snd apply_mutation].
    destruct (write_new now ts s pk c Hok Hle Hfind) as [Hok' Hread].
    split; [exact Hok'|]. split; [reflexivity | exact Hread].
Qed.

Lemma apply_batch_spec now ts ops s :
  stores_ok now s -> now <= ts ->
  stores_ok ts (snd (apply_batch ts ops s))
  /\ fst (apply_batch ts ops s) = fst (Logical.logical_batch ops (latest s))
  /\ forall k,
      latest (snd (apply_batch ts ops s)) k
      = snd (Logical.logical_batch ops (latest s)) k.
Proof.
  revert now s. induction ops as [|op ops IH]; intros now s Hok Hle.
  - cbn. split; [apply (stores_ok_mono now); assumption | easy].
  - cbn [apply_batch Logical.logical_batch].
    destruct (apply_write_spec now ts op s Hok Hle) as (Hok1 & Hst1 & Hrd1).
    destruct (apply_write ts op s) as [st1 s1]. cbn [fst snd] in *.
    destruct (Logical.logical_write op (latest s)) as [lst1 tbl1] eqn:Hl1.
    cbn [fst snd] in *.
    destruct (IH ts s1 Hok1 (Z.le_refl ts)) as (Hok2 & Hst2 & Hrd2).
    destruct (apply_batch ts ops s1) as [sts2 s2]. cbn [fst snd] in *.
    destruct (Logical.logical_batch_ext ops (latest s1) tbl1 Hrd1) as [He1 He2].
    destruct (Logical.logical_batch ops tbl1) as [lsts2 tbl2]. cbn [fst snd] in *.
    split; [exact Hok2|]. split.
    + rewrite Hst1, Hst2, He1. reflexivity.
    + intros k. rewrite Hrd2, He2. reflexivity.
Qed.

(** ** The tablet server *)

(** The tablet is in order: its stores are, at the time of its clock, and
    they are what a replay of its log rebuilds. *)
Definition tablet_ok (t : TabletState) : Prop :=
  stores_ok (clock t) (stores t) /\ replay (wal t) = stores t.

Lemma new_tablet_ok : tablet_ok new_tablet.
Proof. split; [apply stores_ok_empty | reflexivity]. Qed.

Lemma replay_snoc l r : replay (l ++ [r]) = exec r (replay l).
Proof. unfold replay. rewrite fold_left_app. reflexivity. Qed.

Lemma log_and_apply_control r t :
  is_control r = true -> tablet_ok t -> clock t <= time_after (clock t) r ->
  tablet_ok (log_and_apply (time_after (clock t) r) r t)
  /\ forall mode pk,
      point_read mode pk (stores (log_and_apply (time_after (clock t) r) r t))
      = point_read mode pk (stores t).
Proof.
  intros Hc [Hok Hre] Hle.
  destruct (control_preserves (clock t) r (stores t) Hc Hok Hle) as [Hok' Hr].
  split; [split|exact Hr]; cbn [log_and_apply clock stores wal].
  - exact Hok'.
  - rewrite replay_snoc, Hre. reflexivity.
Qed.

(** A call that succeeds, leaves the tablet in order, and that no read, at
    any read point, can tell from no call. *)
Definition unseen (call : TabletState -> Status * TabletState) : Prop :=
  forall t, tablet_ok t ->
    fst (call t) = OK
    /\ tablet_ok (snd (call t))
    /\ forall mode pk,
        point_read mode pk (stores (snd (call t))) = point_read mode pk (stores t).

Lemma unseen_nothing t : tablet_ok t ->
  @fst Status _ (OK, t) = OK /\ tablet_ok (snd (OK, t))
  /\ forall mode pk, point_read mode pk (stores (snd (OK, t))) = point_read mode pk (stores t).
Proof. intros Hok. split; [reflexivity|]. split; [exact Hok | reflexivity]. Qed.

Lemma tablet_flush_unseen : unseen tablet_flush.
Proof.
  intros t Hok. split; [reflexivity|].
  apply (log_and_apply_control (FlushMarker (now t)) t eq_refl Hok).
  cbn. unfold now. lia.
Qed.

Lemma tablet_flush_biggest_dms_unseen : unseen tablet_flush_biggest_dms.
Proof.
  intros t Hok. unfold tablet_flush_biggest_dms.
  destruct (biggest_dms (drss (stores t))) as [idx|]; [|apply unseen_nothing; exact Hok].
  split; [reflexivity|].
  apply (log_and_apply_control (DeltaFlushMarker idx) t eq_refl Hok). cbn. lia.
Qed.

Lemma tablet_compact_worst_deltas_unseen type :
  unseen (tablet_compact_worst_deltas type).
Proof.
  intros t Hok. unfold tablet_compact_worst_deltas.
  destruct (worst_deltas type (drss (stores t))) as [idx|];
    [|apply unseen_nothing; exact Hok].
  split; [reflexivity|]. destruct type.
  - apply (log_and_apply_control (MajorCompactionMarker idx) t eq_refl Hok). cbn. lia.
  - apply (log_and_apply_control (MinorCompactionMarker idx) t eq_refl Hok). cbn. lia.
Qed.

Lemma tablet_compact_unseen : unseen tablet_compact.
Proof.
  intros t Hok. split; [reflexivity|].
  apply (log_and_apply_control (CompactionMarker (now t)) t eq_refl Hok).
  cbn. unfold now. lia.
Qed.

Lemma tablet_restart_unseen : unseen tablet_restart.
Proof.
  intros t [Hok Hre]. unfold tablet_restart. cbn [fst snd stores].
  rewrite Hre. split; [reflexivity|]. split; [split; [exact Hok | exact Hre] | reflexivity].
Qed.

(** A scan leaves the stores as they are. *)
Lemma tablet_scan_ok spec t :
  tablet_ok t ->
  tablet_ok (snd (tablet_scan spec t)) /\ stores (snd (tablet_scan spec t)) = stores t.
Proof.
  intros [Hok Hre]. unfold tablet_scan. cbn [snd stores clock wal].
  split; [split; [|exact Hre] | reflexivity].
  apply (stores_ok_mono (clock t)); [|exact Hok].
  destruct (read_mode spec); cbn [clock]; lia.
Qed.

(** A session flush acts on the table the tablet shows as the batch is to
    act, operation by operation. *)
Lemma tablet_write_spec session t :
  tablet_ok t ->
  fst (tablet_write session t) = fst (Logical.logical_batch session (latest (stores t)))
  /\ tablet_ok (snd (tablet_write session t))
  /\ forall k,
      latest (stores (snd (tablet_write session t))) k
      = snd (Logical.logical_batch session (latest (stores t))) k.
Proof.
  intros [Hok Hre].
  destruct (apply_batch_spec (clock t) (now t) session (stores t) Hok
              ltac:(unfold now; lia)) as (Hok' & Hst & Hrd).
  unfold tablet_write, log_and_apply. cbn [fst snd stores clock wal exec].
  split; [exact Hst|]. split; [|exact Hrd].
  split; cbn [stores clock wal]; [exact Hok'|].
  rewrite replay_snoc, Hre. reflexivity.
Qed.

Lemma unseen_neutral call :
  unseen call -> Logical.neutral tablet_ok (fun t => latest (stores t)) call.
Proof.
  intros Hu t Hok. destruct (Hu t Hok) as (Hst & Hok' & Hrd).
  split; [exact Hst|]. split; [exact Hok'|]. intros k. apply Hrd.
Qed.

Lemma tablet_scan_table spec t :
  tablet_ok t ->
  tablet_ok (snd (Scan spec t))
  /\ forall k, latest (stores (snd (Scan spec t))) k = latest (stores t) k.
Proof.
  intros Hok. destruct (tablet_scan_ok spec t Hok) as [Hok' Heq].
  split; [exact Hok'|]. intros k. cbn [Scan tablet_server]. rewrite Heq. reflexivity.
Qed.

Lemma tablet_scan_key order k t :
  tablet_ok t ->
  fst (Scan (mkScanSpec READ_LATEST order (Some k)) t)
  = match latest (stores t) k with
    | Some c => [mkRowResult k c]
    | None => []
    end.
Proof. intros [Hok _]. apply (scan_key_latest (clock t)). exact Hok. Qed.

(** The tablet shows the table of the latest point reads. *)
#[export] Instance tablet_shows_table : Logical.ShowsTable TabletState := {|
  Logical.server_ok := tablet_ok;
  Logical.table := fun t => latest (stores t);
  Logical.scan_table := tablet_scan_table;
  Logical.scan_key := tablet_scan_key;
  Logical.write_table := tablet_write_spec;
  Logical.flush_neutral := unseen_neutral _ tablet_flush_unseen;
  Logical.flush_dms_neutral := unseen_neutral _ tablet_flush_biggest_dms_unseen;
  Logical.compact_deltas_neutral :=
    fun type => unseen_neutral _ (tablet_compact_worst_deltas_unseen type);
  Logical.compact_neutral := unseen_neutral _ tablet_compact_unseen;
  Logical.restart_neutral := unseen_neutral _ tablet_restart_unseen;
|}.

(** ** Scans of stores that read alike *)

Lemma NoDup_scan_histories mode l :
  NoDup (map h_pk l) -> NoDup (omap (result_of mode) l).
Proof. intros Hn. apply (NoDup_fmap_1 result_key). apply NoDup_omap_keys. exact Hn. Qed.

Lemma scan_unordered_ext now now' mode s s' :
  stores_ok now s -> stores_ok now' s' ->
  (forall pk, point_read mode pk s' = point_read mode pk s) ->
  scan_unordered mode s' ≡ₚ scan_unordered mode s.
Proof.
  intros (Hn & _) (Hn' & _) Hread. rewrite !scan_unordered_histories.
  apply NoDup_Permutation; [apply NoDup_scan_histories; assumption..|].
  intros r. rewrite !elem_of_scan_histories by assumption.
  rewrite <- !point_read_histories, Hread. reflexivity.
Qed.

(** Stores that agree on every point read return the same rows to every
    scan, and to an ordered scan the same list. *)
Lemma scan_ext now now' spec s s' :
  stores_ok now s -> stores_ok now' s' ->
  (forall mode pk, point_read mode pk s' = point_read mode pk s) ->
  scan spec s' ≡ₚ scan spec s
  /\ (order_mode spec = ORDERED -> scan spec s' = scan spec s).
Proof.
  intros Hok Hok' Hread. unfold scan. destruct (order_mode spec).
  - split; [|discriminate].
    pose proof (scan_unordered_ext now now' (read_mode spec) s s' Hok Hok'
                  (Hread (read_mode spec))) as Hp.
    destruct (key_equals spec); [apply filter_Permutation_key|]; exact Hp.
  - rewrite (scan_ordered_ext now now' (read_mode spec) s s' Hok Hok'
               (Hread (read_mode spec))).
    split; reflexivity.
Qed.

Lemma strictly_sorted_filter {A : Type} (f : A -> Z) (p : A -> bool) (l : list A) :
  strictly_sorted f l -> strictly_sorted f (List.filter p l).
Proof.
  unfold strictly_sorted. induction l as [|a l IH]; cbn; [constructor|].
  intros Hs. apply StronglySorted_inv in Hs as [Hl Ha].
  destruct (p a); cbn; [|apply IH; exact Hl].
  constructor; [apply IH; exact Hl|].
  apply (proj2 (Forall_map f (Z.lt (f a)) _)).
  pose proof (proj1 (Forall_map f (Z.lt (f a)) l) Ha) as Hall.
  clear -Hall. induction Hall as [|b l Hb Hl IH]; cbn; [constructor|].
  destruct (p b); [constructor; assumption | exact IH].
Qed.

(** An ordered scan, with or without a predicate on the key, returns its
    rows by strictly ascending key. *)
Lemma scan_sorted now spec s :
  stores_ok now s -> order_mode spec = ORDERED ->
  strictly_sorted result_key (scan spec s).
Proof.
  intros Hok Hord. unfold scan. rewrite Hord.
  pose proof (scan_ordered_sorted now (read_mode spec) s Hok) as Hs.
  destruct (key_equals spec); [apply strictly_sorted_filter|]; exact Hs.
Qed.

(** ** A write, seen through reads at any read point *)














End Tablet.

(* ===================================================================== *)
(** * A fuzz case, run against a tablet server that shows a table *)
(* ===================================================================== *)

Module FuzzRun.

Import MachineInt Fuzz Client KeyValue Harness Logical.

(** ** The keys of a validated sequence *)

Lemma ValidateFuzzCase_step_keys e op e' :
  ValidateFuzzCase_step e op = Done e' ->
  length e' = length e
  /\ (IsMutation (type op) = true -> 0 <= Fuzz.val op < Z.of_nat (length e)).
Proof.
  unfold ValidateFuzzCase_step, in_range. intros Hstep.
  destruct (type op); cbn [IsMutation];
    try (injection Hstep as <-; split; [reflexivity | discriminate]);
    destruct (Z.leb_spec 0 (Fuzz.val op)); cbn in Hstep; try discriminate Hstep;
    destruct (Z.ltb_spec (Fuzz.val op) (Z.of_nat (length e))); cbn in Hstep;
    try discriminate Hstep;
    try (destruct (default false (e !! Z.to_nat (Fuzz.val op))); try discriminate Hstep);
    injection Hstep as <-; rewrite ?length_insert; split; (reflexivity || lia).
Qed.

Lemma ValidateFuzzCase_loop_keys e ops e' :
  ValidateFuzzCase_loop e ops = Done e' -> keys_in_range (Z.of_nat (length e)) ops.
Proof.
  revert e. induction ops as [|op ops IH]; intros e Hrun; [constructor|].
  cbn [ValidateFuzzCase_loop] in Hrun.
  destruct (ValidateFuzzCase_step e op) as [e1|f|] eqn:Hstep; try discriminate Hrun.
  destruct (ValidateFuzzCase_step_keys e op e1 Hstep) as [Hlen Hk].
  constructor; [exact Hk|]. rewrite <- Hlen. apply (IH e1 Hrun).
Qed.

Lemma ValidateFuzzCase_keys_in_range ks ops u :
  ValidateFuzzCase ks ops = Done u -> keys_in_range ks ops.
Proof.
  unfold ValidateFuzzCase.
  destruct (ValidateFuzzCase_loop _ ops) as [e|f|] eqn:Hloop; try discriminate.
  intros _. apply ValidateFuzzCase_loop_keys in Hloop.
  rewrite length_replicate in Hloop.
  refine (Forall_impl _ _ _ Hloop _). intros op Hop Hm. specialize (Hop Hm). lia.
Qed.

(** ** The shadow model and the table *)

Section ShadowModel.

Context {T : Type} `{ShowsTable T}.

Variable keyspace_size : Z.
Variable schema_ : Schema.

(** The row [GetRow] returns for what the table holds at key [k]. *)
Definition view (k : Z) (row : option (option Z)) : option ExpectedKeyValueRow :=
  match row with
  | Some c => Some (read_row schema_ (mkRowResult k c))
  | None => None
  end.

(** [GetRow] reads the table, and leaves it as it is. *)
Lemma GetRow_table k server :
  server_ok server ->
  fst (GetRow schema_ k server) = view k (table server k)
  /\ server_ok (snd (GetRow schema_ k server))
  /\ forall k', table (snd (GetRow schema_ k server)) k' = table server k'.
Proof.
  intros Hok. unfold GetRow.
  pose proof (scan_key UNORDERED k server Hok) as Hrows.
  destruct (scan_table (mkScanSpec READ_LATEST UNORDERED (Some k)) server Hok)
    as [Hok' Htbl].
  destruct (Scan (mkScanSpec READ_LATEST UNORDERED (Some k)) server) as [rows server'].
  cbn [fst snd] in *. subst rows. split; [|split; assumption].
  unfold view. destruct (table server k); reflexivity.
Qed.

(** A vector of the shadow model agrees with a table: it has an entry for
    every key of the key space, the row [GetRow] would read there. *)
Definition shows (v : Snapshot) (tbl : Table) : Prop :=
  length v = Z.to_nat keyspace_size
  /\ forall k, 0 <= k < keyspace_size -> at_key v k = view k (tbl k).

Lemma shows_ext v tbl tbl' :
  (forall k, tbl' k = tbl k) -> shows v tbl -> shows v tbl'.
Proof.
  intros Heq [Hlen Hv]. split; [exact Hlen|].
  intros k Hk. rewrite Heq. apply Hv. exact Hk.
Qed.

Lemma at_key_insert v k k' row :
  0 <= k -> 0 <= k' -> (Z.to_nat k < length v)%nat ->
  at_key (<[Z.to_nat k := row]> v) k' = if k' =? k then row else at_key v k'.
Proof.
  intros Hk Hk' Hlt. unfold at_key.
  destruct (Z.eqb_spec k' k) as [->|Hne].
  - rewrite list_lookup_insert_eq by exact Hlt. reflexivity.
  - rewrite list_lookup_insert_ne by lia. reflexivity.
Qed.

(** What the harness expects of an operation on key [k]: whatever the
    table holds at [k], if it reads as [old] and the operation succeeds,
    the table reads as [new] afterwards. *)
Definition expects (op : KuduWriteOperation) (k : Z)
    (old new : option ExpectedKeyValueRow) : Prop :=
  key_column (write_row op) = SetTo k
  /\ forall e e',
      view k e = old ->
      row_write (write_type op) (colset_of (val_column (write_row op))) e = inr e' ->
      view k e' = new.

(** The invariant of [RunFuzzCase]'s loop: the server is in order;
    [cur_val] is what it shows; [pending_val] is what it will show once the
    session is flushed, if every operation of the session succeeds; no
    [EXPECT_EQ] has failed. *)
Record Inv (t : FuzzTest T) : Prop := mkInv {
  inv_server : server_ok (cluster_ t);
  inv_cur : shows (cur_val t) (table (cluster_ t));
  inv_length : length (pending_val t) = Z.to_nat keyspace_size;
  inv_pending :
    forallb ok (fst (logical_batch (session_ t) (table (cluster_ t)))) = true ->
    shows (pending_val t) (snd (logical_batch (session_ t) (table (cluster_ t))));
  inv_expect : expect_failures t = [];
}.

(** The server replaced by one that shows the same table. *)
Lemma Inv_set_cluster t server :
  Inv t -> server_ok server -> (forall k, table server k = table (cluster_ t) k) ->
  Inv (set_cluster server t).
Proof.
  intros [Hs Hc Hl Hp He] Hok Heq.
  destruct (logical_batch_ext (session_ t) _ _ Heq) as [Hst Htb].
  constructor; cbn [set_cluster cluster_ cur_val pending_val session_ expect_failures].
  - exact Hok.
  - apply (shows_ext _ (table (cluster_ t))); assumption.
  - exact Hl.
  - rewrite Hst. intros Hall. apply (shows_ext _ _ _ Htb). apply Hp. exact Hall.
  - exact He.
Qed.

(** An operation applied to the session, and its expected row put in
    [pending_val]. *)
Lemma Inv_apply t op k new i' :
  Inv t -> 0 <= k < keyspace_size ->
  expects op k (at_key (pending_val t) k) new ->
  Inv (mkFuzzTest (cluster_ t) (session_ t ++ [op]) (saved_values_ t) (cur_val t)
         (<[Z.to_nat k := new]> (pending_val t)) i' (expect_failures t)).
Proof.
  intros [Hs Hc Hl Hp He] Hk [Hkey Hexp].
  constructor; cbn [cluster_ cur_val pending_val session_ expect_failures];
    try assumption.
  - rewrite length_insert. exact Hl.
  - rewrite logical_batch_snoc. cbn [fst snd].
    rewrite forallb_app. intros [Hall Hop]%andb_true_iff.
    destruct (Hp Hall) as [_ Hshow].
    set (tbl := snd (logical_batch (session_ t) (table (cluster_ t)))) in *.
    cbn [forallb] in Hop. rewrite andb_true_r in Hop.
    unfold logical_write in Hop |- *. rewrite Hkey in Hop |- *.
    destruct (row_write _ _ (tbl k)) as [err|e'] eqn:Hrw.
    { cbn in Hop. rewrite (row_write_err _ _ _ _ Hrw) in Hop. discriminate. }
    cbn [snd]. split; [rewrite length_insert; exact Hl|].
    intros k' Hk'. rewrite at_key_insert by lia. unfold table_set.
    destruct (k' =? k) eqn:Hkk.
    + apply Z.eqb_eq in Hkk. subst k'. symmetry.
      apply (Hexp (tbl k) e'); [|exact Hrw]. symmetry. apply Hshow. exact Hk.
    + apply Hshow. exact Hk'.
Qed.

(** ** What the harness expects of its operations *)

Ltac expected_row :=
  eexists; split; [reflexivity|]; split; [reflexivity|];
  let e := fresh "e" in
  let e' := fresh "e'" in
  let Hold := fresh "Hold" in
  let Hrw := fresh "Hrw" in
  intros e e' Hold Hrw; destruct e; cbn in Hold; subst; cbn in Hrw;
  try discriminate Hrw; injection Hrw as <-; reflexivity.

Lemma InsertOrUpsertRow_expects k v old type session row session' :
  InsertOrUpsertRow schema_ k v old type session = Done (row, session') ->
  exists op, session' = session ++ [op] /\ expects op k old (Some row).
Proof.
  unfold InsertOrUpsertRow, expects, view, read_row. intros Hrun.
  destruct type, schema_; cbn in Hrun; try discriminate Hrun;
    try (destruct (negb (Z.land v 1 =? 0)); cbn in Hrun; try discriminate Hrun);
    injection Hrun as <- <-; expected_row.
Qed.

Lemma MutateRow_expects k new_val old session row session' :
  MutateRow schema_ k new_val session = Done (row, session') ->
  exists op, session' = session ++ [op] /\ expects op k old (Some row).
Proof.
  unfold MutateRow, expects, view, read_row. intros Hrun.
  destruct schema_; cbn in Hrun;
    destruct (negb (Z.land new_val 1 =? 0)); cbn in Hrun; try discriminate Hrun;
    injection Hrun as <- <-; expected_row.
Qed.

Lemma DeleteRow_expects k old session row session' :
  DeleteRow schema_ k session = Done (row, session') ->
  exists op, session' = session ++ [op] /\ expects op k old row.
Proof.
  unfold DeleteRow, expects, view. intros Hrun. cbn in Hrun.
  injection Hrun as <- <-. expected_row.
Qed.

(** ** The loop of RunFuzzCase *)

Lemma update_loop_Inv turns k t t' :
  Inv t -> 0 <= k < keyspace_size ->
  update_loop schema_ turns k t = Done t' -> Inv t'.
Proof.
  revert t. induction turns as [|n IH]; intros t Hinv Hk Hrun; cbn [update_loop] in Hrun.
  - injection Hrun as <-. exact Hinv.
  - destruct (MutateRow schema_ k (to_uint32 (i t)) (session_ t))
      as [[row session']|f|] eqn:HM; try discriminate Hrun.
    destruct (MutateRow_expects _ _ (at_key (pending_val t) k) _ _ _ HM)
      as (op & -> & Hexp).
    refine (IH _ _ Hk Hrun).
    exact (Inv_apply t op k (Some row) (i t + 1) Hinv Hk Hexp).
Qed.

(** A call that is neutral, asserted to succeed. *)
Lemma ASSERT_OK_neutral (call : T -> Status * T) t t' :
  neutral server_ok table call -> Inv t ->
  (server ← ASSERT_OK (call (cluster_ t)); mret (set_cluster server t)) = Done t' ->
  Inv t'.
Proof.
  intros Hn Hinv Hrun.
  destruct (Hn (cluster_ t) (inv_server _ Hinv)) as (Hst & Hok & Htb).
  unfold ASSERT_OK in Hrun. rewrite Hst in Hrun. injection Hrun as <-.
  apply Inv_set_cluster; assumption.
Qed.

(** [TEST_FLUSH_OPS]: the session is flushed, and [cur_val] becomes what
    the server now shows. *)
Lemma flush_ops_Inv t t' :
  Inv t ->
  (t ← FlushSessionOrDie t;
   let t := set_cur_val (pending_val t) t in
   let current_time := to_int32 (GetCurrentTime (cluster_ t)) in
   mret (set_saved_values
           (SavedValues.assign current_time (cur_val t) (saved_values_ t)) t)) = Done t' ->
  Inv t' /\ session_ t' = [] /\ cur_val t' = pending_val t /\ pending_val t' = pending_val t.
Proof.
  intros Hinv Hrun. unfold FlushSessionOrDie in Hrun.
  destruct (write_table (session_ t) (cluster_ t) (inv_server _ Hinv))
    as (Hst & Hok & Htb).
  destruct (Write (session_ t) (cluster_ t)) as [statuses server].
  cbn [fst snd] in *.
  destruct (forallb ok statuses) eqn:Hall; [|discriminate Hrun].
  injection Hrun as <-.
  assert (Hshow : shows (pending_val t) (table server)).
  { apply (shows_ext _ _ _ Htb). apply (inv_pending _ Hinv).
    rewrite <- Hst. exact Hall. }
  split; [|repeat split].
  constructor; cbn; try assumption.
  - apply (inv_length _ Hinv).
  - intros _. exact Hshow.
  - apply (inv_expect _ Hinv).
Qed.

Lemma CheckScanAtTimestamp_table timestamp t :
  Inv t ->
  server_ok (snd (CheckScanAtTimestamp schema_ timestamp t))
  /\ forall k, table (snd (CheckScanAtTimestamp schema_ timestamp t)) k
               = table (cluster_ t) k.
Proof.
  intros Hinv. unfold CheckScanAtTimestamp.
  pose proof (scan_table (mkScanSpec (READ_AT_SNAPSHOT timestamp) ORDERED None)
                (cluster_ t) (inv_server _ Hinv)) as Hscan.
  destruct (Scan _ (cluster_ t)) as [rows server]. exact Hscan.
Qed.

(** The [switch] keeps the invariant, for an operation whose key, if it is
    a mutation, is one of the key space. *)
Lemma RunFuzzCase_switch_Inv mult op t t' :
  Inv t -> (IsMutation (type op) = true -> 0 <= Fuzz.val op < keyspace_size) ->
  RunFuzzCase_switch schema_ mult op t = Done t' -> Inv t'.
Proof.
  intros Hinv Hk Hrun. unfold RunFuzzCase_switch in Hrun.
  destruct (type op) eqn:Hty; cbn [IsMutation] in Hk;
    try (destruct (InsertOrUpsertRow _ _ _ _ _ _) as [[row session']|f|] eqn:HI;
         [|discriminate Hrun..]; injection Hrun as <-;
         destruct (InsertOrUpsertRow_expects _ _ _ _ _ _ _ HI) as (wop & -> & Hexp);
         exact (Inv_apply t wop (Fuzz.val op) (Some row) (i t + 1) Hinv (Hk eq_refl) Hexp)).
  - (* TEST_UPDATE *)
    apply (update_loop_Inv _ _ _ _ Hinv (Hk eq_refl) Hrun).
  - (* TEST_DELETE *)
    destruct (DeleteRow _ _ _) as [[row session']|f|] eqn:HD; [|discriminate Hrun..].
    injection Hrun as <-.
    destruct (DeleteRow_expects _ (at_key (pending_val t) (Fuzz.val op)) _ _ _ HD)
      as (wop & -> & Hexp).
    exact (Inv_apply t wop (Fuzz.val op) row (i t) Hinv (Hk eq_refl) Hexp).
  - (* TEST_FLUSH_OPS *)
    apply (flush_ops_Inv t t' Hinv Hrun).
  - apply (ASSERT_OK_neutral Flush t t' flush_neutral Hinv Hrun).
  - apply (ASSERT_OK_neutral FlushBiggestDMS t t' flush_dms_neutral Hinv Hrun).
  - apply (ASSERT_OK_neutral _ t t' (compact_deltas_neutral MINOR_DELTA_COMPACTION)
             Hinv Hrun).
  - apply (ASSERT_OK_neutral _ t t' (compact_deltas_neutral MAJOR_DELTA_COMPACTION)
             Hinv Hrun).
  - apply (ASSERT_OK_neutral Compact t t' compact_neutral Hinv Hrun).
  - apply (ASSERT_OK_neutral RestartServer t t' restart_neutral Hinv Hrun).
  - (* TEST_SCAN_AT_TIMESTAMP *)
    destruct (CheckScanAtTimestamp_table (Fuzz.val op) t Hinv) as [Hok Htb].
    destruct (CheckScanAtTimestamp schema_ (Fuzz.val op) t) as [errors server].
    destruct errors; [|discriminate Hrun]. injection Hrun as <-.
    apply Inv_set_cluster; assumption.
  - discriminate Hrun.
Qed.

(** [EXPECT_EQ(cur_val[test_op.val], GetRow(test_op.val))] holds. *)
Lemma RunFuzzCase_expect_Inv op t :
  Inv t -> (IsMutation (type op) = true -> 0 <= Fuzz.val op < keyspace_size) ->
  Inv (RunFuzzCase_expect schema_ op t).
Proof.
  intros Hinv Hk. unfold RunFuzzCase_expect.
  destruct (IsMutation (type op)); [|exact Hinv].
  destruct (GetRow_table (Fuzz.val op) (cluster_ t) (inv_server _ Hinv))
    as (Hrow & Hok & Htb).
  destruct (GetRow schema_ (Fuzz.val op) (cluster_ t)) as [actual server].
  cbn [fst snd] in *.
  assert (Hinv' : Inv (set_cluster server t)) by (apply Inv_set_cluster; assumption).
  cbn [set_cluster cur_val].
  destruct (inv_cur _ Hinv) as [_ Hcur]. rewrite (Hcur _ (Hk eq_refl)), <- Hrow.
  rewrite bool_decide_eq_true_2 by reflexivity. exact Hinv'.
Qed.

Lemma RunFuzzCase_loop_Inv mult ops t :
  keys_in_range keyspace_size ops -> Inv t ->
  Inv (fst (RunFuzzCase_loop schema_ mult ops t)).
Proof.
  revert t. induction ops as [|op ops IH]; intros t Hks Hinv; [exact Hinv|].
  apply Forall_cons in Hks as [Hk Hks]. cbn [RunFuzzCase_loop].
  pose proof (RunFuzzCase_expect_Inv op t Hinv Hk) as Hinv1.
  destruct (RunFuzzCase_switch schema_ mult op (RunFuzzCase_expect schema_ op t))
    as [t'|f|] eqn:Hsw; [|exact Hinv1..].
  apply IH; [exact Hks|]. apply (RunFuzzCase_switch_Inv mult op _ t' Hinv1 Hk Hsw).
Qed.

(** ** The run *)

Lemma Inv_init server :
  server_ok server -> (forall k, table server k = None) ->
  Inv (RunFuzzCase_init keyspace_size server).
Proof.
  intros Hok Hempty.
  assert (Hshow : shows (replicate (Z.to_nat keyspace_size) None) (table server)).
  { split; [apply length_replicate|]. intros k Hk. rewrite Hempty. unfold at_key.
    rewrite lookup_replicate_2 by lia. reflexivity. }
  constructor; cbn; try assumption.
  - apply length_replicate.
  - intros _. exact Hshow.
  - reflexivity.
Qed.

(** Whatever the operations, [RunFuzzCase] leaves its loop (at the end of
    the sequence or where a check stops the run) with a fixture in which
    the invariant holds. *)
Lemma RunFuzzCase_Inv test_ops mult server :
  server_ok server -> (forall k, table server k = None) ->
  Inv (fst (RunFuzzCase keyspace_size schema_ test_ops mult server)).
Proof.
  intros Hok Hempty. pose proof (Inv_init server Hok Hempty) as Hinit.
  unfold RunFuzzCase.
  destruct (ValidateFuzzCase keyspace_size test_ops) as [u|f|] eqn:Hv; [|exact Hinit..].
  destruct (keyspace_size <? 0); [exact Hinit|].
  apply RunFuzzCase_loop_Inv; [|exact Hinit].
  apply (ValidateFuzzCase_keys_in_range _ _ _ Hv).
Qed.

(** In such a fixture [GetRow] returns [cur_val[k]], for every key. *)
Lemma Inv_GetRow t k :
  Inv t -> 0 <= k < keyspace_size ->
  fst (GetRow schema_ k (cluster_ t)) = at_key (cur_val t) k.
Proof.
  intros Hinv Hk.
  destruct (GetRow_table k (cluster_ t) (inv_server _ Hinv)) as (-> & _).
  symmetry. apply (inv_cur _ Hinv). exact Hk.
Qed.

(** ** The points of a run *)

Lemma update_loop_returns turns k (t : FuzzTest T) :
  update_loop schema_ turns k t <> OutOfFuel.
Proof.
  revert t. induction turns as [|n IH]; intros t; cbn [update_loop]; [discriminate|].
  destruct (MutateRow schema_ k (to_uint32 (i t)) (session_ t)) as [[row s']|f|] eqn:HM.
  - apply IH.
  - discriminate.
  - exfalso. revert HM. unfold MutateRow.
    destruct schema_; cbn; destruct (negb (Z.land _ 1 =? 0)); discriminate.
Qed.

(** The [switch] has no loop that could fail to end. *)
Lemma RunFuzzCase_switch_returns mult op (t : FuzzTest T) :
  RunFuzzCase_switch schema_ mult op t <> OutOfFuel.
Proof.
  unfold RunFuzzCase_switch, InsertOrUpsertRow, DeleteRow, FlushSessionOrDie, ASSERT_OK.
  destruct (type op); try discriminate;
    try (destruct schema_; cbn; try discriminate;
         destruct (negb (Z.land _ 1 =? 0)); discriminate);
    try (match goal with |- context [ok ?st] => destruct (ok st) end; discriminate).
  - apply update_loop_returns.
  - destruct (Write (session_ t) (cluster_ t)) as [statuses server].
    destruct (forallb ok statuses); discriminate.
  - destruct (CheckScanAtTimestamp schema_ (Fuzz.val op) t) as [[|e errors] server];
      discriminate.
Qed.

(** The run of a sequence passes through the fixture the run of each of
    its prefixes ends in. *)
Lemma RunFuzzCase_loop_app mult ops1 ops2 (t : FuzzTest T) :
  RunFuzzCase_loop schema_ mult (ops1 ++ ops2) t
  = match RunFuzzCase_loop schema_ mult ops1 t with
    | (t1, None) => RunFuzzCase_loop schema_ mult ops2 t1
    | stopped => stopped
    end.
Proof.
  revert t. induction ops1 as [|op ops1 IH]; intros t; [reflexivity|].
  cbn [app RunFuzzCase_loop].
  pose proof (RunFuzzCase_switch_returns mult op (RunFuzzCase_expect schema_ op t)) as Hr.
  destruct (RunFuzzCase_switch schema_ mult op (RunFuzzCase_expect schema_ op t))
    as [t'|f|]; [apply IH | reflexivity | contradiction].
Qed.

(** A run that reaches the end of a sequence has run its last operation. *)
Lemma RunFuzzCase_loop_last mult ops op (t t' : FuzzTest T) :
  RunFuzzCase_loop schema_ mult (ops ++ [op]) t = (t', None) ->
  RunFuzzCase_switch schema_ mult op
    (RunFuzzCase_expect schema_ op (fst (RunFuzzCase_loop schema_ mult ops t)))
  = Done t'.
Proof.
  rewrite RunFuzzCase_loop_app.
  destruct (RunFuzzCase_loop schema_ mult ops t) as [t1 [f|]]; [discriminate|].
  cbn [RunFuzzCase_loop fst].
  pose proof (RunFuzzCase_switch_returns mult op (RunFuzzCase_expect schema_ op t1)) as Hr.
  destruct (RunFuzzCase_switch schema_ mult op (RunFuzzCase_expect schema_ op t1))
    as [t2|f|]; [intros [= <-]; reflexivity | discriminate | contradiction].
Qed.

(** Right after [TEST_FLUSH_OPS], [GetRow] returns what the batch left in
    [pending_val]: for a key the batch wrote, its latest value. *)
Lemma GetRow_after_flush mult ops v t t' k :
  keys_in_range keyspace_size ops -> Inv t ->
  RunFuzzCase_loop schema_ mult (ops ++ [mkTestOp TEST_FLUSH_OPS v]) t = (t', None) ->
  0 <= k < keyspace_size ->
  session_ t' = []
  /\ fst (GetRow schema_ k (cluster_ t')) = at_key (pending_val t') k.
Proof.
  intros Hks Hinv Hrun Hk. apply RunFuzzCase_loop_last in Hrun.
  pose proof (RunFuzzCase_loop_Inv mult ops t Hks Hinv) as Hinv1.
  set (t1 := fst (RunFuzzCase_loop schema_ mult ops t)) in *.
  change (RunFuzzCase_expect schema_ (mkTestOp TEST_FLUSH_OPS v) t1) with t1 in Hrun.
  destruct (flush_ops_Inv t1 t' Hinv1 Hrun) as (Hinv' & Hs & Hc & Hp).
  split; [exact Hs|]. rewrite (Inv_GetRow t' k Hinv' Hk), Hc, Hp. reflexivity.
Qed.

(** ** The vectors of the shadow model *)

(** A vector of expected rows is indexed by key: the row at index [n], if
    there is one, has key [n].  So walking the vector visits the expected
    rows by ascending key. *)
Definition keyed (v : Snapshot) : Prop :=
  forall n row, v !! n = Some (Some row) -> key row = Z.of_nat n.

Lemma keyed_replicate n : keyed (replicate n None).
Proof. intros m row Hm. apply lookup_replicate in Hm as [[=] _]. Qed.

Lemma keyed_insert v k new :
  keyed v -> 0 <= k -> (forall row, new = Some row -> key row = k) ->
  keyed (<[Z.to_nat k := new]> v).
Proof.
  intros Hv Hk Hnew n row Hn.
  apply list_lookup_insert_Some in Hn as [(<- & Hrow & _)|[_ Hn]].
  - rewrite Z2Nat.id by exact Hk. apply Hnew. exact Hrow.
  - apply (Hv n row Hn).
Qed.

(** What the harness keeps of its own accord, whatever the server does:
    its vectors are indexed by key, and [saved_values_] is a map. *)
Record Shadow (t : FuzzTest T) : Prop := mkShadow {
  shadow_pending : keyed (pending_val t);
  shadow_cur : keyed (cur_val t);
  shadow_saved : forall ts saved, In (ts, saved) (saved_values_ t) -> keyed saved;
  shadow_descending : SavedValues.descending (saved_values_ t);
}.

Lemma InsertOrUpsertRow_key k v old type session row session' :
  InsertOrUpsertRow schema_ k v old type session = Done (row, session') -> key row = k.
Proof.
  unfold InsertOrUpsertRow. intros Hrun.
  destruct type, schema_; cbn in Hrun; try discriminate Hrun;
    try (destruct (negb (Z.land v 1 =? 0)); cbn in Hrun; try discriminate Hrun);
    injection Hrun as <- <-; reflexivity.
Qed.

Lemma MutateRow_key k new_val session row session' :
  MutateRow schema_ k new_val session = Done (row, session') -> key row = k.
Proof.
  unfold MutateRow. intros Hrun.
  destruct schema_; cbn in Hrun;
    destruct (negb (Z.land new_val 1 =? 0)); cbn in Hrun; try discriminate Hrun;
    injection Hrun as <- <-; reflexivity.
Qed.

Lemma Shadow_pending (t : FuzzTest T) session k new i' :
  Shadow t -> 0 <= k -> (forall row, new = Some row -> key row = k) ->
  Shadow (mkFuzzTest (cluster_ t) session (saved_values_ t) (cur_val t)
            (<[Z.to_nat k := new]> (pending_val t)) i' (expect_failures t)).
Proof.
  intros [Hp Hc Hs Hd] Hk Hnew. constructor; cbn; try assumption.
  apply keyed_insert; assumption.
Qed.

Lemma Shadow_set_cluster (t : FuzzTest T) server :
  Shadow t -> Shadow (set_cluster server t).
Proof. intros [Hp Hc Hs Hd]. constructor; assumption. Qed.

Lemma update_loop_Shadow turns k (t t' : FuzzTest T) :
  Shadow t -> 0 <= k -> update_loop schema_ turns k t = Done t' -> Shadow t'.
Proof.
  revert t. induction turns as [|n IH]; intros t Hsh Hk Hrun; cbn [update_loop] in Hrun.
  - injection Hrun as <-. exact Hsh.
  - destruct (MutateRow schema_ k (to_uint32 (i t)) (session_ t))
      as [[row session']|f|] eqn:HM; try discriminate Hrun.
    refine (IH _ (Shadow_pending t session' k (Some row) (i t + 1) Hsh Hk _) Hk Hrun).
    intros r [= <-]. apply (MutateRow_key _ _ _ _ _ HM).
Qed.

Lemma RunFuzzCase_switch_Shadow mult op (t t' : FuzzTest T) :
  Shadow t -> (IsMutation (type op) = true -> 0 <= Fuzz.val op < keyspace_size) ->
  RunFuzzCase_switch schema_ mult op t = Done t' -> Shadow t'.
Proof.
  intros Hsh Hk Hrun. unfold RunFuzzCase_switch in Hrun.
  destruct (type op) eqn:Hty; cbn [IsMutation] in Hk;
    try (destruct (InsertOrUpsertRow _ _ _ _ _ _) as [[row session']|f|] eqn:HI;
         [|discriminate Hrun..]; injection Hrun as <-;
         refine (Shadow_pending t session' (Fuzz.val op) (Some row) (i t + 1) Hsh
                   (proj1 (Hk eq_refl)) _);
         intros r [= <-]; apply (InsertOrUpsertRow_key _ _ _ _ _ _ _ HI));
    try (unfold ASSERT_OK in Hrun;
         match type of Hrun with context [ok ?st] => destruct (ok st) end;
         [|discriminate Hrun]; injection Hrun as <-;
         apply Shadow_set_cluster; exact Hsh).
  - (* TEST_UPDATE *)
    apply (update_loop_Shadow _ _ _ _ Hsh (proj1 (Hk eq_refl)) Hrun).
  - (* TEST_DELETE *)
    cbn in Hrun. injection Hrun as <-.
    refine (Shadow_pending t _ (Fuzz.val op) None (i t) Hsh (proj1 (Hk eq_refl)) _).
    discriminate.
  - (* TEST_FLUSH_OPS *)
    unfold FlushSessionOrDie in Hrun.
    destruct (Write (session_ t) (cluster_ t)) as [statuses server].
    destruct (forallb ok statuses); [|discriminate Hrun]. injection Hrun as <-.
    destruct Hsh as [Hp Hc Hs Hd]. constructor; cbn; try assumption.
    + intros ts saved Hin. apply SavedValues.In_assign in Hin as [[_ ->]|Hin];
        [exact Hp | exact (Hs _ _ Hin)].
    + apply SavedValues.descending_assign. exact Hd.
  - (* TEST_SCAN_AT_TIMESTAMP *)
    destruct (CheckScanAtTimestamp schema_ (Fuzz.val op) t) as [errors server].
    destruct errors; [|discriminate Hrun]. injection Hrun as <-.
    apply Shadow_set_cluster. exact Hsh.
  - discriminate Hrun.
Qed.

Lemma RunFuzzCase_expect_Shadow op (t : FuzzTest T) :
  Shadow t -> Shadow (RunFuzzCase_expect schema_ op t).
Proof.
  intros [Hp Hc Hs Hd]. unfold RunFuzzCase_expect.
  destruct (IsMutation (type op)); [|constructor; assumption].
  destruct (GetRow schema_ (Fuzz.val op) (cluster_ t)) as [actual server].
  destruct (bool_decide _); constructor; assumption.
Qed.

Lemma RunFuzzCase_loop_Shadow mult ops (t : FuzzTest T) :
  keys_in_range keyspace_size ops -> Shadow t ->
  Shadow (fst (RunFuzzCase_loop schema_ mult ops t)).
Proof.
  revert t. induction ops as [|op ops IH]; intros t Hks Hsh; [exact Hsh|].
  apply Forall_cons in Hks as [Hk Hks]. cbn [RunFuzzCase_loop].
  pose proof (RunFuzzCase_expect_Shadow op t Hsh) as Hsh1.
  destruct (RunFuzzCase_switch schema_ mult op (RunFuzzCase_expect schema_ op t))
    as [t'|f|] eqn:Hsw; [|exact Hsh1..].
  apply IH; [exact Hks|]. apply (RunFuzzCase_switch_Shadow mult op _ t' Hsh1 Hk Hsw).
Qed.

(** [RunFuzzCase] keeps its vectors indexed by key, against any server. *)
Lemma RunFuzzCase_Shadow test_ops mult (server : T) :
  Shadow (fst (RunFuzzCase keyspace_size schema_ test_ops mult server)).
Proof.
  assert (Hinit : Shadow (RunFuzzCase_init keyspace_size server)).
  { constructor; cbn; try apply keyed_replicate; [intros ts saved []|exact I]. }
  unfold RunFuzzCase.
  destruct (ValidateFuzzCase keyspace_size test_ops) as [u|f|] eqn:Hv; [|exact Hinit..].
  destruct (keyspace_size <? 0); [exact Hinit|].
  apply RunFuzzCase_loop_Shadow; [|exact Hinit].
  apply (ValidateFuzzCase_keys_in_range _ _ _ Hv).
Qed.

(** [RunFuzzCase] and the flush that ends a sequence. *)
Lemma RunFuzzCase_after_flush ops v mult server t' k :
  server_ok server -> (forall k, table server k = None) ->
  RunFuzzCase keyspace_size schema_ (ops ++ [mkTestOp TEST_FLUSH_OPS v]) mult server
  = (t', None) ->
  0 <= k < keyspace_size ->
  session_ t' = []
  /\ fst (GetRow schema_ k (cluster_ t')) = at_key (pending_val t') k.
Proof.
  intros Hok Hempty Hrun Hk. pose proof (Inv_init server Hok Hempty) as Hinit.
  unfold RunFuzzCase in Hrun.
  destruct (ValidateFuzzCase keyspace_size _) as [u|f|] eqn:Hv; [|discriminate Hrun|].
  - destruct (keyspace_size <? 0); [discriminate Hrun|].
    apply ValidateFuzzCase_keys_in_range in Hv. apply Forall_app in Hv as [Hks _].
    apply (GetRow_after_flush mult ops v _ t' k Hks Hinit Hrun Hk).
  - injection Hrun as <-. split; [reflexivity|].
    apply (Inv_GetRow _ k Hinit Hk).
Qed.

End ShadowModel.

(** ** The order of the expected rows *)

Lemma upper_bound_In {V : Type} k (m : SavedValues.t V) k0 v0 :
  SavedValues.upper_bound k m = Some (k0, v0) -> In (k0, v0) m.
Proof.
  induction m as [|[k1 v1] m IH]; cbn; [discriminate|].
  destruct (k >? k1); [intros [= <- <-]; left; reflexivity | right; auto].
Qed.

(** The expected rows of a vector indexed by key come by strictly
    ascending key. *)
Lemma keyed_ascending off v :
  (forall n row, v !! n = Some (Some row) -> key row = Z.of_nat (off + n)) ->
  StronglySorted Z.lt (map key (expected_rows v))
  /\ Forall (fun r => Z.of_nat off <= key r) (expected_rows v).
Proof.
  unfold expected_rows. revert off.
  induction v as [|[r|] v IH]; intros off Hkey; cbn.
  - split; constructor.
  - destruct (IH (S off)) as [Hs Hb].
    { intros n row Hn. rewrite (Hkey (S n) row Hn). f_equal. lia. }
    pose proof (Hkey 0%nat r eq_refl) as Hr. rewrite Nat.add_0_r in Hr.
    split; constructor.
    + exact Hs.
    + apply (proj2 (Forall_map key (Z.lt (key r)) _)).
      eapply Forall_impl; [exact Hb|]. cbn. intros r' Hr'. lia.
    + lia.
    + eapply Forall_impl; [exact Hb|]. cbn. intros r' Hr'. lia.
  - destruct (IH (S off)) as [Hs Hb].
    { intros n row Hn. rewrite (Hkey (S n) row Hn). f_equal. lia. }
    split; [exact Hs|]. eapply Forall_impl; [exact Hb|]. cbn. intros r' Hr'. lia.
Qed.

(** The comparison succeeds only on rows that come by strictly ascending
    key, when the snapshots are indexed by key. *)
Lemma CheckRowsMatchAtTimestamp_ascending saved_values_ timestamp rows_found :
  (forall ts saved, In (ts, saved) saved_values_ -> keyed saved) ->
  CheckRowsMatchAtTimestamp saved_values_ timestamp rows_found [] = [] ->
  StronglySorted Z.lt (map key rows_found).
Proof.
  intros Hkeyed Hcheck. apply CheckRowsMatchAtTimestamp_empty in Hcheck.
  destruct (SavedValues.upper_bound timestamp saved_values_) as [[ts saved]|] eqn:Hub.
  - subst rows_found. apply upper_bound_In in Hub.
    apply (keyed_ascending 0 saved). exact (Hkeyed ts saved Hub).
  - subst rows_found. constructor.
Qed.

(* ===================================================================== *)
(** ** The fuzz test on the model of the tablet *)
(* ===================================================================== *)

Import Tablet.

(** A test of the fixture: [CreateTabletAndStartClusterWithSchema(schema)]
    gives a tablet just created, on which the case is run. *)
Definition TestFuzz (keyspace_size : Z) (schema_ : Schema) (test_ops : list TestOp)
    (update_multiplier : Z) : FuzzTest TabletState * option failure :=
  RunFuzzCase keyspace_size schema_ test_ops update_multiplier new_tablet.

Lemma new_tablet_empty k : table new_tablet k = None.
Proof. reflexivity. Qed.

Lemma new_tablet_server_ok : server_ok new_tablet.
Proof. exact new_tablet_ok. Qed.

(** C3.  Whatever the sequence of operations, the update multiplier, the
    schema and the key space, where the run of [RunFuzzCase] on a new tablet
    leaves its loop (at the end of the sequence, or where a check stops it)
    no [EXPECT_EQ(cur_val[k], GetRow(k))] has failed and, for every key [k]
    of the key space, [GetRow(k)] returns [cur_val[k]]: the row of the last
    batch flushed, none if that deleted [k] or [k] was never inserted.  A
    point in the run of a sequence is where the run of a prefix ends
    ([RunFuzzCase_loop_app]), so this holds at every point of a run.  And
    when the sequence ends with [TEST_FLUSH_OPS] and the run reaches its
    end, [GetRow(k)] returns what the batch left in [pending_val[k]], for
    a key the batch wrote the latest value it wrote. *)
Theorem GetRow_returns_cur_val
    (keyspace_size : Z) (schema_ : Schema) (test_ops : list TestOp)
    (update_multiplier : Z) :
  expect_failures (fst (TestFuzz keyspace_size schema_ test_ops update_multiplier)) = []
  /\ (forall k, 0 <= k < keyspace_size ->
        fst (GetRow schema_ k
               (cluster_ (fst (TestFuzz keyspace_size schema_ test_ops update_multiplier))))
        = at_key (cur_val (fst (TestFuzz keyspace_size schema_ test_ops update_multiplier))) k)
  /\ (forall ops v k,
        test_ops = ops ++ [mkTestOp TEST_FLUSH_OPS v] ->
        snd (TestFuzz keyspace_size schema_ test_ops update_multiplier) = None ->
        0 <= k < keyspace_size ->
        fst (GetRow schema_ k
               (cluster_ (fst (TestFuzz keyspace_size schema_ test_ops update_multiplier))))
        = at_key (pending_val
                    (fst (TestFuzz keyspace_size schema_ test_ops update_multiplier))) k).
Proof.
  unfold TestFuzz.
  pose proof (RunFuzzCase_Inv keyspace_size schema_ test_ops update_multiplier
                new_tablet new_tablet_server_ok new_tablet_empty) as Hinv.
  split; [apply (inv_expect _ _ _ Hinv)|]. split.
  - intros k Hk. apply (Inv_GetRow keyspace_size schema_ _ k Hinv Hk).
  - intros ops v k -> Hend Hk.
    destruct (RunFuzzCase keyspace_size schema_ _ update_multiplier new_tablet)
      as [t' stopped] eqn:Hrun.
    cbn [fst snd] in *. subst stopped.
    apply (RunFuzzCase_after_flush keyspace_size schema_ ops v update_multiplier
             new_tablet t' k new_tablet_server_ok new_tablet_empty Hrun Hk).
Qed.

(** ** Flushes and compactions *)

(** The operations of a case that flush or compact. *)
Definition is_maintenance (type : TestOpType) : bool :=
  match type with
  | TEST_FLUSH_TABLET | TEST_FLUSH_DELTAS | TEST_MINOR_COMPACT_DELTAS
  | TEST_MAJOR_COMPACT_DELTAS | TEST_COMPACT_TABLET => true
  | _ => false
  end.

Lemma unseen_ASSERT_OK call (t : FuzzTest TabletState) :
  unseen call -> tablet_ok (cluster_ t) ->
  exists server,
    (server ← ASSERT_OK (call (cluster_ t)); mret (set_cluster server t))
    = Done (set_cluster server t)
    /\ tablet_ok server
    /\ forall mode pk,
        point_read mode pk (stores server) = point_read mode pk (stores (cluster_ t)).
Proof.
  intros Hu Hok. destruct (Hu (cluster_ t) Hok) as (Hst & Hok' & Hrd).
  exists (snd (call (cluster_ t))). unfold ASSERT_OK. rewrite Hst.
  split; [reflexivity|]. split; assumption.
Qed.

Lemma maintenance_switch schema_ mult op (t : FuzzTest TabletState) :
  tablet_ok (cluster_ t) -> is_maintenance (type op) = true ->
  exists server,
    RunFuzzCase_switch schema_ mult op t = Done (set_cluster server t)
    /\ tablet_ok server
    /\ forall mode pk,
        point_read mode pk (stores server) = point_read mode pk (stores (cluster_ t)).
Proof.
  intros Hok Hm. unfold RunFuzzCase_switch.
  destruct (type op); try discriminate Hm.
  - apply (unseen_ASSERT_OK tablet_flush t tablet_flush_unseen Hok).
  - apply (unseen_ASSERT_OK tablet_flush_biggest_dms t tablet_flush_biggest_dms_unseen Hok).
  - apply (unseen_ASSERT_OK _ t
             (tablet_compact_worst_deltas_unseen MINOR_DELTA_COMPACTION) Hok).
  - apply (unseen_ASSERT_OK _ t
             (tablet_compact_worst_deltas_unseen MAJOR_DELTA_COMPACTION) Hok).
  - apply (unseen_ASSERT_OK tablet_compact t tablet_compact_unseen Hok).
Qed.

Lemma maintenance_loop schema_ mult ops (t : FuzzTest TabletState) :
  tablet_ok (cluster_ t) ->
  Forall (fun op => is_maintenance (type op) = true) ops ->
  exists server,
    RunFuzzCase_loop schema_ mult ops t = (set_cluster server t, None)
    /\ tablet_ok server
    /\ forall mode pk,
        point_read mode pk (stores server) = point_read mode pk (stores (cluster_ t)).
Proof.
  intros Hok Hops. revert t Hok. induction Hops as [|op ops Hop Hops IH]; intros t Hok.
  - exists (cluster_ t). split; [destruct t; reflexivity|]. split; [exact Hok|reflexivity].
  - cbn [RunFuzzCase_loop].
    assert (Hexp : RunFuzzCase_expect schema_ op t = t).
    { unfold RunFuzzCase_expect. destruct (type op); try discriminate Hop; reflexivity. }
    rewrite Hexp.
    destruct (maintenance_switch schema_ mult op t Hok Hop) as (server & -> & Hok1 & Hrd1).
    destruct (IH (set_cluster server t) Hok1) as (server' & -> & Hok2 & Hrd2).
    exists server'. split; [reflexivity|]. split; [exact Hok2|].
    intros mode pk. rewrite Hrd2. apply Hrd1.
Qed.

(** C2.  From a tablet in order, a run of any sequence of the operations
    [TEST_FLUSH_TABLET] ([Tablet::Flush]), [TEST_FLUSH_DELTAS]
    ([FlushBiggestDMS]), [TEST_MINOR_COMPACT_DELTAS] and
    [TEST_MAJOR_COMPACT_DELTAS] ([CompactWorstDeltas]) and
    [TEST_COMPACT_TABLET] ([Compact(FORCE_COMPACT_ALL)]) reaches its end,
    changes nothing but the server, and after it: every ordered scan, at any
    snapshot timestamp or in latest mode, with or without a predicate,
    returns the same list of rows as before; every scan returns the same
    set of rows; [CheckScanAtTimestamp] finds what it found before, at any
    timestamp; and every point read, at any read point, returns the same. *)
Theorem flushes_and_compactions_unseen
    (schema_ : Schema) (update_multiplier : Z) (test_ops : list TestOp)
    (t : FuzzTest TabletState) :
  tablet_ok (cluster_ t) ->
  Forall (fun op => is_maintenance (type op) = true) test_ops ->
  exists server,
    RunFuzzCase_loop schema_ update_multiplier test_ops t = (set_cluster server t, None)
    /\ (forall mode pred,
          fst (Scan (mkScanSpec mode ORDERED pred) server)
          = fst (Scan (mkScanSpec mode ORDERED pred) (cluster_ t)))
    /\ (forall spec, fst (Scan spec server) ≡ₚ fst (Scan spec (cluster_ t)))
    /\ (forall timestamp,
          fst (CheckScanAtTimestamp schema_ timestamp (set_cluster server t))
          = fst (CheckScanAtTimestamp schema_ timestamp t))
    /\ (forall mode pk,
          point_read mode pk (stores server) = point_read mode pk (stores (cluster_ t))).
Proof.
  intros Hok Hops.
  destruct (maintenance_loop schema_ update_multiplier test_ops t Hok Hops)
    as (server & Hrun & Hok' & Hrd).
  exists server. split; [exact Hrun|].
  assert (Hscan : forall spec,
            scan spec (stores server) ≡ₚ scan spec (stores (cluster_ t))
            /\ (order_mode spec = ORDERED ->
                scan spec (stores server) = scan spec (stores (cluster_ t)))).
  { intros spec. apply (scan_ext (clock (cluster_ t)) (clock server));
      [apply Hok | apply Hok' | exact Hrd]. }
  split; [|split; [|split]].
  - intros mode pred. apply (Hscan (mkScanSpec mode ORDERED pred)). reflexivity.
  - intros spec. apply (Hscan spec).
  - intros timestamp. unfold CheckScanAtTimestamp.
    cbn [Scan tablet_server tablet_scan set_cluster cluster_ saved_values_ fst snd].
    rewrite (proj2 (Hscan (mkScanSpec (READ_AT_SNAPSHOT timestamp) ORDERED None)) eq_refl).
    reflexivity.
  - exact Hrd.
Qed.

(** A case that leaves rows in the MemRowSet, in a base image, in a flushed
    redo file and in a DeltaMemStore, and a sequence of flushes and
    compactions to run after it. *)
Definition rows_in_every_store : list TestOp :=
  [mkTestOp TEST_INSERT 0; mkTestOp TEST_FLUSH_OPS 0; mkTestOp TEST_FLUSH_TABLET 0;
   mkTestOp TEST_UPDATE 0; mkTestOp TEST_FLUSH_OPS 0; mkTestOp TEST_FLUSH_DELTAS 0;
   mkTestOp TEST_UPDATE 0; mkTestOp TEST_FLUSH_OPS 0;
   mkTestOp TEST_INSERT 1; mkTestOp TEST_FLUSH_OPS 0].

Definition every_maintenance : list TestOp :=
  [mkTestOp TEST_FLUSH_DELTAS 0; mkTestOp TEST_MINOR_COMPACT_DELTAS 0;
   mkTestOp TEST_FLUSH_TABLET 0; mkTestOp TEST_MAJOR_COMPACT_DELTAS 0;
   mkTestOp TEST_COMPACT_TABLET 0].

Lemma TestFuzz_tablet_ok keyspace_size schema_ test_ops update_multiplier :
  tablet_ok (cluster_ (fst (TestFuzz keyspace_size schema_ test_ops update_multiplier))).
Proof.
  exact (inv_server _ _ _
           (RunFuzzCase_Inv keyspace_size schema_ test_ops update_multiplier
              new_tablet new_tablet_server_ok new_tablet_empty)).
Qed.

Lemma flushes_and_compactions_unseen_witness :
  tablet_ok (cluster_ (fst (TestFuzz 2 KeyValueSchema rows_in_every_store 1)))
  /\ Forall (fun op => is_maintenance (type op) = true) every_maintenance
  /\ exists server,
      RunFuzzCase_loop KeyValueSchema 1 every_maintenance
        (fst (TestFuzz 2 KeyValueSchema rows_in_every_store 1))
      = (set_cluster server (fst (TestFuzz 2 KeyValueSchema rows_in_every_store 1)), None)
      /\ (forall mode pred,
            fst (Scan (mkScanSpec mode ORDERED pred) server)
            = fst (Scan (mkScanSpec mode ORDERED pred)
                     (cluster_ (fst (TestFuzz 2 KeyValueSchema rows_in_every_store 1)))))
      /\ (forall spec,
            fst (Scan spec server)
            ≡ₚ fst (Scan spec
                      (cluster_ (fst (TestFuzz 2 KeyValueSchema rows_in_every_store 1)))))
      /\ (forall timestamp,
            fst (CheckScanAtTimestamp KeyValueSchema timestamp
                   (set_cluster server
                      (fst (TestFuzz 2 KeyValueSchema rows_in_every_store 1))))
            = fst (CheckScanAtTimestamp KeyValueSchema timestamp
                     (fst (TestFuzz 2 KeyValueSchema rows_in_every_store 1))))
      /\ (forall mode pk,
            point_read mode pk (stores server)
            = point_read mode pk
                (stores (cluster_ (fst (TestFuzz 2 KeyValueSchema rows_in_every_store 1))))).
Proof.
  assert (Hm : Forall (fun op => is_maintenance (type op) = true) every_maintenance)
    by (repeat constructor).
  split; [apply TestFuzz_tablet_ok|]. split; [exact Hm|].
  exact (flushes_and_compactions_unseen KeyValueSchema 1 every_maintenance
           (fst (TestFuzz 2 KeyValueSchema rows_in_every_store 1))
           (TestFuzz_tablet_ok 2 KeyValueSchema rows_in_every_store 1) Hm).
Defined.

(** What the stores of that tablet hold before and after: one row in the
    MemRowSet and one in a row set with a redo file and a DeltaMemStore,
    then both in the base image of one row set, with their past as undo
    deltas; and the rows a scan returns at each timestamp, before as
    after. *)
Example flushes_and_compactions_run :
  let before := cluster_ (fst (TestFuzz 2 KeyValueSchema rows_in_every_store 1)) in
  let after :=
    cluster_ (fst (RunFuzzCase_loop KeyValueSchema 1 every_maintenance
                     (fst (TestFuzz 2 KeyValueSchema rows_in_every_store 1)))) in
  stores before
  = mkStores
      [mkMRSEntry 1 None 9 []]
      [mkDiskRowSet
         [mkBaseRow 0 3 (Some (Some 0))]
         [mkDelta 0 2 Delete]
         [[mkDelta 0 5 (Update (Some None))]]
         [mkDelta 0 7 (Update (Some (Some 2)))]]
  /\ stores after
     = mkStores []
         [mkDiskRowSet
            [mkBaseRow 0 11 (Some (Some 2)); mkBaseRow 1 11 (Some None)]
            [mkDelta 0 7 (Update (Some None)); mkDelta 0 5 (Update (Some (Some 0)));
             mkDelta 0 2 Delete; mkDelta 1 9 Delete]
            [] []]
  /\ map (fun ts => scan (mkScanSpec (READ_AT_SNAPSHOT ts) ORDERED None) (stores after))
         [1; 2; 4; 5; 7; 9; 12]
     = [[]; [mkRowResult 0 (Some 0)]; [mkRowResult 0 (Some 0)]; [mkRowResult 0 None];
        [mkRowResult 0 (Some 2)]; [mkRowResult 0 (Some 2); mkRowResult 1 None];
        [mkRowResult 0 (Some 2); mkRowResult 1 None]]
  /\ map (fun ts => scan (mkScanSpec (READ_AT_SNAPSHOT ts) ORDERED None) (stores before))
         [1; 2; 4; 5; 7; 9; 12]
     = map (fun ts => scan (mkScanSpec (READ_AT_SNAPSHOT ts) ORDERED None) (stores after))
         [1; 2; 4; 5; 7; 9; 12].
Proof. vm_compute. repeat split; reflexivity. Qed.

(** ** Upserts that set the key alone *)


(** The operation [InsertOrUpsertRow] applies for [TEST_UPSERT_PK_ONLY]. *)
Definition upsert_pk_only (schema_ : Schema) (key : Z) : KuduWriteOperation :=
  mkWriteOp UPSERT (mkPartialRow schema_ (SetTo key) Unset).

(** Flushed alone, it succeeds, advances the clock by one, leaves every
    other row alone, keeps the value of a live row and inserts a row with a
    NULL value where there was none. *)
Lemma upsert_pk_only_write schema_ key (t : TabletState) :
  tablet_ok t ->
  fst (Write [upsert_pk_only schema_ key] t) = [OK]
  /\ tablet_ok (snd (Write [upsert_pk_only schema_ key] t))
  /\ GetCurrentTime (snd (Write [upsert_pk_only schema_ key] t)) = GetCurrentTime t + 1
  /\ (forall k, k <> key ->
        table (snd (Write [upsert_pk_only schema_ key] t)) k = table t k)
  /\ table (snd (Write [upsert_pk_only schema_ key] t)) key
     = Some (match table t key with Some c => c | None => None end).
Proof.
  intros Hok. destruct (tablet_write_spec [upsert_pk_only schema_ key] t Hok)
    as (Hst & Hok' & Htb).
  assert (Hlog : logical_batch [upsert_pk_only schema_ key] (latest (stores t))
                 = ([OK], table_set key
                            (Some (match latest (stores t) key with
                                   | Some c => c
                                   | None => None
                                   end))
                            (latest (stores t)))).
  { cbn. unfold logical_write. cbn. destruct (latest (stores t) key); reflexivity. }
  rewrite Hlog in Hst, Htb. cbn [fst snd] in Hst, Htb.
  split; [exact Hst|]. split; [exact Hok'|]. split; [reflexivity|]. split.
  - intros k Hk. cbn [table tablet_shows_table]. cbn [Write tablet_server].
    rewrite Htb. unfold table_set. destruct (Z.eqb_spec k key); [contradiction|reflexivity].
  - cbn [table tablet_shows_table]. cbn [Write tablet_server].
    rewrite Htb. unfold table_set. rewrite Z.eqb_refl. reflexivity.
Qed.



(** On the tablet of that case: key 0 holds the value 2 and keeps it,
    and on a new tablet the upsert inserts a row without a value. *)
Example UpsertPkOnly_runs :
  fst (GetRow KeyValueSchema 0
         (cluster_ (fst (TestFuzz 2 KeyValueSchema rows_in_every_store 1))))
  = Some (mkRow 0 (Some 2))
  /\ fst (GetRow KeyValueSchema 0
            (snd (Write [upsert_pk_only KeyValueSchema 0]
                    (cluster_ (fst (TestFuzz 2 KeyValueSchema rows_in_every_store 1))))))
     = Some (mkRow 0 (Some 2))
  /\ fst (GetRow KeyValueSchema 0 new_tablet) = None
  /\ fst (GetRow KeyValueSchema 0 (snd (Write [upsert_pk_only KeyValueSchema 0] new_tablet)))
     = Some (mkRow 0 None).
Proof. vm_compute. repeat split; reflexivity. Qed.

(** ** A schema of the key alone *)

(** The operations of [TEST_F(FuzzTest, TestUpsert_PKOnlySchema)]. *)
Definition TestUpsert_PKOnlySchema : list TestOp :=
  [mkTestOp TEST_UPSERT_PK_ONLY 1;
   mkTestOp TEST_DELETE 1;
   mkTestOp TEST_UPSERT_PK_ONLY 1;
   mkTestOp TEST_UPSERT_PK_ONLY 1;
   mkTestOp TEST_FLUSH_OPS 0].

(** C6.  On the schema of the key column alone, with the key space of the
    flag's default (2) and the default update multiplier, [RunFuzzCase] on
    [UpsertPkOnly(1), Delete(1), UpsertPkOnly(1), UpsertPkOnly(1), FlushOps]
    reaches the end of the sequence: no check stops it and no [EXPECT_EQ]
    fails.  The tablet then shows one live row, with key 1, to a latest
    scan in either order; its only stored row is the one the first upsert
    inserted, whose redo chain holds the delete, the reinsert with an empty
    column set and the update with an empty column set, all at the commit
    timestamp of the batch, to which the clock has moved.  And on any
    tablet in order, with either schema, an upsert that sets the key alone
    is accepted, advances the clock by one, and changes no row when the
    key holds a live row. *)
Theorem TestUpsert_PKOnlySchema_passes :
  snd (TestFuzz 2 PkOnlySchema TestUpsert_PKOnlySchema 1) = None
  /\ expect_failures (fst (TestFuzz 2 PkOnlySchema TestUpsert_PKOnlySchema 1)) = []
  /\ (forall order,
        fst (Scan (mkScanSpec READ_LATEST order None)
               (cluster_ (fst (TestFuzz 2 PkOnlySchema TestUpsert_PKOnlySchema 1))))
        = [mkRowResult 1 None])
  /\ stores (cluster_ (fst (TestFuzz 2 PkOnlySchema TestUpsert_PKOnlySchema 1)))
     = mkStores
         [mkMRSEntry 1 None 5 [(5, Delete); (5, Reinsert None); (5, Update None)]]
         []
  /\ GetCurrentTime (cluster_ (fst (TestFuzz 2 PkOnlySchema TestUpsert_PKOnlySchema 1))) = 5
  /\ (forall schema_ key (t : TabletState),
        tablet_ok t ->
        fst (Write [upsert_pk_only schema_ key] t) = [OK]
        /\ GetCurrentTime (snd (Write [upsert_pk_only schema_ key] t))
           = GetCurrentTime t + 1
        /\ (forall c, point_read READ_LATEST key (stores t) = Some c ->
            forall k,
              point_read READ_LATEST k (stores (snd (Write [upsert_pk_only schema_ key] t)))
              = point_read READ_LATEST k (stores t))).
Proof.
  split; [vm_compute; reflexivity|]. split; [vm_compute; reflexivity|].
  split; [intros []; vm_compute; reflexivity|].
  split; [vm_compute; reflexivity|]. split; [vm_compute; reflexivity|].
  intros schema_ key t Hok.
  destruct (upsert_pk_only_write schema_ key t Hok) as (Hst & _ & Hclock & Hother & Hkey).
  split; [exact Hst|]. split; [exact Hclock|].
  intros c Hc k. destruct (Z.eq_dec k key) as [->|Hne].
  - change (table (snd (Write [upsert_pk_only schema_ key] t)) key = table t key).
    rewrite Hkey. change (table t key) with (point_read READ_LATEST key (stores t)).
    rewrite Hc. reflexivity.
  - apply (Hother k Hne).
Qed.

(** ** Ordered scans *)

Lemma StronglySorted_lt_NoDup (l : list Z) : StronglySorted Z.lt l -> NoDup l.
Proof.
  induction 1 as [|a l Hl IH Ha]; [constructor|].
  apply NoDup_cons. split; [|exact IH].
  intros Hin. rewrite Forall_forall in Ha. specialize (Ha a Hin). lia.
Qed.

(** C8.  On a tablet in order, an ordered scan, at any read point, with
    or without a predicate on the key, returns rows whose keys are
    strictly ascending, so no two of them have the same key.  And the
    comparison of [CheckRowsMatchAtTimestamp], against snapshots that are
    vectors indexed by key (as [RunFuzzCase] keeps them), leaves [errors]
    empty only for rows found whose keys are strictly ascending. *)
Theorem ordered_scan_ascending
    (t : TabletState) (mode : ReadMode) (pred : option Z)
    (saved_values_ : SavedValues.t Snapshot) (timestamp : Z)
    (rows_found : list ExpectedKeyValueRow) :
  tablet_ok t ->
  (forall ts saved, In (ts, saved) saved_values_ -> keyed saved) ->
  StronglySorted Z.lt (map result_key (fst (Scan (mkScanSpec mode ORDERED pred) t)))
  /\ NoDup (map result_key (fst (Scan (mkScanSpec mode ORDERED pred) t)))
  /\ (CheckRowsMatchAtTimestamp saved_values_ timestamp rows_found [] = [] ->
      StronglySorted Z.lt (map key rows_found)).
Proof.
  intros [Hok _] Hkeyed.
  assert (Hs : StronglySorted Z.lt
                 (map result_key (fst (Scan (mkScanSpec mode ORDERED pred) t)))).
  { apply (scan_sorted (clock t) (mkScanSpec mode ORDERED pred) (stores t) Hok).
    reflexivity. }
  split; [exact Hs|]. split; [apply StronglySorted_lt_NoDup; exact Hs|].
  apply CheckRowsMatchAtTimestamp_ascending. exact Hkeyed.
Qed.

Lemma TestFuzz_keyed keyspace_size schema_ test_ops update_multiplier ts saved :
  In (ts, saved)
     (Harness.saved_values_ (fst (TestFuzz keyspace_size schema_ test_ops update_multiplier))) ->
  keyed saved.
Proof.
  apply (shadow_saved _ (RunFuzzCase_Shadow keyspace_size schema_ test_ops
                           update_multiplier new_tablet)).
Qed.

Lemma ordered_scan_ascending_witness :
  tablet_ok (cluster_ (fst (TestFuzz 2 KeyValueSchema rows_in_every_store 1)))
  /\ (forall ts saved,
        In (ts, saved)
           (Harness.saved_values_ (fst (TestFuzz 2 KeyValueSchema rows_in_every_store 1))) ->
        keyed saved)
  /\ StronglySorted Z.lt
       (map result_key
          (fst (Scan (mkScanSpec (READ_AT_SNAPSHOT 10) ORDERED None)
                  (cluster_ (fst (TestFuzz 2 KeyValueSchema rows_in_every_store 1))))))
  /\ NoDup
       (map result_key
          (fst (Scan (mkScanSpec (READ_AT_SNAPSHOT 10) ORDERED None)
                  (cluster_ (fst (TestFuzz 2 KeyValueSchema rows_in_every_store 1))))))
  /\ (CheckRowsMatchAtTimestamp
        (Harness.saved_values_ (fst (TestFuzz 2 KeyValueSchema rows_in_every_store 1)))
        10 [mkRow 0 (Some 2); mkRow 1 None] [] = [] ->
      StronglySorted Z.lt (map key [mkRow 0 (Some 2); mkRow 1 None])).
Proof.
  split; [apply TestFuzz_tablet_ok|].
  split; [apply TestFuzz_keyed|].
  exact (ordered_scan_ascending
           (cluster_ (fst (TestFuzz 2 KeyValueSchema rows_in_every_store 1)))
           (READ_AT_SNAPSHOT 10) None
           (Harness.saved_values_ (fst (TestFuzz 2 KeyValueSchema rows_in_every_store 1)))
           10 [mkRow 0 (Some 2); mkRow 1 None]
           (TestFuzz_tablet_ok 2 KeyValueSchema rows_in_every_store 1)
           (TestFuzz_keyed 2 KeyValueSchema rows_in_every_store 1)).
Defined.

(** A scan of that tablet, and the comparison on its rows in key order
    and out of it. *)
Example ordered_scan_runs :
  fst (Scan (mkScanSpec (READ_AT_SNAPSHOT 10) ORDERED None)
         (cluster_ (fst (TestFuzz 2 KeyValueSchema rows_in_every_store 1))))
  = [mkRowResult 0 (Some 2); mkRowResult 1 None]
  /\ CheckRowsMatchAtTimestamp
       (Harness.saved_values_ (fst (TestFuzz 2 KeyValueSchema rows_in_every_store 1)))
       10 [mkRow 0 (Some 2); mkRow 1 None] [] = []
  /\ CheckRowsMatchAtTimestamp
       (Harness.saved_values_ (fst (TestFuzz 2 KeyValueSchema rows_in_every_store 1)))
       10 [mkRow 1 None; mkRow 0 (Some 2)] []
     = [FoundErrorsAt 10 9;
        MismatchedKey (mkRow 0 (Some 2)) (mkRow 1 None);
        MismatchedKey (mkRow 1 None) (mkRow 0 (Some 2))].
Proof. vm_compute. repeat split; reflexivity. Qed.

(** ** A scan at the commit timestamp of a batch *)

(** Modelled from the spec: a snapshot read at [T] sees the mutations with
    [ts <= T] (section 4.5).  [RunFuzzCase] saves the rows of a batch under
    the time the clock shows after the flush, here the commit timestamp of
    the batch, and [CheckRowsMatchAtTimestamp] compares a scan at [T] with
    the snapshot saved strictly below [T].  So a scan at the commit
    timestamp itself, which on this model shows the batch, is compared
    with the snapshot before it: of the three scans below the one at 2
    stops the test. *)
Example scan_at_commit_timestamp :
  GetCurrentTime
    (cluster_ (fst (TestFuzz 2 KeyValueSchema
                      [mkTestOp TEST_INSERT 0; mkTestOp TEST_FLUSH_OPS 0] 1))) = 2
  /\ Harness.saved_values_
       (fst (TestFuzz 2 KeyValueSchema
               [mkTestOp TEST_INSERT 0; mkTestOp TEST_FLUSH_OPS 0] 1))
     = [(2, [Some (mkRow 0 (Some 0)); None])]
  /\ map (fun ts =>
            fst (Scan (mkScanSpec (READ_AT_SNAPSHOT ts) ORDERED None)
                   (cluster_ (fst (TestFuzz 2 KeyValueSchema
                                     [mkTestOp TEST_INSERT 0; mkTestOp TEST_FLUSH_OPS 0]
                                     1)))))
         [1; 2; 3]
     = [[]; [mkRowResult 0 (Some 0)]; [mkRowResult 0 (Some 0)]]
  /\ map (fun ts =>
            snd (TestFuzz 2 KeyValueSchema
                   [mkTestOp TEST_INSERT 0; mkTestOp TEST_FLUSH_OPS 0;
                    mkTestOp TEST_SCAN_AT_TIMESTAMP ts] 1))
         [1; 2; 3]
     = [None; Some FatalTestFailure; None].
Proof. vm_compute. repeat split; reflexivity. Qed.

(* ===================================================================== *)
(** ** Snapshot scans and the snapshots saved *)
(* ===================================================================== *)


Section SnapshotScans.

Variable keyspace_size : Z.
Variable schema_ : Schema.







(** ** The clock along a run *)






(** ** The invariant along a run *)









(** ** What a snapshot scan returns *)

Lemma key_read_row r : key (read_row schema_ r) = result_key r.
Proof. reflexivity. Qed.




End SnapshotScans.



(** The snapshots saved on that tablet, and the rows scans return: at 6
    and at 5 the row saved under 5, at 4 the row saved under 2, at 1 none.
    The check compares the scan at 5 with the snapshot saved under 2. *)
Example snapshot_scans_run :
  let t := fst (TestFuzz 2 KeyValueSchema rows_in_every_store 1) in
  Harness.saved_values_ t
  = [(9, [Some (mkRow 0 (Some 2)); Some (mkRow 1 None)]);
     (7, [Some (mkRow 0 (Some 2)); None]);
     (5, [Some (mkRow 0 None); None]);
     (2, [Some (mkRow 0 (Some 0)); None])]
  /\ map (fun ts =>
            map (read_row KeyValueSchema)
              (fst (Scan (mkScanSpec (READ_AT_SNAPSHOT ts) ORDERED None) (cluster_ t))))
         [1; 4; 5; 6]
     = [[]; [mkRow 0 (Some 0)]; [mkRow 0 None]; [mkRow 0 None]]
  /\ map (fun ts => fst (CheckScanAtTimestamp KeyValueSchema ts t)) [1; 4; 5; 6]
     = [[]; [];
        [FoundErrorsAt 5 2; MismatchedValue (mkRow 0 (Some 0)) (mkRow 0 None)];
        []].
Proof. vm_compute. repeat split; reflexivity. Qed.

(** Past the range of [int] the time a snapshot is saved under is no
    longer the time of the clock: after a scan at [INT_MAX] the clock
    shows [2 ^ 31], the batch commits at [2 ^ 31 + 2], and
    [int current_time] holds that time wrapped around.  A scan at 5, which
    returns no row, is then compared with that snapshot. *)
Example saved_time_past_int :
  let test_ops :=
    [mkTestOp TEST_SCAN_AT_TIMESTAMP (2 ^ 31 - 1); mkTestOp TEST_INSERT 0;
     mkTestOp TEST_FLUSH_OPS 0] in
  let t := fst (TestFuzz 2 KeyValueSchema test_ops 1) in
  snd (TestFuzz 2 KeyValueSchema test_ops 1) = None
  /\ GetCurrentTime (cluster_ t) = 2 ^ 31 + 2
  /\ Harness.saved_values_ t = [(- 2 ^ 31 + 2, [Some (mkRow 0 (Some 0)); None])]
  /\ map (read_row KeyValueSchema)
       (fst (Scan (mkScanSpec (READ_AT_SNAPSHOT 5) ORDERED None) (cluster_ t)))
     = []
  /\ fst (CheckScanAtTimestamp KeyValueSchema 5 t)
     = [FoundErrorsAt 5 (- 2 ^ 31 + 2); DidntFindExpectedValue (mkRow 0 (Some 0));
        MismatchedSize 1 0].
Proof. vm_compute. repeat split; reflexivity. Qed.


(** ** The harness against any server *)

(** X1.  Whatever the tablet server answers, [RunFuzzCase] keeps
    [saved_values_] a map (its keys strictly descending, as [std::greater]
    orders them) of vectors indexed by key, and [cur_val] and
    [pending_val] indexed by key: the row at index [n], if any, has key
    [n]. *)
Theorem RunFuzzCase_keeps_vectors_keyed {T : Type} `{TabletServer T}
    (keyspace_size : Z) (schema_ : Schema) (test_ops : list TestOp)
    (update_multiplier : Z) (server : T) :
  SavedValues.descending
    (Harness.saved_values_
       (fst (RunFuzzCase keyspace_size schema_ test_ops update_multiplier server)))
  /\ (forall ts saved,
        In (ts, saved)
           (Harness.saved_values_
              (fst (RunFuzzCase keyspace_size schema_ test_ops update_multiplier server))) ->
        keyed saved)
  /\ keyed (cur_val (fst (RunFuzzCase keyspace_size schema_ test_ops update_multiplier
                            server)))
  /\ keyed (pending_val (fst (RunFuzzCase keyspace_size schema_ test_ops update_multiplier
                                server))).
Proof.
  destruct (RunFuzzCase_Shadow keyspace_size schema_ test_ops update_multiplier server)
    as [Hp Hc Hs Hd].
  split; [exact Hd|]. split; [exact Hs|]. split; assumption.
Qed.

(** X3.  The loop of [RunFuzzCase] on a sequence passes through the
    fixture its run on each prefix ends in: it runs the prefix, and goes on
    with the rest unless a check has stopped the run. *)
Theorem RunFuzzCase_loop_prefix {T : Type} `{TabletServer T}
    (schema_ : Schema) (update_multiplier : Z) (ops1 ops2 : list TestOp)
    (t : FuzzTest T) :
  RunFuzzCase_loop schema_ update_multiplier (ops1 ++ ops2) t
  = match RunFuzzCase_loop schema_ update_multiplier ops1 t with
    | (t1, None) => RunFuzzCase_loop schema_ update_multiplier ops2 t1
    | stopped => stopped
    end.
Proof. apply RunFuzzCase_loop_app. Qed.

End FuzzRun.

(* ===================================================================== *)
(** * The harness, whatever the server answers *)
(* ===================================================================== *)

Module RunFacts.

Import MachineInt Fuzz Client KeyValue Harness FuzzRun.

(** A server for the examples: it accepts every write and keeps no row;
    its clock counts the batches written. *)
#[local] Instance counting_server : TabletServer Z := {|
  Scan := fun _ t => ([], t);
  Write := fun session t => (map (fun _ => OK) session, t + 1);
  GetCurrentTime := fun t => t;
  Flush := fun t => (OK, t);
  FlushBiggestDMS := fun t => (OK, t);
  CompactWorstDeltas := fun _ t => (OK, t);
  Compact := fun t => (OK, t);
  RestartServer := fun t => (OK, t);
|}.

(** ** Updates, repeated *)

(** The [int] a [uint32_t] made from [v] converts back to: [v] itself when
    [v] is in the range of [int]. *)
Definition as_int (v : Z) : Z := to_int32 (to_uint32 v).

Lemma odd_to_int32 (x : Z) : Z.odd (to_int32 x) = Z.odd x.
Proof.
  unfold to_int32. pose proof (odd_to_uint32 x) as H. unfold to_uint32 in H.
  destruct (_ <? _); [exact H|].
  rewrite Z.odd_sub, H. unfold uint32_modulus. cbn. destruct (Z.odd x); reflexivity.
Qed.

Lemma odd_as_int (v : Z) : Z.odd (as_int v) = Z.odd v.
Proof. unfold as_int. rewrite odd_to_int32. apply odd_to_uint32. Qed.

(** The update [MutateRow] builds for sequence value [v]. *)
Definition update_op (key v : Z) : KuduWriteOperation :=
  mkWriteOp UPDATE (mkPartialRow KeyValueSchema (SetTo key) (encoded_column (as_int v))).

Lemma MutateRow_KeyValue key v session :
  MutateRow KeyValueSchema key (to_uint32 v) session
  = Done (mkRow key (encoded_val (as_int v)), session ++ [update_op key v]).
Proof.
  unfold MutateRow, update_op, encoded_val, encoded_column. cbn.
  rewrite low_bit_test, odd_to_uint32, even_negb_odd, odd_as_int.
  destruct (Z.odd v); reflexivity.
Qed.

(** The sequence values of [turns] updates from [i]. *)
Definition values_from (i : Z) (turns : nat) : list Z :=
  map (fun j => i + Z.of_nat j) (seq 0 turns).

Lemma values_from_S i turns : values_from i (S turns) = i :: values_from (i + 1) turns.
Proof.
  unfold values_from. cbn [seq map]. rewrite Z.add_0_r. f_equal.
  rewrite <- seq_shift, map_map. apply map_ext. intros j. lia.
Qed.

Section Run.

Context {T : Type} `{TabletServer T}.

Lemma update_loop_KeyValue turns key (t : FuzzTest T) :
  update_loop KeyValueSchema turns key t
  = Done (mkFuzzTest (cluster_ t)
            (session_ t ++ map (update_op key) (values_from (i t) turns))
            (saved_values_ t) (cur_val t)
            (match turns with
             | O => pending_val t
             | S n => <[Z.to_nat key :=
                          Some (mkRow key (encoded_val (as_int (i t + Z.of_nat n))))]>
                        (pending_val t)
             end)
            (i t + Z.of_nat turns) (expect_failures t)).
Proof.
  revert t. induction turns as [|n IH]; intros t.
  - cbn. rewrite app_nil_r, Z.add_0_r. destruct t; reflexivity.
  - cbn [update_loop]. rewrite MutateRow_KeyValue. cbn [mbind outcome_bind].
    rewrite IH. cbn [cluster_ session_ saved_values_ cur_val pending_val i expect_failures
                       set_i set_session set_pending_val].
    rewrite values_from_S. cbn [map]. rewrite <- app_assoc. cbn [app].
    replace (i t + 1 + Z.of_nat n) with (i t + Z.of_nat (S n)) by lia.
    destruct n as [|n].
    + rewrite Z.add_0_r. reflexivity.
    + rewrite list_insert_insert_eq.
      replace (i t + 1 + Z.of_nat n) with (i t + Z.of_nat (S n)) by lia.
      reflexivity.
Qed.

Lemma at_key_after_insert (v : Snapshot) (k k' : Z) (row : option ExpectedKeyValueRow) :
  0 <= k -> 0 <= k' ->
  at_key (<[Z.to_nat k := row]> v) k'
  = if bool_decide (k' = k /\ k < Z.of_nat (length v)) then row else at_key v k'.
Proof.
  intros Hk Hk'. unfold at_key.
  destruct (decide (k' = k)) as [->|Hne].
  - destruct (decide (k < Z.of_nat (length v))) as [Hlt|Hge].
    + rewrite bool_decide_eq_true_2 by (split; [reflexivity|exact Hlt]).
      rewrite list_lookup_insert_eq by lia. reflexivity.
    + rewrite bool_decide_eq_false_2 by (intros [_ ?]; contradiction).
      rewrite list_insert_ge by lia. reflexivity.
  - rewrite bool_decide_eq_false_2 by (intros [? _]; contradiction).
    rewrite list_lookup_insert_ne by lia. reflexivity.
Qed.

(** X12.  [TEST_UPDATE] with [update_multiplier] at most 0 does nothing,
    whatever the schema.  On the key/value schema, with a multiplier [m]
    above 0 and a key inside [pending_val], it buffers [m] updates of the
    key, in order, one for each of the sequence values [i], ..., [i + m - 1]
    (each passed as [uint32_t] and written as the [int] it converts back
    to), advances [i] by [m], and leaves in [pending_val] at the key the row
    of the last of them; it changes nothing else, and calls no server. *)
Theorem TEST_UPDATE_repeats (update_multiplier key : Z) (t : FuzzTest T) :
  (update_multiplier <= 0 ->
   forall schema_,
     RunFuzzCase_switch schema_ update_multiplier (mkTestOp TEST_UPDATE key) t = Done t)
  /\ (0 < update_multiplier ->
      0 <= key < Z.of_nat (length (pending_val t)) ->
      exists t',
        RunFuzzCase_switch KeyValueSchema update_multiplier (mkTestOp TEST_UPDATE key) t
        = Done t'
        /\ session_ t'
           = session_ t
             ++ map (update_op key) (values_from (i t) (Z.to_nat update_multiplier))
        /\ length (values_from (i t) (Z.to_nat update_multiplier))
           = Z.to_nat update_multiplier
        /\ i t' = i t + update_multiplier
        /\ at_key (pending_val t') key
           = Some (mkRow key (encoded_val (as_int (i t + update_multiplier - 1))))
        /\ (forall k, 0 <= k -> k <> key ->
                      at_key (pending_val t') k = at_key (pending_val t) k)
        /\ length (pending_val t') = length (pending_val t)
        /\ cluster_ t' = cluster_ t
        /\ cur_val t' = cur_val t
        /\ saved_values_ t' = saved_values_ t
        /\ expect_failures t' = expect_failures t)
  /\ (forall v, is_int32 v -> as_int v = v).
Proof.
  split; [|split].
  - intros Hm schema_. unfold RunFuzzCase_switch. cbn [type].
    replace (Z.to_nat update_multiplier) with 0%nat by lia. reflexivity.
  - intros Hm Hk. unfold RunFuzzCase_switch. cbn [type Fuzz.val].
    rewrite update_loop_KeyValue. eexists. split; [reflexivity|].
    cbn [cluster_ session_ saved_values_ cur_val pending_val i expect_failures].
    destruct (Z.to_nat update_multiplier) as [|n] eqn:Hn; [lia|].
    repeat split.
    + unfold values_from. rewrite length_map, length_seq. reflexivity.
    + lia.
    + rewrite at_key_after_insert by lia.
      rewrite bool_decide_eq_true_2 by lia.
      replace (i t + Z.of_nat n) with (i t + update_multiplier - 1) by lia. reflexivity.
    + intros k Hk0 Hne. rewrite at_key_after_insert by lia.
      rewrite bool_decide_eq_false_2 by (intros [? _]; contradiction). reflexivity.
    + apply length_insert.
  - intros v Hv. apply to_int32_to_uint32. exact Hv.
Qed.

(** Three updates of key 1 from sequence value 4, run. *)
Example TEST_UPDATE_runs :
  let t := mkFuzzTest 0 [] [] [None; None] [None; Some (mkRow 1 None)] 4 [] in
  RunFuzzCase_switch KeyValueSchema 3 (mkTestOp TEST_UPDATE 1) t
  = Done (mkFuzzTest 0 [update_op 1 4; update_op 1 5; update_op 1 6] [] [None; None]
            [None; Some (mkRow 1 (Some 6))] 7 [])
  /\ map write_row [update_op 1 4; update_op 1 5]
     = [mkPartialRow KeyValueSchema (SetTo 1) (SetTo 4);
        mkPartialRow KeyValueSchema (SetTo 1) SetToNull].
Proof. vm_compute. split; reflexivity. Qed.

(** ** What a turn of the loop can change *)

(** An invariant of the loop: kept by the comparison a turn starts with and
    by every [switch] that returns, for the operations that satisfy [Q]. *)
Lemma RunFuzzCase_loop_keeps schema_ mult (Q : TestOp -> Prop) (P : FuzzTest T -> Prop) :
  (forall op t, Q op -> P t -> P (RunFuzzCase_expect schema_ op t)) ->
  (forall op t t', Q op -> P t -> RunFuzzCase_switch schema_ mult op t = Done t' -> P t') ->
  forall ops t, Forall Q ops -> P t -> P (fst (RunFuzzCase_loop schema_ mult ops t)).
Proof.
  intros Hexp Hsw ops. induction ops as [|op ops IH]; intros t HQ HP; [exact HP|].
  apply Forall_cons in HQ as [Hop HQ]. cbn [RunFuzzCase_loop].
  pose proof (Hexp op t Hop HP) as HP1.
  destruct (RunFuzzCase_switch schema_ mult op (RunFuzzCase_expect schema_ op t))
    as [t'|f|] eqn:Hs; [|exact HP1..].
  apply IH; [exact HQ|]. exact (Hsw op _ t' Hop HP1 Hs).
Qed.


(** What each row operation leaves in the session: the session, and the
    operation it applied. *)
Lemma InsertOrUpsertRow_session schema_ k v old type session row session' :
  InsertOrUpsertRow schema_ k v old type session = Done (row, session') ->
  exists op, session' = session ++ [op].
Proof.
  unfold InsertOrUpsertRow. intros Hrun.
  destruct type, schema_; cbn in Hrun; try discriminate Hrun;
    try (destruct (negb (Z.land v 1 =? 0)); cbn in Hrun; try discriminate Hrun);
    injection Hrun as <- <-; eexists; reflexivity.
Qed.

Lemma MutateRow_session schema_ k v session row session' :
  MutateRow schema_ k v session = Done (row, session') ->
  exists op, session' = session ++ [op].
Proof.
  unfold MutateRow. intros Hrun.
  destruct schema_; cbn in Hrun;
    destruct (negb (Z.land v 1 =? 0)); cbn in Hrun; try discriminate Hrun;
    injection Hrun as <- <-; eexists; reflexivity.
Qed.

Lemma DeleteRow_session schema_ k session row session' :
  DeleteRow schema_ k session = Done (row, session') ->
  row = None /\ exists op, session' = session ++ [op].
Proof.
  unfold DeleteRow. intros Hrun.
  destruct schema_; cbn in Hrun; injection Hrun as <- <-;
    (split; [reflexivity|eexists; reflexivity]).
Qed.

(** What a turn keeps, stated once for the proofs below: [kept t t'] when
    [t'] has the expected rows and the snapshots of [t], a session that
    extends [t]'s, the failures of [t] first, and a sequence value not
    below [t]'s. *)
Record kept (flushes : bool) (t t' : FuzzTest T) : Prop := mkKept {
  kept_failures : exists more, expect_failures t' = expect_failures t ++ more;
  kept_i : i t <= i t';
  kept_size : length (pending_val t') = length (pending_val t);
  kept_cur : flushes = false -> cur_val t' = cur_val t;
  kept_saved : flushes = false -> saved_values_ t' = saved_values_ t;
  kept_session : flushes = false -> exists more, session_ t' = session_ t ++ more;
}.

Lemma kept_refl flushes t : kept flushes t t.
Proof.
  constructor; try reflexivity; try lia; try (intros _; exists []);
    try (exists []); rewrite ?app_nil_r; reflexivity.
Qed.

Lemma kept_trans flushes t1 t2 t3 : kept flushes t1 t2 -> kept flushes t2 t3 -> kept flushes t1 t3.
Proof.
  intros [[m1 Hf1] Hi1 Hz1 Hc1 Hs1 Hq1] [[m2 Hf2] Hi2 Hz2 Hc2 Hs2 Hq2]. constructor.
  - exists (m1 ++ m2). rewrite Hf2, Hf1, app_assoc. reflexivity.
  - lia.
  - congruence.
  - intros Hn. rewrite (Hc2 Hn). exact (Hc1 Hn).
  - intros Hn. rewrite (Hs2 Hn). exact (Hs1 Hn).
  - intros Hn. destruct (Hq1 Hn) as [a Ha], (Hq2 Hn) as [b Hb].
    exists (a ++ b). rewrite Hb, Ha, app_assoc. reflexivity.
Qed.

Lemma RunFuzzCase_expect_kept schema_ flushes op t :
  kept flushes t (RunFuzzCase_expect schema_ op t).
Proof.
  unfold RunFuzzCase_expect. destruct (IsMutation (type op)); [|apply kept_refl].
  destruct (GetRow schema_ (Fuzz.val op) (cluster_ t)) as [actual server].
  cbn [set_cluster cur_val]. destruct (bool_decide _).
  - constructor; cbn; try reflexivity; try lia; try (intros _; exists []);
      try (exists []); rewrite ?app_nil_r; reflexivity.
  - constructor; cbn; try reflexivity; try lia; try (intros _; exists []);
      try (eexists; reflexivity); rewrite ?app_nil_r; reflexivity.
Qed.

Lemma update_loop_kept schema_ flushes turns k (t t' : FuzzTest T) :
  update_loop schema_ turns k t = Done t' -> kept flushes t t'.
Proof.
  revert t. induction turns as [|n IH]; intros t Hrun.
  - injection Hrun as <-. apply kept_refl.
  - cbn [update_loop] in Hrun.
    destruct (MutateRow schema_ k (to_uint32 (i t)) (session_ t)) as [[row session]| |] eqn:Hm;
      try discriminate Hrun.
    cbn [mbind outcome_bind] in Hrun. apply IH in Hrun.
    apply MutateRow_session in Hm as [op ->].
    refine (kept_trans _ _ _ _ _ Hrun).
    constructor; cbn; try reflexivity; try lia.
    + exists []. rewrite app_nil_r. reflexivity.
    + apply length_insert.
    + intros _. eexists; reflexivity.
Qed.

Definition is_flush_ops (type : TestOpType) : bool :=
  match type with TEST_FLUSH_OPS => true | _ => false end.

Lemma RunFuzzCase_switch_kept schema_ mult op (t t' : FuzzTest T) :
  RunFuzzCase_switch schema_ mult op t = Done t' ->
  kept (is_flush_ops (type op)) t t'.
Proof.
  unfold RunFuzzCase_switch. intros Hrun.
  destruct (type op) eqn:Hty; cbn [is_flush_ops];
    try (destruct (InsertOrUpsertRow _ _ _ _ _ _) as [[row session]| |] eqn:Hi;
         try discriminate Hrun; injection Hrun as <-;
         apply InsertOrUpsertRow_session in Hi as [wop ->];
         constructor; cbn; try reflexivity; try lia;
         [exists []; rewrite app_nil_r; reflexivity | apply length_insert
         | intros _; eexists; reflexivity]);
    try (match type of Hrun with
         | context [ASSERT_OK ?r] =>
             unfold ASSERT_OK in Hrun; destruct (ok (fst r)); try discriminate Hrun;
             injection Hrun as <-; constructor; cbn; try reflexivity; try lia;
             try (intros _); exists []; rewrite app_nil_r; reflexivity
         end).
  - exact (update_loop_kept _ _ _ _ _ _ Hrun).
  - destruct (DeleteRow _ _ _) as [[row session]| |] eqn:Hd; try discriminate Hrun.
    injection Hrun as <-. apply DeleteRow_session in Hd as [-> [wop ->]].
    constructor; cbn; try reflexivity; try lia;
      [exists []; rewrite app_nil_r; reflexivity | apply length_insert
      | intros _; eexists; reflexivity].
  - unfold FlushSessionOrDie in Hrun.
    destruct (Write (session_ t) (cluster_ t)) as [statuses server].
    destruct (forallb ok statuses); try discriminate Hrun. injection Hrun as <-.
    constructor; cbn; try reflexivity; try lia; try discriminate.
    exists []. rewrite app_nil_r. reflexivity.
  - destruct (CheckScanAtTimestamp _ _ _) as [[|e errors] server]; try discriminate Hrun.
    injection Hrun as <-. constructor; cbn; try reflexivity; try lia;
      try (intros _); exists []; rewrite app_nil_r; reflexivity.
  - discriminate Hrun.
Qed.

Lemma kept_weaken flushes t t' : kept flushes t t' -> kept true t t'.
Proof. intros [? ? ? _ _ _]. constructor; try assumption; discriminate. Qed.

Lemma is_flush_ops_false type : type <> TEST_FLUSH_OPS -> is_flush_ops type = false.
Proof. destruct type; try reflexivity. intros Hne. contradiction. Qed.

(** X13.  Through any part of a run, whatever the server answers, the
    failures [EXPECT_EQ] has recorded stay recorded, in their order; the
    sequence value [i] never decreases; [pending_val] keeps its size.
    Through a part of the run with no [TEST_FLUSH_OPS], the expected rows
    [cur_val] that reads are compared with and the saved snapshots do not
    change, and the session only gains operations: what the operations
    write stays buffered and unexpected until the session is flushed. *)
Theorem RunFuzzCase_loop_between_flushes
    (schema_ : Schema) (update_multiplier : Z) (test_ops : list TestOp) (t : FuzzTest T) :
  (exists more,
      expect_failures (fst (RunFuzzCase_loop schema_ update_multiplier test_ops t))
      = expect_failures t ++ more)
  /\ i t <= i (fst (RunFuzzCase_loop schema_ update_multiplier test_ops t))
  /\ length (pending_val (fst (RunFuzzCase_loop schema_ update_multiplier test_ops t)))
     = length (pending_val t)
  /\ (Forall (fun op => type op <> TEST_FLUSH_OPS) test_ops ->
      cur_val (fst (RunFuzzCase_loop schema_ update_multiplier test_ops t)) = cur_val t
      /\ saved_values_ (fst (RunFuzzCase_loop schema_ update_multiplier test_ops t))
         = saved_values_ t
      /\ exists more,
          session_ (fst (RunFuzzCase_loop schema_ update_multiplier test_ops t))
          = session_ t ++ more).
Proof.
  assert (Hall : kept true t (fst (RunFuzzCase_loop schema_ update_multiplier test_ops t))).
  { apply (RunFuzzCase_loop_keeps schema_ update_multiplier (fun _ => True)
             (kept true t)).
    - intros op s _ Hs. exact (kept_trans _ _ _ _ Hs (RunFuzzCase_expect_kept _ _ _ _)).
    - intros op s s' _ Hs Hrun.
      exact (kept_trans _ _ _ _ Hs (kept_weaken _ _ _ (RunFuzzCase_switch_kept _ _ _ _ _ Hrun))).
    - apply Forall_forall. intros; exact I.
    - apply kept_refl. }
  destruct Hall as [Hf Hi Hz _ _ _].
  split; [exact Hf|]. split; [exact Hi|]. split; [exact Hz|].
  intros Hno.
  assert (Hk : kept false t (fst (RunFuzzCase_loop schema_ update_multiplier test_ops t))).
  { apply (RunFuzzCase_loop_keeps schema_ update_multiplier
             (fun op => type op <> TEST_FLUSH_OPS) (kept false t)).
    - intros op s _ Hs. exact (kept_trans _ _ _ _ Hs (RunFuzzCase_expect_kept _ _ _ _)).
    - intros op s s' Hop Hs Hrun. apply RunFuzzCase_switch_kept in Hrun.
      rewrite (is_flush_ops_false _ Hop) in Hrun. exact (kept_trans _ _ _ _ Hs Hrun).
    - exact Hno.
    - apply kept_refl. }
  destruct Hk as [_ _ _ Hc Hs Hq].
  split; [exact (Hc eq_refl)|]. split; [exact (Hs eq_refl)|exact (Hq eq_refl)].
Qed.

(** ** Flushing the session *)

(** X14.  [TEST_FLUSH_OPS] writes the session as one batch and returns
    only if every row status of the batch is OK.  When it returns, the
    server is the one the write left, the session is empty, [cur_val] is
    [pending_val], and
    [pending_val] is saved under the server's current time (as an [int]);
    [saved_values_] is still a map.  From then on a scan at a later
    timestamp, with no other snapshot saved at a time in between, passes
    [CheckRowsMatchAtTimestamp] exactly when it finds the rows of that
    [pending_val] that are not deleted; a scan at the time of the flush or
    before it is compared as it was before the flush. *)
Theorem TEST_FLUSH_OPS_saves_snapshot
    (schema_ : Schema) (update_multiplier v : Z) (t t' : FuzzTest T) :
  SavedValues.descending (saved_values_ t) ->
  RunFuzzCase_switch schema_ update_multiplier (mkTestOp TEST_FLUSH_OPS v) t = Done t' ->
  forallb ok (fst (Write (session_ t) (cluster_ t))) = true
  /\ cluster_ t' = snd (Write (session_ t) (cluster_ t))
  /\ session_ t' = []
  /\ cur_val t' = pending_val t
  /\ pending_val t' = pending_val t
  /\ saved_values_ t'
     = SavedValues.assign (to_int32 (GetCurrentTime (cluster_ t'))) (pending_val t)
         (saved_values_ t)
  /\ SavedValues.descending (saved_values_ t')
  /\ (forall timestamp rows_found,
        to_int32 (GetCurrentTime (cluster_ t')) < timestamp ->
        (forall ts saved, In (ts, saved) (saved_values_ t) ->
                          ts <= to_int32 (GetCurrentTime (cluster_ t')) \/ timestamp <= ts) ->
        (CheckRowsMatchAtTimestamp (saved_values_ t') timestamp rows_found [] = []
         <-> rows_found = expected_rows (pending_val t)))
  /\ (forall timestamp rows_found errors,
        timestamp <= to_int32 (GetCurrentTime (cluster_ t')) ->
        CheckRowsMatchAtTimestamp (saved_values_ t') timestamp rows_found errors
        = CheckRowsMatchAtTimestamp (saved_values_ t) timestamp rows_found errors).
Proof.
  intros Hd Hrun. unfold RunFuzzCase_switch in Hrun. cbn [type] in Hrun.
  unfold FlushSessionOrDie in Hrun.
  destruct (Write (session_ t) (cluster_ t)) as [statuses server].
  destruct (forallb ok statuses) eqn:Hok; [|discriminate Hrun].
  cbn in Hrun. injection Hrun as <-. cbn.
  split; [exact Hok|]. repeat (split; [reflexivity|]).
  split; [apply SavedValues.descending_assign; exact Hd|]. split.
  - intros timestamp rows_found Hlt Hgap.
    rewrite CheckRowsMatchAtTimestamp_empty.
    rewrite (SavedValues.upper_bound_assign_after _ _ _ _ Hd Hlt Hgap). reflexivity.
  - intros timestamp rows_found errors Hle. unfold CheckRowsMatchAtTimestamp.
    rewrite (SavedValues.upper_bound_assign_before _ _ _ _ Hle). reflexivity.
Qed.

(** A flush that fails: a row status that is not OK stops the run. *)
Lemma TEST_FLUSH_OPS_checks_statuses schema_ mult v (t : FuzzTest T) :
  forallb ok (fst (Write (session_ t) (cluster_ t))) = false ->
  RunFuzzCase_switch schema_ mult (mkTestOp TEST_FLUSH_OPS v) t = Crash CheckFailure.
Proof.
  intros Hok. unfold RunFuzzCase_switch. cbn [type]. unfold FlushSessionOrDie.
  destruct (Write (session_ t) (cluster_ t)) as [statuses server]. cbn in Hok.
  rewrite Hok. reflexivity.
Qed.

(** ** What stops a run *)







(** ** Sequences of [kPkOnlyOps] *)

(** A row operation that sets no value column. *)
Definition key_only (op : KuduWriteOperation) : Prop :=
  val_column (write_row op) = Unset.

(** A vector of expected rows none of which has a value. *)
Definition no_values (v : Snapshot) : Prop :=
  forall n row, v !! n = Some (Some row) -> KeyValue.val row = None.

Lemma no_values_replicate n : no_values (replicate n None).
Proof. intros m row Hm. apply lookup_replicate in Hm as [[=] _]. Qed.

Lemma no_values_insert v n new :
  no_values v -> (forall row, new = Some row -> KeyValue.val row = None) ->
  no_values (<[n := new]> v).
Proof.
  intros Hv Hnew m row Hm.
  apply list_lookup_insert_Some in Hm as [(_ & Hrow & _)|[_ Hm]].
  - apply Hnew. exact Hrow.
  - apply (Hv m row Hm).
Qed.

Lemma no_values_at_key v k old :
  no_values v -> at_key v k = Some old -> KeyValue.val old = None.
Proof.
  unfold at_key. intros Hv Hold.
  destruct (v !! Z.to_nat k) as [o|] eqn:Hl; cbn in Hold; [|discriminate].
  subst o. exact (Hv _ _ Hl).
Qed.

Record PkOnly (t : FuzzTest T) : Prop := mkPkOnly {
  pk_session : Forall key_only (session_ t);
  pk_pending : no_values (pending_val t);
  pk_cur : no_values (cur_val t);
  pk_saved : forall ts saved, In (ts, saved) (saved_values_ t) -> no_values saved;
}.

Lemma RunFuzzCase_expect_PkOnly schema_ op t :
  PkOnly t -> PkOnly (RunFuzzCase_expect schema_ op t).
Proof.
  intros [Hs Hp Hc Hv]. unfold RunFuzzCase_expect.
  destruct (IsMutation (type op)); [|constructor; assumption].
  destruct (GetRow schema_ (Fuzz.val op) (cluster_ t)) as [actual server].
  cbn [set_cluster cur_val]. destruct (bool_decide _); constructor; assumption.
Qed.

Lemma RunFuzzCase_switch_PkOnly schema_ mult op (t t' : FuzzTest T) :
  In (type op) kPkOnlyOps ->
  PkOnly t -> RunFuzzCase_switch schema_ mult op t = Done t' -> PkOnly t'.
Proof.
  intros Hty [Hs Hp Hc Hv]. unfold RunFuzzCase_switch. intros Hrun.
  destruct (type op) eqn:Hop;
    try (exfalso; cbn in Hty;
         repeat (destruct Hty as [Hty|Hty]; [discriminate Hty|]); exact Hty);
    try (match type of Hrun with
         | context [ASSERT_OK ?r] =>
             unfold ASSERT_OK in Hrun; destruct (ok (fst r)); try discriminate Hrun;
             injection Hrun as <-; constructor; assumption
         end).
  - unfold InsertOrUpsertRow in Hrun. destruct schema_; cbn in Hrun;
      injection Hrun as <-; constructor; cbn; try assumption;
      try (apply Forall_app; split; [exact Hs|repeat constructor]);
      apply no_values_insert; try assumption; intros row [= <-]; reflexivity.
  - unfold InsertOrUpsertRow in Hrun.
    assert (Hold : match at_key (pending_val t) (Fuzz.val op) with
                   | Some old => KeyValue.val old
                   | None => None
                   end = None).
    { destruct (at_key (pending_val t) (Fuzz.val op)) as [old|] eqn:Ho; [|reflexivity].
      exact (no_values_at_key _ _ _ Hp Ho). }
    destruct schema_; cbn in Hrun;
      injection Hrun as <-; constructor; cbn; try assumption;
      try (apply Forall_app; split; [exact Hs|repeat constructor]);
      apply no_values_insert; try assumption; intros row [= <-]; exact Hold.
  - unfold DeleteRow in Hrun. destruct schema_; cbn in Hrun;
      injection Hrun as <-; constructor; cbn; try assumption;
      try (apply Forall_app; split; [exact Hs|repeat constructor]);
      apply no_values_insert; try assumption; intros row [=].
  - unfold FlushSessionOrDie in Hrun.
    destruct (Write (session_ t) (cluster_ t)) as [statuses server].
    destruct (forallb ok statuses); try discriminate Hrun. injection Hrun as <-.
    constructor; cbn; try assumption; [constructor|].
    intros ts saved Hin. apply SavedValues.In_assign in Hin as [[_ ->]|Hin];
      [exact Hp | exact (Hv _ _ Hin)].
  - destruct (CheckScanAtTimestamp _ _ _) as [[|e errors] server]; try discriminate Hrun.
    injection Hrun as <-. constructor; assumption.
Qed.

(** X16.  A sequence of operations of [kPkOnlyOps] never brings a value
    in, whatever the schema and the server: when [RunFuzzCase] is left,
    every operation still in the session sets the key column and no other,
    and no row of [pending_val], of [cur_val] or of a saved snapshot has a
    value, so every row a read or a snapshot scan is expected to find has
    none. *)
Theorem RunFuzzCase_PK_ONLY_has_no_values
    (keyspace_size : Z) (schema_ : Schema) (test_ops : list TestOp)
    (update_multiplier : Z) (server : T) :
  Forall (fun op => In (type op) kPkOnlyOps) test_ops ->
  Forall key_only
    (session_ (fst (RunFuzzCase keyspace_size schema_ test_ops update_multiplier server)))
  /\ no_values
       (pending_val (fst (RunFuzzCase keyspace_size schema_ test_ops update_multiplier
                            server)))
  /\ no_values
       (cur_val (fst (RunFuzzCase keyspace_size schema_ test_ops update_multiplier server)))
  /\ (forall ts saved,
        In (ts, saved)
           (saved_values_
              (fst (RunFuzzCase keyspace_size schema_ test_ops update_multiplier server))) ->
        no_values saved
        /\ Forall (fun row => KeyValue.val row = None) (expected_rows saved)).
Proof.
  intros Hops.
  assert (Hinit : PkOnly (RunFuzzCase_init keyspace_size server)).
  { constructor; cbn; try apply no_values_replicate; [constructor|intros ts saved []]. }
  assert (Hrun : PkOnly (fst (RunFuzzCase keyspace_size schema_ test_ops
                                update_multiplier server))).
  { unfold RunFuzzCase.
    destruct (ValidateFuzzCase keyspace_size test_ops) as [u|f|]; [|exact Hinit..].
    destruct (keyspace_size <? 0); [exact Hinit|].
    apply (RunFuzzCase_loop_keeps schema_ update_multiplier
             (fun op => In (type op) kPkOnlyOps) PkOnly).
    - intros op t _. apply RunFuzzCase_expect_PkOnly.
    - intros op t t'. apply RunFuzzCase_switch_PkOnly.
    - exact Hops.
    - exact Hinit. }
  destruct Hrun as [Hs Hp Hc Hv].
  split; [exact Hs|]. split; [exact Hp|]. split; [exact Hc|].
  intros ts saved Hin. pose proof (Hv _ _ Hin) as Hsaved. split; [exact Hsaved|].
  apply Forall_forall. intros row Hrow. unfold expected_rows in Hrow.
  apply list_elem_of_omap in Hrow as (o & Ho & Hid). cbn in Hid. subst o.
  apply list_elem_of_lookup_1 in Ho as [n Hn]. exact (Hsaved _ _ Hn).
Qed.

(** ** The sizes of the vectors *)

Lemma length_expected_rows (saved : Snapshot) :
  (length (expected_rows saved) <= length saved)%nat.
Proof.
  unfold expected_rows. induction saved as [|[row|] saved IH]; cbn; lia.
Qed.

Record Sized (n : nat) (t : FuzzTest T) : Prop := mkSized {
  sized_pending : length (pending_val t) = n;
  sized_cur : length (cur_val t) = n;
  sized_saved : forall ts saved, In (ts, saved) (saved_values_ t) -> length saved = n;
}.

Lemma RunFuzzCase_expect_Sized schema_ n op t :
  Sized n t -> Sized n (RunFuzzCase_expect schema_ op t).
Proof.
  intros [Hp Hc Hv]. unfold RunFuzzCase_expect.
  destruct (IsMutation (type op)); [|constructor; assumption].
  destruct (GetRow schema_ (Fuzz.val op) (cluster_ t)) as [actual server].
  cbn [set_cluster cur_val]. destruct (bool_decide _); constructor; assumption.
Qed.

Lemma RunFuzzCase_switch_Sized schema_ mult n op (t t' : FuzzTest T) :
  Sized n t -> RunFuzzCase_switch schema_ mult op t = Done t' -> Sized n t'.
Proof.
  intros [Hp Hc Hv] Hrun.
  pose proof (RunFuzzCase_switch_kept _ _ _ _ _ Hrun) as [_ _ Hz Hkc Hks _].
  destruct (is_flush_ops (type op)) eqn:Hfl.
  - unfold RunFuzzCase_switch in Hrun. destruct (type op); try discriminate Hfl.
    unfold FlushSessionOrDie in Hrun.
    destruct (Write (session_ t) (cluster_ t)) as [statuses server].
    destruct (forallb ok statuses); try discriminate Hrun. injection Hrun as <-.
    constructor; cbn; try assumption.
    intros ts saved Hin. apply SavedValues.In_assign in Hin as [[_ ->]|Hin];
      [exact Hp | exact (Hv _ _ Hin)].
  - constructor.
    + rewrite Hz. exact Hp.
    + rewrite (Hkc eq_refl). exact Hc.
    + rewrite (Hks eq_refl). exact Hv.
Qed.

(** X17.  [cur_val] and [pending_val] are created with [FLAGS_keyspace_size]
    entries and an operation replaces entries only: when [RunFuzzCase] is
    left they and every saved snapshot still have that size, so no
    snapshot expects more than [FLAGS_keyspace_size] rows. *)
Theorem RunFuzzCase_vector_sizes
    (keyspace_size : Z) (schema_ : Schema) (test_ops : list TestOp)
    (update_multiplier : Z) (server : T) :
  length (pending_val (fst (RunFuzzCase keyspace_size schema_ test_ops update_multiplier
                              server)))
  = Z.to_nat keyspace_size
  /\ length (cur_val (fst (RunFuzzCase keyspace_size schema_ test_ops update_multiplier
                             server)))
     = Z.to_nat keyspace_size
  /\ (forall ts saved,
        In (ts, saved)
           (saved_values_
              (fst (RunFuzzCase keyspace_size schema_ test_ops update_multiplier server))) ->
        length saved = Z.to_nat keyspace_size
        /\ (length (expected_rows saved) <= Z.to_nat keyspace_size)%nat).
Proof.
  assert (Hinit : Sized (Z.to_nat keyspace_size) (RunFuzzCase_init keyspace_size server)).
  { constructor; cbn; try apply length_replicate. intros ts saved []. }
  assert (Hrun : Sized (Z.to_nat keyspace_size)
                   (fst (RunFuzzCase keyspace_size schema_ test_ops update_multiplier
                           server))).
  { unfold RunFuzzCase.
    destruct (ValidateFuzzCase keyspace_size test_ops) as [u|f|]; [|exact Hinit..].
    destruct (keyspace_size <? 0); [exact Hinit|].
    apply (RunFuzzCase_loop_keeps schema_ update_multiplier (fun _ => True)
             (Sized (Z.to_nat keyspace_size))).
    - intros op t _. apply RunFuzzCase_expect_Sized.
    - intros op t t' _. apply RunFuzzCase_switch_Sized.
    - apply Forall_forall. intros; exact I.
    - exact Hinit. }
  destruct Hrun as [Hp Hc Hv].
  split; [exact Hp|]. split; [exact Hc|].
  intros ts saved Hin. pose proof (Hv _ _ Hin) as Hlen. split; [exact Hlen|].
  rewrite <- Hlen. apply length_expected_rows.
Qed.

End Run.

(** ** The theorems on concrete runs *)

(** A fixture with one update buffered, on the counting server at time 3,
    and the fixture [TEST_FLUSH_OPS] leaves. *)
Definition before_flush : FuzzTest Z :=
  mkFuzzTest 3 [update_op 1 4] [(2, [None; Some (mkRow 1 None)])]
    [None; Some (mkRow 1 None)] [None; Some (mkRow 1 (Some 4))] 5 [].

Definition after_flush : FuzzTest Z :=
  mkFuzzTest 4 []
    [(4, [None; Some (mkRow 1 (Some 4))]); (2, [None; Some (mkRow 1 None)])]
    [None; Some (mkRow 1 (Some 4))] [None; Some (mkRow 1 (Some 4))] 5 [].

Lemma TEST_FLUSH_OPS_saves_snapshot_witness :
  SavedValues.descending (saved_values_ before_flush)
  /\ RunFuzzCase_switch KeyValueSchema 1 (mkTestOp TEST_FLUSH_OPS 0) before_flush
     = Done after_flush
  /\ cur_val after_flush = pending_val before_flush
  /\ (CheckRowsMatchAtTimestamp (saved_values_ after_flush) 5 [mkRow 1 (Some 4)] [] = []
      <-> [mkRow 1 (Some 4)] = expected_rows (pending_val before_flush))
  /\ CheckRowsMatchAtTimestamp (saved_values_ after_flush) 4 [mkRow 1 None] []
     = CheckRowsMatchAtTimestamp (saved_values_ before_flush) 4 [mkRow 1 None] [].
Proof.
  assert (Hd : SavedValues.descending (saved_values_ before_flush)).
  { cbn. split; [intros k' v' []|exact I]. }
  assert (Hrun : RunFuzzCase_switch KeyValueSchema 1 (mkTestOp TEST_FLUSH_OPS 0) before_flush
                 = Done after_flush) by reflexivity.
  split; [exact Hd|]. split; [exact Hrun|].
  destruct (TEST_FLUSH_OPS_saves_snapshot KeyValueSchema 1 0 before_flush after_flush
              Hd Hrun) as (_ & _ & _ & Hc & _ & _ & _ & Hafter & Hbefore).
  split; [exact Hc|]. split.
  - apply Hafter.
    + vm_compute. reflexivity.
    + intros ts saved [[= <- <-]|[]]. left. vm_compute. discriminate.
  - apply Hbefore. vm_compute. discriminate.
Defined.

(** A server that refuses every compaction of the tablet. *)
#[local] Instance refusing_server : TabletServer unit := {|
  Scan := fun _ t => ([], t);
  Write := fun session t => (map (fun _ => OK) session, t);
  GetCurrentTime := fun _ => 1;
  Flush := fun t => (OK, t);
  FlushBiggestDMS := fun t => (OK, t);
  CompactWorstDeltas := fun _ t => (OK, t);
  Compact := fun t => (InvalidArgument, t);
  RestartServer := fun t => (OK, t);
|}.

Definition stopped_case : list TestOp :=
  [mkTestOp TEST_INSERT_PK_ONLY 0; mkTestOp TEST_FLUSH_OPS 0;
   mkTestOp TEST_COMPACT_TABLET 0; mkTestOp TEST_DELETE 0].


Definition pk_only_case : list TestOp :=
  [mkTestOp TEST_UPSERT_PK_ONLY 1; mkTestOp TEST_FLUSH_OPS 0;
   mkTestOp TEST_MINOR_COMPACT_DELTAS 0; mkTestOp TEST_INSERT_PK_ONLY 0].

Lemma RunFuzzCase_PK_ONLY_has_no_values_witness :
  Forall (fun op => In (type op) kPkOnlyOps) pk_only_case
  /\ Forall key_only (session_ (fst (RunFuzzCase 2 KeyValueSchema pk_only_case 1 0)))
  /\ no_values (pending_val (fst (RunFuzzCase 2 KeyValueSchema pk_only_case 1 0))).
Proof.
  assert (Hops : Forall (fun op => In (type op) kPkOnlyOps) pk_only_case).
  { repeat constructor; cbn; tauto. }
  split; [exact Hops|].
  destruct (RunFuzzCase_PK_ONLY_has_no_values 2 KeyValueSchema pk_only_case 1 0 Hops)
    as (Hs & Hp & _).
  split; [exact Hs|exact Hp].
Defined.

(** The runs above, evaluated. *)
Example concrete_runs :
  RunFuzzCase_loop PkOnlySchema 1 stopped_case (RunFuzzCase_init 2 tt)
  = (mkFuzzTest tt [] [(1, [Some (mkRow 0 None); None])]
       [Some (mkRow 0 None); None] [Some (mkRow 0 None); None] 1 [],
     Some FatalTestFailure)
  /\ RunFuzzCase 2 KeyValueSchema pk_only_case 1 0
     = (mkFuzzTest 1
          [mkWriteOp INSERT (mkPartialRow KeyValueSchema (SetTo 0) Unset)]
          [(1, [None; Some (mkRow 1 None)])]
          [None; Some (mkRow 1 None)]
          [Some (mkRow 0 None); Some (mkRow 1 None)] 2 [],
        None).
Proof. vm_compute. split; reflexivity. Qed.

End RunFacts.
